(** * Edge/Cloud resource allocation for IoT: a shallow embedding

    The development follows the C++ sources:
    - [include/structs.h]        the capacity model (Device, Server, supply);
    - [include/utils.h]          random draws and the tie-breaking index sort;
    - [NetworkResourceAllocation] (second half of [include/DataGenerator.h])
                                 coverage, timing, metrics, pre-calculation;
    - [include/Heuristics.h]     the Random and Greedy strategies;
    - [MetaHeuristics.h]         neighbour generation and simulated annealing.

    Conventions of the model.
    - [int] is [Z] (the integers involved are small counts and indices;
      signed overflow, undefined in C++, is out of scope); [double] is the
      field of canonical rationals [Qc] (exact arithmetic, Leibniz
      equality): no NaN, no rounding.  Where rounding decides a property
      (the commit/release round trip), the operations are taken with
      their rounding to the nearest double, [round_binary64].
    - [std::vector<T>] is [list T]; [v.at(i)] is [vat v i], which throws
      [out_of_range] outside the vector.
    - [std::set<int>] is [gset Z].
    - C++ exceptions are the [Throw] outcome of the [result] type.
    - The process-wide [std::mt19937] is an explicit [Engine]: an arbitrary
      sequence of raw draws with a read position.
    - Wall-clock measurements ([execution_time_sec]) are not modelled. *)

From Stdlib Require Import ZArith QArith Qcanon Lia Lqa Ascii String.
From Stdlib Require Qcabs.
From stdpp Require Import base gmap sets list numbers sorting.

Set Warnings "-clear-no-such-hyp".

Open Scope Z_scope.
Open Scope Qc_scope.

(* ===================================================================== *)
(** * Numbers *)
(* ===================================================================== *)

(** A decimal literal [n / d] as a [double]. *)
Definition dec (n : Z) (d : positive) : Qc := Q2Qc (n # d).

Definition Qcleb (x y : Qc) : bool := bool_decide (x ≤ y).
Definition Qcltb (x y : Qc) : bool := bool_decide (x < y).
Definition Qceqb (x y : Qc) : bool := bool_decide (x = y).

Ltac qc_lra :=
  unfold Qcle, Qclt, Qcminus, Qcplus, Qcopp, Qcmult in *; simpl in *;
  repeat match goal with
  | H : context [Qred _] |- _ => rewrite Qred_correct in H
  | |- context [Qred _] => rewrite Qred_correct
  end; lra.

(* ===================================================================== *)
(** * Exceptions and vectors *)
(* ===================================================================== *)

Inductive exception := out_of_range | invalid_argument.

(** Outcome of a computation: a value, a C++ exception, or (for the
    annealing loops only) exhaustion of the iteration budget. *)
Inductive result (A : Type) :=
| Ok (a : A)
| Throw (e : exception)
| Fuel.
Arguments Ok {A} a.
Arguments Throw {A} e.
Arguments Fuel {A}.

#[global] Instance result_ret : MRet result := λ A a, Ok a.
#[global] Instance result_bind : MBind result := λ A B k r,
  match r with
  | Ok a => k a
  | Throw e => Throw e
  | Fuel => Fuel
  end.

(** [v.at(i)]: bounds-checked access; a negative [int] converts to a huge
    [size_t] and is out of range as well. *)
Definition vat {A} (v : list A) (i : Z) : result A :=
  if (i <? 0)%Z then Throw out_of_range
  else match v !! Z.to_nat i with
       | Some x => Ok x
       | None => Throw out_of_range
       end.

(** Write through a reference obtained from [v.at(i)]: only used on an
    index at which [vat] has succeeded. *)
Definition vset {A} (v : list A) (i : Z) (x : A) : list A :=
  <[Z.to_nat i := x]> v.

(* ===================================================================== *)
(** * structs.h *)
(* ===================================================================== *)

Record server_covering := {
  sc_id : Z;
  id_routing : Z;
  distance : Qc;
  connectionTime : Qc;
  processingTime : Qc;
  responseTime : Qc
}.

(** The three constructors of [server_covering]. *)
Definition server_covering0 : server_covering :=
  {| sc_id := 0; id_routing := 0; distance := 0; connectionTime := 0;
     processingTime := 0; responseTime := 0 |}.
Definition server_covering1 (id_ : Z) : server_covering :=
  {| sc_id := id_; id_routing := 0; distance := 0; connectionTime := 0;
     processingTime := 0; responseTime := 0 |}.
Definition server_covering2 (id_ : Z) (distance_ : Qc) : server_covering :=
  {| sc_id := id_; id_routing := 0; distance := distance_; connectionTime := 0;
     processingTime := 0; responseTime := 0 |}.

Record server_supply := {
  pcnD : Z;
  cndD : Qc;
  pccD : Qc;
  memD : Qc;
  stoD : Qc;
  bwD : Qc;
  devices_served : gset Z
}.

Definition server_supply0 : server_supply :=
  {| pcnD := 0; cndD := 0; pccD := 0; memD := 0; stoD := 0; bwD := 0;
     devices_served := ∅ |}.

Record Device := {
  d_id : Z; d_pcn : Z; svc : Z;
  d_lat : Qc; d_lon : Qc; cnd : Qc; pcc : Qc; d_mem : Qc; d_sto : Qc; s_d : Qc;
  d_bw : Qc;
  covered : bool;
  served : bool;
  server : server_covering;
  servers : list server_covering
}.

(** [Device()] and the ten-argument constructor. *)
Definition Device0 : Device :=
  {| d_id := 0; d_pcn := 0; svc := 0; d_lat := 0; d_lon := 0; cnd := 0;
     pcc := 0; d_mem := 0; d_sto := 0; s_d := 0; d_bw := 0;
     covered := false; served := false; server := server_covering0;
     servers := [] |}.
Definition mkDevice (id_ : Z) (lat_ lon_ cnd_ pcc_ : Qc) (pcn_ : Z)
    (mem_ sto_ s_d_ : Qc) (svc_ : Z) : Device :=
  {| d_id := id_; d_pcn := pcn_; svc := svc_; d_lat := lat_; d_lon := lon_;
     cnd := cnd_; pcc := pcc_; d_mem := mem_; d_sto := sto_; s_d := s_d_;
     d_bw := 0; covered := false; served := false;
     server := server_covering0; servers := [] |}.

Definition set_bw (x : Qc) (d : Device) : Device :=
  {| d_id := d_id d; d_pcn := d_pcn d; svc := svc d; d_lat := d_lat d;
     d_lon := d_lon d; cnd := cnd d; pcc := pcc d; d_mem := d_mem d;
     d_sto := d_sto d; s_d := s_d d; d_bw := x; covered := covered d;
     served := served d; server := server d; servers := servers d |}.
Definition set_covered (b : bool) (d : Device) : Device :=
  {| d_id := d_id d; d_pcn := d_pcn d; svc := svc d; d_lat := d_lat d;
     d_lon := d_lon d; cnd := cnd d; pcc := pcc d; d_mem := d_mem d;
     d_sto := d_sto d; s_d := s_d d; d_bw := d_bw d; covered := b;
     served := served d; server := server d; servers := servers d |}.
Definition set_served (b : bool) (d : Device) : Device :=
  {| d_id := d_id d; d_pcn := d_pcn d; svc := svc d; d_lat := d_lat d;
     d_lon := d_lon d; cnd := cnd d; pcc := pcc d; d_mem := d_mem d;
     d_sto := d_sto d; s_d := s_d d; d_bw := d_bw d; covered := covered d;
     served := b; server := server d; servers := servers d |}.
Definition set_server (c : server_covering) (d : Device) : Device :=
  {| d_id := d_id d; d_pcn := d_pcn d; svc := svc d; d_lat := d_lat d;
     d_lon := d_lon d; cnd := cnd d; pcc := pcc d; d_mem := d_mem d;
     d_sto := d_sto d; s_d := s_d d; d_bw := d_bw d; covered := covered d;
     served := served d; server := c; servers := servers d |}.
Definition set_servers (l : list server_covering) (d : Device) : Device :=
  {| d_id := d_id d; d_pcn := d_pcn d; svc := svc d; d_lat := d_lat d;
     d_lon := d_lon d; cnd := cnd d; pcc := pcc d; d_mem := d_mem d;
     d_sto := d_sto d; s_d := s_d d; d_bw := d_bw d; covered := covered d;
     served := served d; server := server d; servers := l |}.

Record Server := {
  s_id : Z; s_pcn : Z;
  s_type : ascii;
  s_lat : Qc; s_lon : Qc; csc : Qc; pcc_per_core : Qc; pcc_total : Qc;
  s_mem : Qc; s_sto : Qc; t_p : Qc;
  s_bw : Qc;
  on : bool;
  supply : server_supply
}.

(** [Server()] and the ten-argument constructor
    ([pcc_total = pcc_ * pcn_]). *)
Definition Server0 : Server :=
  {| s_id := 0; s_pcn := 0; s_type := " "%char; s_lat := 0; s_lon := 0;
     csc := 0; pcc_per_core := 0; pcc_total := 0; s_mem := 0; s_sto := 0;
     t_p := 0; s_bw := 0; on := false; supply := server_supply0 |}.
Definition mkServer (id_ : Z) (lat_ lon_ csc_ pcc_ : Qc) (pcn_ : Z)
    (mem_ sto_ t_p_ : Qc) (type_ : ascii) : Server :=
  {| s_id := id_; s_pcn := pcn_; s_type := type_; s_lat := lat_;
     s_lon := lon_; csc := csc_; pcc_per_core := pcc_;
     pcc_total := pcc_ * Q2Qc (inject_Z pcn_); s_mem := mem_; s_sto := sto_;
     t_p := t_p_; s_bw := 0; on := false; supply := server_supply0 |}.

Definition set_s_bw (x : Qc) (s : Server) : Server :=
  {| s_id := s_id s; s_pcn := s_pcn s; s_type := s_type s; s_lat := s_lat s;
     s_lon := s_lon s; csc := csc s; pcc_per_core := pcc_per_core s;
     pcc_total := pcc_total s; s_mem := s_mem s; s_sto := s_sto s;
     t_p := t_p s; s_bw := x; on := on s; supply := supply s |}.
Definition set_on (b : bool) (s : Server) : Server :=
  {| s_id := s_id s; s_pcn := s_pcn s; s_type := s_type s; s_lat := s_lat s;
     s_lon := s_lon s; csc := csc s; pcc_per_core := pcc_per_core s;
     pcc_total := pcc_total s; s_mem := s_mem s; s_sto := s_sto s;
     t_p := t_p s; s_bw := s_bw s; on := b; supply := supply s |}.
Definition set_supply (u : server_supply) (s : Server) : Server :=
  {| s_id := s_id s; s_pcn := s_pcn s; s_type := s_type s; s_lat := s_lat s;
     s_lon := s_lon s; csc := csc s; pcc_per_core := pcc_per_core s;
     pcc_total := pcc_total s; s_mem := s_mem s; s_sto := s_sto s;
     t_p := t_p s; s_bw := s_bw s; on := on s; supply := u |}.

(** [Server::canServe]: the five-dimensional capacity check. *)
Definition canServe (this : Server) (device : Device) : bool :=
  Qcleb (pccD (supply this) + pcc device) (pcc_total this) &&
  bool_decide (pcnD (supply this) + d_pcn device ≤ s_pcn this)%Z &&
  Qcleb (memD (supply this) + d_mem device) (s_mem this) &&
  Qcleb (stoD (supply this) + d_sto device) (s_sto this) &&
  Qcleb (bwD (supply this) + d_bw device) (s_bw this).

(** [Server::addServed]: returns the flag together with the updated server
    and the updated device (both are mutated through references). *)
Definition addServed (this : Server) (device : Device)
    : bool * Server * Device :=
  if bool_decide (d_id device ∈ devices_served (supply this)) then
    (false, this, device)
  else
    let u := supply this in
    (true,
     set_supply
       {| pcnD := (pcnD u + d_pcn device)%Z;
          cndD := cndD u + cnd device;
          pccD := pccD u + pcc device;
          memD := memD u + d_mem device;
          stoD := stoD u + d_sto device;
          bwD := bwD u + d_bw device;
          devices_served := {[d_id device]} ∪ devices_served u |}
       (set_on true this),
     set_served true device).

(** [Server::rmvServed]. *)
Definition rmvServed (this : Server) (device : Device)
    : bool * Server * Device :=
  if bool_decide (d_id device ∉ devices_served (supply this)) then
    (false, this, device)
  else
    let u := supply this in
    let served' := devices_served u ∖ {[d_id device]} in
    let this' :=
      set_supply
        {| pcnD := (pcnD u - d_pcn device)%Z;
           cndD := cndD u - cnd device;
           pccD := pccD u - pcc device;
           memD := memD u - d_mem device;
           stoD := stoD u - d_sto device;
           bwD := bwD u - d_bw device;
           devices_served := served' |}
        this in
    (true,
     if bool_decide (served' = ∅) then set_on false this' else this',
     set_served false device).

(** ** Doubles with their rounding *)

(** A finite [double] is a rational number, and [x += y], [x -= y] store
    the exact sum or difference rounded to the nearest double, ties to
    the even significand.  [round_binary64] is that rounding: 53
    significant bits.  The exponent is not bounded here: a result beyond
    the largest double (an infinity in the machine) and NaN are outside
    the model; sums and differences of doubles in the subnormal range
    are exact in the machine and here alike. *)

(** [2^e * d ≤ n], for either sign of [e]. *)
Definition pow2_le (e : Z) (n : Z) (d : positive) : bool :=
  if (0 <=? e)%Z then (Z.pos d * 2 ^ e <=? n)%Z
  else (Z.pos d <=? n * 2 ^ (- e))%Z.

(** The binary exponent [e] of [n/d] for [0 < n]:
    [2^e ≤ n/d < 2^(e+1)]. *)
Definition exponent (n : Z) (d : positive) : Z :=
  let e0 := (Z.log2 n - Z.log2 (Z.pos d))%Z in
  if pow2_le e0 n d then e0 else (e0 - 1)%Z.

(** [num/den] rounded to the nearest integer, ties to even. *)
Definition nearest_even (num den : Z) : Z :=
  let q := (num / den)%Z in
  let r := (num mod den)%Z in
  if (2 * r <? den)%Z then q
  else if (den <? 2 * r)%Z then (q + 1)%Z
  else if Z.even q then q else (q + 1)%Z.

(** [a/d], for [0 < a], rounded to 53 significant bits: the significand
    is [a/d] scaled by [2^-s] into [2^52, 2^53) and rounded. *)
Definition round_magnitude (a : Z) (d : positive) : Q :=
  let s := (exponent a d - 52)%Z in
  if (0 <=? s)%Z
  then inject_Z (nearest_even a (Z.pos d * 2 ^ s) * 2 ^ s)
  else nearest_even (a * 2 ^ (- s)) (Z.pos d) # Z.to_pos (2 ^ (- s)).

Definition round_binary64 (x : Qc) : Qc :=
  let n := Qnum x in
  if (n =? 0)%Z then 0
  else if (n <? 0)%Z then - Q2Qc (round_magnitude (- n) (Qden x))
  else Q2Qc (round_magnitude n (Qden x)).

(** The unit roundoff of [double], [2^-53]. *)
Definition unit_roundoff : Qc := dec 1 9007199254740992.

Section Rounded.

(** The rounding applied by every [+=] and [-=] on a [double]. *)
Variable rnd : Qc → Qc.

(** [Server::addServed] with the rounding of its five [double]
    updates; the core count is an [int]. *)
Definition addServed_rounded (this : Server) (device : Device)
    : bool * Server * Device :=
  if bool_decide (d_id device ∈ devices_served (supply this)) then
    (false, this, device)
  else
    let u := supply this in
    (true,
     set_supply
       {| pcnD := (pcnD u + d_pcn device)%Z;
          cndD := rnd (cndD u + cnd device);
          pccD := rnd (pccD u + pcc device);
          memD := rnd (memD u + d_mem device);
          stoD := rnd (stoD u + d_sto device);
          bwD := rnd (bwD u + d_bw device);
          devices_served := {[d_id device]} ∪ devices_served u |}
       (set_on true this),
     set_served true device).

(** [Server::rmvServed], likewise. *)
Definition rmvServed_rounded (this : Server) (device : Device)
    : bool * Server * Device :=
  if bool_decide (d_id device ∉ devices_served (supply this)) then
    (false, this, device)
  else
    let u := supply this in
    let served' := devices_served u ∖ {[d_id device]} in
    let this' :=
      set_supply
        {| pcnD := (pcnD u - d_pcn device)%Z;
           cndD := rnd (cndD u - cnd device);
           pccD := rnd (pccD u - pcc device);
           memD := rnd (memD u - d_mem device);
           stoD := rnd (stoD u - d_sto device);
           bwD := rnd (bwD u - d_bw device);
           devices_served := served' |}
        this in
    (true,
     if bool_decide (served' = ∅) then set_on false this' else this',
     set_served false device).

End Rounded.

(* ===================================================================== *)
(** * utils.h: randomness *)
(* ===================================================================== *)

(** The shared random engine ([utils::getEngine]): the sequence of raw
    values it will produce and how many have been consumed.  Every
    statement below quantifies over all engines, hence over all outcomes
    of the draws. *)
Record Engine := { raw : nat → Z; pos : nat }.

Definition next (e : Engine) : Z * Engine :=
  (raw e (pos e), {| raw := raw e; pos := S (pos e) |}).

(** [utils::randomNumber<int>(min, max)]: throws when [min > max],
    otherwise some integer of [[min, max]] chosen by the engine. *)
Definition randomNumber (min max : Z) (e : Engine) : result (Z * Engine) :=
  if (max <? min)%Z then Throw invalid_argument
  else let '(r, e') := next e in
       Ok ((min + r `mod` (max - min + 1))%Z, e').

(** [utils::randomNumber<double>(min, max)]: some value of [[min, max)]. *)
Definition randomNumber_double (min max : Qc) (e : Engine)
    : result (Qc * Engine) :=
  if Qcltb max min then Throw invalid_argument
  else let '(r, e') := next e in
       Ok (min + (max - min) * dec (r `mod` 4294967296) 4294967296, e').

(** [std::shuffle(first, last, engine)]: the standard leaves the algorithm
    open; the model draws the next element among the remaining ones, so
    every permutation is produced by some engine. *)
Fixpoint shuffle_aux {A} (n : nat) (l : list A) (e : Engine)
    : list A * Engine :=
  match n with
  | O => ([], e)
  | S n' =>
      let '(r, e') := next e in
      let k := Z.to_nat (r `mod` Z.of_nat (length l)) in
      match l !! k with
      | Some x =>
          let '(rest, e'') := shuffle_aux n' (delete k l) e' in
          (x :: rest, e'')
      | None => ([], e')
      end
  end.

Definition shuffle {A} (l : list A) (e : Engine) : list A * Engine :=
  shuffle_aux (length l) l e.

(** [utils::shuffledRange<int>(min, max)]. *)
Definition shuffledRange (min max : Z) (e : Engine)
    : result (list Z * Engine) :=
  if (max <? min)%Z then Throw invalid_argument
  else
    let numbers := seqZ min (max - min + 1) in
    Ok (shuffle numbers e).

(* ===================================================================== *)
(** * utils.h: sorting *)
(* ===================================================================== *)

(** [std::sort(first, last, comp)] as an insertion sort.  For a comparator
    that is a strict total order the sorted sequence is unique, so the
    choice of algorithm is immaterial there; for the candidate lists,
    where several entries may have the same response time, the relative
    order of such entries is whatever the library does and no statement
    below depends on it. *)
Fixpoint insert_sorted {A} (comp : A → A → bool) (x : A) (l : list A)
    : list A :=
  match l with
  | [] => [x]
  | y :: l' => if comp y x then y :: insert_sorted comp x l' else x :: y :: l'
  end.

Fixpoint sort {A} (comp : A → A → bool) (l : list A) : list A :=
  match l with
  | [] => []
  | x :: l' => insert_sorted comp x (sort comp l')
  end.

(** The same sort for a comparator that may throw (it calls [.at]); the
    exception leaves [std::sort]. *)
Fixpoint insert_sortedM {A} (comp : A → A → result bool) (x : A) (l : list A)
    : result (list A) :=
  match l with
  | [] => Ok [x]
  | y :: l' =>
      b ← comp y x;
      if b : bool then l'' ← insert_sortedM comp x l'; Ok (y :: l'')
      else Ok (x :: y :: l')
  end.

Fixpoint sortM {A} (comp : A → A → result bool) (l : list A)
    : result (list A) :=
  match l with
  | [] => Ok []
  | x :: l' => s ← sortM comp l'; insert_sortedM comp x s
  end.

(** The comparator of [details::sort_indices_impl]: by attribute in the
    chosen direction, ties broken by the smaller index. *)
Definition index_comp {T} (Ascending : bool) (attr : T → Qc)
    (entities : list T) (i j : Z) : result bool :=
  ei ← vat entities i;
  ej ← vat entities j;
  let attr_i := attr ei in
  let attr_j := attr ej in
  if negb (Qceqb attr_i attr_j) then
    if Ascending then Ok (Qcltb attr_i attr_j)
    else Ok (Qcltb attr_j attr_i)
  else Ok (i <? j)%Z.

Definition sort_indices_impl {T} (Ascending : bool) (attr : T → Qc)
    (entities : list T) (idxs : list Z) : result (list Z) :=
  sortM (index_comp Ascending attr entities) idxs.

(** [utils::sortEntities], the overload taking the subset of indices. *)
Definition sortEntities {T} (Ascending : bool) (attr : T → Qc)
    (entities : list T) (indices_to_sort : list Z) : result (list Z) :=
  match entities, indices_to_sort with
  | [], _ | _, [] => Ok []
  | _, _ => sort_indices_impl Ascending attr entities indices_to_sort
  end.

(** Range-[for] loops whose body may throw: the body threads the loop
    state [S] through the elements in order. *)
Fixpoint for_each {A S} (body : S → A → result S) (s : S) (l : list A)
    : result S :=
  match l with
  | [] => Ok s
  | x :: l' => s' ← body s x; for_each body s' l'
  end.

(** In-place update of every element, in order, by a body that may throw. *)
Fixpoint update_each {A} (body : A → result A) (l : list A)
    : result (list A) :=
  match l with
  | [] => Ok []
  | x :: l' => y ← body x; l'' ← update_each body l'; Ok (y :: l'')
  end.

(** The index/element pairs visited by [for (size_t j = 1; j < v.size(); ++j)]:
    the placeholder at index 0 is skipped. *)
Definition from1 {A} (v : list A) : list (Z * A) :=
  drop 1 (zip (seqZ 0 (Z.of_nat (length v))) v).

(** [utils::sortEntities], the overload over all entities: the indices
    [1 .. N-1] are sorted (index 0 is the placeholder); nothing to sort
    when the vector has at most the placeholder. *)
Definition sortEntities_all {T} (Ascending : bool) (attr : T → Qc)
    (entities : list T) : result (list Z) :=
  if (Z.of_nat (length entities) <=? 1)%Z then Ok []
  else
    let idxs := seqZ 1 (Z.of_nat (length entities) - 1) in
    sort_indices_impl Ascending attr entities idxs.

(* ===================================================================== *)
(** * structs.h: metrics and run state *)
(* ===================================================================== *)

Record CommonInputs := {
  in_devices : Z;
  in_servers_ec : Z;
  in_servers_cc : Z;
  in_tech : Z
}.

Record CommonOutputs := {
  devices_covered_count : Z;
  devices_served_count : Z;
  devices_served_ec_count : Z;
  devices_served_cc_count : Z;
  servers_used_count : Z;
  servers_used_ec_count : Z;
  servers_used_cc_count : Z;
  cost_of_servers_used : Qc;
  cost_of_non_coverage : Qc;
  cost_of_non_service : Qc;
  total_cost : Qc;
  average_response_time : Qc
}.

Record Metrics := {
  simulation_type : string;
  algorithm_name : string;
  inputs : CommonInputs;
  outputs : CommonOutputs
}.

Definition CommonOutputs0 : CommonOutputs :=
  {| devices_covered_count := 0; devices_served_count := 0;
     devices_served_ec_count := 0; devices_served_cc_count := 0;
     servers_used_count := 0; servers_used_ec_count := 0;
     servers_used_cc_count := 0; cost_of_servers_used := 0;
     cost_of_non_coverage := 0; cost_of_non_service := 0; total_cost := 0;
     average_response_time := 0 |}.

(** [Metrics(simulation, algorithm, d, s_ec, s_cc, t)]. *)
Definition mkMetrics (simulation algorithm : string) (d s_ec s_cc t : Z)
    : Metrics :=
  {| simulation_type := simulation; algorithm_name := algorithm;
     inputs := {| in_devices := d; in_servers_ec := s_ec;
                  in_servers_cc := s_cc; in_tech := t |};
     outputs := CommonOutputs0 |}.

Definition set_outputs (o : CommonOutputs) (m : Metrics) : Metrics :=
  {| simulation_type := simulation_type m; algorithm_name := algorithm_name m;
     inputs := inputs m; outputs := o |}.

Record Result := {
  r_devices : list Device;
  r_servers : list Server;
  coveredDevicesIdx : list Z;
  metrics : Metrics
}.

(* ===================================================================== *)
(** * NetworkResourceAllocation: pre-calculation and metrics *)
(* ===================================================================== *)

(** [techParams]: [{radius_km, data_rate_mbps}], [{-1, -1}] when unknown. *)
Definition techParams (tech : Z) : Qc * Qc :=
  match tech with
  | 1%Z => (dec 20 1, dec 24 10000)
  | 2%Z => (dec 10 1, dec 64 1000)
  | 3%Z => (dec 5 1, dec 2 1)
  | 4%Z => (dec 3 1, dec 100 1)
  | 5%Z => (dec 6 10, dec 1000 1)
  | 6%Z => (dec 32 100, dec 10000 1)
  | _ => (dec (-1) 1, dec (-1) 1)
  end.

Definition DATA_RATE_EC_TO_CC_MBPS : Qc := dec 100000 1.

(** [for (size_t i = 1; i < v.size(); ++i) v[i] = f(v[i])]. *)
Definition map_from1 {A} (f : A → A) (v : list A) : list A :=
  match v with
  | [] => []
  | x :: v' => x :: map f v'
  end.

Definition bandwidth (devices : list Device) (servers : list Server)
    (dataRate : Qc) : list Device * list Server :=
  (map_from1 (set_bw dataRate) devices,
   map_from1 (set_s_bw DATA_RATE_EC_TO_CC_MBPS) servers).

Definition add_cost_of_non_coverage (x : Qc) (m : Metrics) : Metrics :=
  let o := outputs m in
  set_outputs
    {| devices_covered_count := devices_covered_count o;
       devices_served_count := devices_served_count o;
       devices_served_ec_count := devices_served_ec_count o;
       devices_served_cc_count := devices_served_cc_count o;
       servers_used_count := servers_used_count o;
       servers_used_ec_count := servers_used_ec_count o;
       servers_used_cc_count := servers_used_cc_count o;
       cost_of_servers_used := cost_of_servers_used o;
       cost_of_non_coverage := cost_of_non_coverage o + x;
       cost_of_non_service := cost_of_non_service o;
       total_cost := total_cost o;
       average_response_time := average_response_time o |} m.

Definition set_devices_covered_count (n : Z) (m : Metrics) : Metrics :=
  let o := outputs m in
  set_outputs
    {| devices_covered_count := n;
       devices_served_count := devices_served_count o;
       devices_served_ec_count := devices_served_ec_count o;
       devices_served_cc_count := devices_served_cc_count o;
       servers_used_count := servers_used_count o;
       servers_used_ec_count := servers_used_ec_count o;
       servers_used_cc_count := servers_used_cc_count o;
       cost_of_servers_used := cost_of_servers_used o;
       cost_of_non_coverage := cost_of_non_coverage o;
       cost_of_non_service := cost_of_non_service o;
       total_cost := total_cost o;
       average_response_time := average_response_time o |} m.

Definition EARTH_RADIUS_KM : Qc := dec 63710088 10000.
Definition SPEED_OF_LIGHT : Qc := dec 299792458 1000.
Definition INTER_DC_LATENCY_MS : Qc := dec 11186 100.

Section Geo.

(** [utils::calculateDistance(lat1, lon1, lat2, lon2)] is built from
    [sqrt], [cos], [sin] and [atan2]; it is kept abstract. *)
Variable calculateDistance : Qc → Qc → Qc → Qc → Qc.

Definition distance_device_server (device : Device) (server : Server) : Qc :=
  calculateDistance (d_lat device) (d_lon device) (s_lat server) (s_lon server).
Definition distance_server_server (a b : Server) : Qc :=
  calculateDistance (s_lat a) (s_lon a) (s_lat b) (s_lon b).

(** Body of the first inner loop of [findCovering] (edge servers). *)
Definition findCovering_edge (coverageRadius : Qc) (device : Device)
    (js : Z * Server) : Device :=
  let '(j, server) := js in
  if negb (Ascii.eqb (s_type server) "E") then device
  else
    let distance := distance_device_server device server in
    if Qcleb distance coverageRadius then
      set_covered true
        (set_servers (servers device ++ [server_covering2 j distance]) device)
    else device.

(** Body of the second inner loop (cloud servers of a covered device). *)
Definition findCovering_cloud (device : Device) (js : Z * Server) : Device :=
  let '(j, server) := js in
  if Ascii.eqb (s_type server) "C" then
    set_servers (servers device ++ [server_covering1 j]) device
  else device.

(** Body of the outer loop: the loop state is the devices rewritten so
    far, [coveredDeviceIds] and the metrics. *)
Definition findCovering_device (servers_ : list Server) (coverageRadius : Qc)
    (acc : list Device * list Z * Metrics) (device : Device)
    : list Device * list Z * Metrics :=
  let '(done, coveredDeviceIds, metrics_) := acc in
  let device := foldl (findCovering_edge coverageRadius) device
                      (from1 servers_) in
  if covered device then
    (done ++ [foldl findCovering_cloud device (from1 servers_)],
     coveredDeviceIds ++ [d_id device], metrics_)
  else
    (done ++ [device], coveredDeviceIds,
     add_cost_of_non_coverage (cnd device) metrics_).

Definition findCovering (devices : list Device) (servers_ : list Server)
    (coverageRadius : Qc) (metrics_ : Metrics)
    : list Device * list Z * Metrics :=
  let '(devices', coveredDeviceIds, metrics') :=
    foldl (findCovering_device servers_ coverageRadius)
          (take 1 devices, [], metrics_) (drop 1 devices) in
  (devices', coveredDeviceIds,
   set_devices_covered_count (Z.of_nat (length coveredDeviceIds)) metrics').

(** First inner loop of [timeCalculation]: the nearest edge candidate. *)
Definition closestEdge_step (servers_ : list Server) (closestEdge : Z * Qc)
    (s_info : server_covering) : result (Z * Qc) :=
  sv ← vat servers_ (sc_id s_info);
  if Ascii.eqb (s_type sv) "E" && Qcltb (distance s_info) (closestEdge.2)
  then Ok (sc_id s_info, distance s_info)
  else Ok closestEdge.

(** Second inner loop: the timing fields of one candidate link.  (The
    division by [device.bw] is by the data rate of a known technology,
    which is positive.) *)
Definition timeCalculation_link (servers_ : list Server) (device : Device)
    (closestEdge : Z * Qc) (s : server_covering) : result server_covering :=
  sv ← vat servers_ (sc_id s);
  let processingTime_ := s_d device * t_p sv in
  let transmission_time_ms := (s_d device / d_bw device) * dec 1000 1 in
  if Ascii.eqb (s_type sv) "C" then
    edge ← vat servers_ (closestEdge.1);
    let propagation_dist := closestEdge.2 + distance_server_server edge sv in
    let propagation_delay_ms :=
      (propagation_dist / SPEED_OF_LIGHT) * dec 1000 1 in
    let connectionTime_ :=
      transmission_time_ms + propagation_delay_ms + INTER_DC_LATENCY_MS in
    Ok {| sc_id := sc_id s; id_routing := closestEdge.1;
          distance := distance s; connectionTime := connectionTime_;
          processingTime := processingTime_;
          responseTime := connectionTime_ + processingTime_ |}
  else
    let propagation_delay_ms := (distance s / SPEED_OF_LIGHT) * dec 1000 1 in
    let connectionTime_ := transmission_time_ms + propagation_delay_ms in
    Ok {| sc_id := sc_id s; id_routing := id_routing s;
          distance := distance s; connectionTime := connectionTime_;
          processingTime := processingTime_;
          responseTime := connectionTime_ + processingTime_ |}.

Definition timeCalculation_device (servers_ : list Server) (device : Device)
    : result Device :=
  if negb (covered device) then Ok device
  else
    closestEdge ← for_each (closestEdge_step servers_) (0%Z, EARTH_RADIUS_KM)
                           (servers device);
    links ← update_each (timeCalculation_link servers_ device closestEdge)
                        (servers device);
    Ok (set_servers links device).

Definition timeCalculation (devices : list Device) (servers_ : list Server)
    : result (list Device) :=
  match devices with
  | [] => Ok []
  | d0 :: ds =>
      ds' ← update_each (timeCalculation_device servers_) ds;
      Ok (d0 :: ds')
  end.

(** [coverage]: returns the rewritten devices, servers and metrics together
    with the covered-device list. *)
Definition coverage (devices : list Device) (servers_ : list Server)
    (metrics_ : Metrics)
    : result (list Device * list Server * Metrics * list Z) :=
  let techProps := techParams (in_tech (inputs metrics_)) in
  if Qcltb (techProps.1) 0 then Ok (devices, servers_, metrics_, [])
  else
    let '(devices, servers_) := bandwidth devices servers_ (techProps.2) in
    let '(devices, coveredDevices, metrics_) :=
      findCovering devices servers_ (techProps.1) metrics_ in
    devices ← timeCalculation devices servers_;
    Ok (devices, servers_, metrics_, coveredDevices).

(** Loop bodies of [calculateMetrics]. *)
Definition calculateMetrics_device (servers_ : list Server)
    (o : CommonOutputs) (device : Device) : result CommonOutputs :=
  if (d_id device =? 0)%Z then Ok o
  else if served device then
    sv ← vat servers_ (sc_id (server device));
    let is_edge := Ascii.eqb (s_type sv) "E" in
    Ok {| devices_covered_count := devices_covered_count o;
          devices_served_count := (devices_served_count o + 1)%Z;
          devices_served_ec_count :=
            if is_edge then (devices_served_ec_count o + 1)%Z
            else devices_served_ec_count o;
          devices_served_cc_count :=
            if is_edge then devices_served_cc_count o
            else (devices_served_cc_count o + 1)%Z;
          servers_used_count := servers_used_count o;
          servers_used_ec_count := servers_used_ec_count o;
          servers_used_cc_count := servers_used_cc_count o;
          cost_of_servers_used := cost_of_servers_used o;
          cost_of_non_coverage := cost_of_non_coverage o;
          cost_of_non_service := cost_of_non_service o;
          total_cost := total_cost o;
          average_response_time :=
            average_response_time o + responseTime (server device) |}
  else if covered device then
    Ok {| devices_covered_count := devices_covered_count o;
          devices_served_count := devices_served_count o;
          devices_served_ec_count := devices_served_ec_count o;
          devices_served_cc_count := devices_served_cc_count o;
          servers_used_count := servers_used_count o;
          servers_used_ec_count := servers_used_ec_count o;
          servers_used_cc_count := servers_used_cc_count o;
          cost_of_servers_used := cost_of_servers_used o;
          cost_of_non_coverage := cost_of_non_coverage o;
          cost_of_non_service := cost_of_non_service o + cnd device;
          total_cost := total_cost o;
          average_response_time := average_response_time o |}
  else Ok o.

Definition calculateMetrics_server (o : CommonOutputs) (sv : Server)
    : CommonOutputs :=
  if (s_id sv =? 0)%Z then o
  else if on sv then
    let is_edge := Ascii.eqb (s_type sv) "E" in
    {| devices_covered_count := devices_covered_count o;
       devices_served_count := devices_served_count o;
       devices_served_ec_count := devices_served_ec_count o;
       devices_served_cc_count := devices_served_cc_count o;
       servers_used_count := servers_used_count o;
       servers_used_ec_count :=
         if is_edge then (servers_used_ec_count o + 1)%Z
         else servers_used_ec_count o;
       servers_used_cc_count :=
         if is_edge then servers_used_cc_count o
         else (servers_used_cc_count o + 1)%Z;
       cost_of_servers_used := cost_of_servers_used o + csc sv;
       cost_of_non_coverage := cost_of_non_coverage o;
       cost_of_non_service := cost_of_non_service o;
       total_cost := total_cost o;
       average_response_time := average_response_time o |}
  else o.

(** [calculateMetrics]: resets the counters (coverage count and
    non-coverage cost are kept), scans devices and servers, then derives
    the average and the totals. *)
Definition calculateMetrics (devices : list Device) (servers_ : list Server)
    (metrics_ : Metrics) : result Metrics :=
  let o0 :=
    {| devices_covered_count := devices_covered_count (outputs metrics_);
       devices_served_count := 0; devices_served_ec_count := 0;
       devices_served_cc_count := 0; servers_used_count := 0;
       servers_used_ec_count := 0; servers_used_cc_count := 0;
       cost_of_servers_used := 0;
       cost_of_non_coverage := cost_of_non_coverage (outputs metrics_);
       cost_of_non_service := 0; total_cost := 0;
       average_response_time := 0 |} in
  o1 ← for_each (calculateMetrics_device servers_) o0 devices;
  let o2 := foldl calculateMetrics_server o1 servers_ in
  Ok (set_outputs
        {| devices_covered_count := devices_covered_count o2;
           devices_served_count := devices_served_count o2;
           devices_served_ec_count := devices_served_ec_count o2;
           devices_served_cc_count := devices_served_cc_count o2;
           servers_used_count :=
             (servers_used_ec_count o2 + servers_used_cc_count o2)%Z;
           servers_used_ec_count := servers_used_ec_count o2;
           servers_used_cc_count := servers_used_cc_count o2;
           cost_of_servers_used := cost_of_servers_used o2;
           cost_of_non_coverage := cost_of_non_coverage o2;
           cost_of_non_service := cost_of_non_service o2;
           total_cost :=
             cost_of_non_coverage o2 + cost_of_non_service o2
             + cost_of_servers_used o2;
           average_response_time :=
             if (0 <? devices_served_count o2)%Z then
               average_response_time o2
               / Q2Qc (inject_Z (devices_served_count o2))
             else average_response_time o2 |}
        metrics_).

(** [pre_calculation].  The two loaders read the data files; they are
    arguments here: [loadDevices n] and [loadServers ec cc] return the
    parsed vectors (placeholder first) or the empty vector on failure.
    [None] is [std::nullopt]. *)
Definition pre_calculation
    (loadDevices : Z → list Device) (loadServers : Z → Z → list Server)
    (simulation_type_ algorithm_name_ : string)
    (numDevices numServersEC numServersCC tech : Z)
    : result (option Result) :=
  if (numDevices <=? 0)%Z || (numServersEC <=? 0)%Z || (numServersCC <=? 0)%Z
  then Ok None
  else
    let devices := loadDevices numDevices in
    let servers_ := loadServers numServersEC numServersCC in
    if bool_decide (devices = []) || bool_decide (servers_ = []) then Ok None
    else
      let metrics_ := mkMetrics simulation_type_ algorithm_name_ numDevices
                                numServersEC numServersCC tech in
      '(devices, servers_, metrics_, coveredDevicesIdx_) ←
        coverage devices servers_ metrics_;
      Ok (Some {| r_devices := devices; r_servers := servers_;
                  coveredDevicesIdx := coveredDevicesIdx_;
                  metrics := metrics_ |}).

End Geo.

(** [devicesAsc], [devicesDesc], [serversAsc], [serversDesc]: all device
    indices by non-service cost, all server indices by usage cost. *)
Definition devicesAsc (devices : list Device) : result (list Z) :=
  sortEntities_all true cnd devices.
Definition devicesDesc (devices : list Device) : result (list Z) :=
  sortEntities_all false cnd devices.
Definition serversAsc (servers_ : list Server) : result (list Z) :=
  sortEntities_all true csc servers_.
Definition serversDesc (servers_ : list Server) : result (list Z) :=
  sortEntities_all false csc servers_.

Section Loaders.

(** [std::stoi] and [std::stod]: [None] when they throw
    ([std::invalid_argument], [std::out_of_range]). *)
Variable stoi : string → option Z.
Variable stod : string → option Qc.

(** The arguments of [devices.emplace_back(...)] inside the [try] block:
    [None] when [row.at(k)] or a conversion throws (the exception is
    caught and the row is skipped). *)
Definition parse_device (row : list string) : option Device :=
  id_ ← row !! 0%nat ≫= stoi;
  lat_ ← row !! 1%nat ≫= stod;
  lon_ ← row !! 2%nat ≫= stod;
  cnd_ ← row !! 3%nat ≫= stod;
  pcc_ ← row !! 4%nat ≫= stod;
  pcn_ ← row !! 5%nat ≫= stoi;
  mem_ ← row !! 6%nat ≫= stod;
  sto_ ← row !! 7%nat ≫= stod;
  s_d_ ← row !! 8%nat ≫= stod;
  svc_ ← row !! 9%nat ≫= stoi;
  Some (mkDevice id_ lat_ lon_ cnd_ pcc_ pcn_ mem_ sto_ s_d_ svc_).

Definition parse_server (type_ : ascii) (row : list string)
    : option Server :=
  id_ ← row !! 0%nat ≫= stoi;
  lat_ ← row !! 1%nat ≫= stod;
  lon_ ← row !! 2%nat ≫= stod;
  csc_ ← row !! 3%nat ≫= stod;
  pcc_ ← row !! 4%nat ≫= stod;
  pcn_ ← row !! 5%nat ≫= stoi;
  mem_ ← row !! 6%nat ≫= stod;
  sto_ ← row !! 7%nat ≫= stod;
  t_p_ ← row !! 8%nat ≫= stod;
  Some (mkServer id_ lat_ lon_ csc_ pcc_ pcn_ mem_ sto_ t_p_ type_).

(** The row loop of both loaders: [row.at(0) == "#"] is evaluated
    outside the [try] block, so a row without cells throws out of the
    loader; header rows are skipped, and so are rows that do not
    parse. *)
Fixpoint load_rows {A} (parse : list string → option A)
    (rows : list (list string)) (loaded : list A) : result (list A) :=
  match rows with
  | [] => Ok loaded
  | row :: rows' =>
      match row with
      | [] => Throw out_of_range
      | cell :: _ =>
          if String.eqb cell "#" then load_rows parse rows' loaded
          else match parse row with
               | Some x => load_rows parse rows' (loaded ++ [x])
               | None => load_rows parse rows' loaded
               end
      end
  end.

(** [loadDevices] and [loadServers] on the tables returned by
    [DataGenerator::devicesData], [ecData] and [ccData]. *)
Definition loadDevices (strDevices : list (list string))
    : result (list Device) :=
  if (length strDevices <=? 1)%nat then Ok []
  else load_rows parse_device strDevices [Device0].

Definition loadServers (strServerEC strServerCC : list (list string))
    : result (list Server) :=
  if (length strServerEC <=? 1)%nat || (length strServerCC <=? 1)%nat
  then Ok []
  else
    servers_ ← load_rows (parse_server "E") strServerEC [Server0];
    load_rows (parse_server "C") strServerCC servers_.

End Loaders.

(** Conversion of a [double] to [int]: the fractional part is dropped;
    a value outside the range of [int] is undefined behaviour, which is
    [None] here. *)
Definition trunc (x : Qc) : option Z :=
  let z := Z.quot (Qnum x) (Z.pos (Qden x)) in
  if ((-2147483648 <=? z) && (z <=? 2147483647))%Z then Some z else None.

Definition set_bottleneck (mem_ sto_ cnd_ : Qc) (d : Device) : Device :=
  {| d_id := d_id d; d_pcn := d_pcn d; svc := svc d; d_lat := d_lat d;
     d_lon := d_lon d; cnd := cnd_; pcc := pcc d; d_mem := mem_;
     d_sto := sto_; s_d := s_d d; d_bw := d_bw d; covered := covered d;
     served := served d; server := server d; servers := servers d |}.

(** The servers read by the first loop of [createBottleneck]: those from
    position [servers_ec + 1] on (none when that position is negative:
    the comparison with [servers.size()] is unsigned). *)
Definition bottleneck_servers (state : Result) : list Server :=
  let startCC := (in_servers_ec (inputs (metrics state)) + 1)%Z in
  if (startCC <? 0)%Z then []
  else drop (Z.to_nat startCC) (r_servers state).

(** [bottleneckValues.push_back({servers[i].mem, servers[i].sto})]: a
    pair of [int]. *)
Definition bottleneck_pair (sv : Server) : option (Z * Z) :=
  m ← trunc (s_mem sv);
  s ← trunc (s_sto sv);
  Some (m, s).

(** The [while (loop--)] loop of [createBottleneck]; [i] counts the
    passes.  [idx[i]], [bottleneckValues[i]] and [devices[idx[i]]] are
    unchecked accesses: outside the vectors the behaviour is undefined,
    which is [None] here. *)
Fixpoint createBottleneck_loop (loop i : nat) (idx : list Z)
    (bottleneckValues : list (Z * Z)) (devices : list Device)
    : option (list Device) :=
  match loop with
  | O => Some devices
  | S loop' =>
      k ← idx !! i;
      v ← bottleneckValues !! i;
      if (k <? 0)%Z then None
      else
        d ← devices !! Z.to_nat k;
        let d := set_bottleneck
                   (Q2Qc (inject_Z v.1) * dec 999999 1000000)
                   (Q2Qc (inject_Z v.2) * dec 999999 1000000)
                   (dec 99 10) d in
        createBottleneck_loop loop' (S i) idx bottleneckValues
                              (<[Z.to_nat k := d]> devices)
  end.

(** [createBottleneck(state, randomBottleneck)].  The capacities of the
    servers from position [servers_ec + 1] on are stored as pairs of
    [int]; one covered device per cloud server (as counted by the
    inputs) is rewritten.  [None]: undefined behaviour (an empty
    [std::optional], a conversion outside [int], an access outside a
    vector; a negative count never lets [while (loop--)] stop inside
    the vectors). *)
Definition createBottleneck (state : option Result)
    (randomBottleneck : bool) (e : Engine) : option (Result * Engine) :=
  state ← state;
  bottleneckValues ← mapM bottleneck_pair (bottleneck_servers state);
  let loop := in_servers_cc (inputs (metrics state)) in
  let '(idx, e) :=
    if randomBottleneck then shuffle (coveredDevicesIdx state) e
    else (coveredDevicesIdx state, e) in
  if (loop <? 0)%Z then None
  else
    devices ← createBottleneck_loop (Z.to_nat loop) 0 idx bottleneckValues
                                    (r_devices state);
    Some ({| r_devices := devices; r_servers := r_servers state;
             coveredDevicesIdx := coveredDevicesIdx state;
             metrics := metrics state |}, e).

(* ===================================================================== *)
(** * Heuristics.h *)
(* ===================================================================== *)

(** Body of the loop of [randomHeuristic]; the loop state is the device
    vector, the server vector and the engine. *)
Definition randomHeuristic_body
    (acc : list Device * list Server * Engine) (d_idx : Z)
    : result (list Device * list Server * Engine) :=
  let '(devices, servers_, e) := acc in
  device ← vat devices d_idx;
  if bool_decide (servers device = []) then Ok (devices, servers_, e)
  else
    '(s_idx, e) ← randomNumber 0 (Z.of_nat (length (servers device))) e;
    if (s_idx =? Z.of_nat (length (servers device)))%Z
    then Ok (devices, servers_, e)
    else
      potential_server ← vat (servers device) s_idx;
      sv ← vat servers_ (sc_id potential_server);
      if canServe sv device then
        let '(_, sv, device) := addServed sv device in
        let device := set_server potential_server device in
        Ok (vset devices d_idx device,
            vset servers_ (sc_id potential_server) sv, e)
      else Ok (devices, servers_, e).

Definition randomHeuristic (state : Result) (e : Engine)
    : result (Result * Engine) :=
  let '(coveredDevicesIdx_, e) := shuffle (coveredDevicesIdx state) e in
  '(devices, servers_, e) ←
    for_each randomHeuristic_body (r_devices state, r_servers state, e)
             coveredDevicesIdx_;
  metrics_ ← calculateMetrics devices servers_ (metrics state);
  Ok ({| r_devices := devices; r_servers := servers_;
         coveredDevicesIdx := coveredDevicesIdx state;
         metrics := metrics_ |}, e).

(** The two comparators handed to [std::sort] by [greedyHeuristic]. *)
Definition responseTime_comp (sortServersAsc : bool)
    (a b : server_covering) : bool :=
  if sortServersAsc then Qcltb (responseTime a) (responseTime b)
  else Qcltb (responseTime b) (responseTime a).

(** Inner loop of [greedyHeuristic]: commit to the first feasible
    candidate, then [break]. *)
Fixpoint greedy_commit (servers_ : list Server) (device : Device)
    (candidates : list server_covering) : result (list Server * Device) :=
  match candidates with
  | [] => Ok (servers_, device)
  | potential_server :: rest =>
      sv ← vat servers_ (sc_id potential_server);
      if canServe sv device then
        let '(_, sv, device) := addServed sv device in
        Ok (vset servers_ (sc_id potential_server) sv,
            set_server potential_server device)
      else greedy_commit servers_ device rest
  end.

(** Body of the outer loop: the candidate list of the device is sorted in
    place, then scanned. *)
Definition greedyHeuristic_body (sortServersAsc : bool)
    (acc : list Device * list Server) (d_idx : Z)
    : result (list Device * list Server) :=
  let '(devices, servers_) := acc in
  device ← vat devices d_idx;
  let device :=
    set_servers (sort (responseTime_comp sortServersAsc) (servers device))
                device in
  '(servers_, device) ← greedy_commit servers_ device (servers device);
  Ok (vset devices d_idx device, servers_).

(** The order in which [greedyHeuristic] visits the covered devices. *)
Definition greedy_order (state : Result) (sortDevicesAsc : bool)
    : result (list Z) :=
  sortEntities sortDevicesAsc cnd (r_devices state) (coveredDevicesIdx state).

Definition greedyHeuristic (state : Result)
    (sortDevicesAsc sortServersAsc : bool) : result Result :=
  sortedCoveredIdx ← greedy_order state sortDevicesAsc;
  '(devices, servers_) ←
    for_each (greedyHeuristic_body sortServersAsc)
             (r_devices state, r_servers state) sortedCoveredIdx;
  metrics_ ← calculateMetrics devices servers_ (metrics state);
  Ok {| r_devices := devices; r_servers := servers_;
        coveredDevicesIdx := coveredDevicesIdx state;
        metrics := metrics_ |}.

(** [Heuristics::bootup]: dispatch on the algorithm name (display and
    persistence of the metrics are omitted).  An unknown name leaves the
    state as it is. *)
Definition Heuristics_bootup (algorithm : string) (state : Result)
    (e : Engine) : result (Result * Engine) :=
  if String.eqb algorithm "Random" then randomHeuristic state e
  else if String.prefix "Greedy" algorithm then
    let sortDevicesAsc :=
      String.eqb algorithm "Greedy_AscAsc"
      || String.eqb algorithm "Greedy_AscDesc" in
    let sortServersAsc :=
      String.eqb algorithm "Greedy_AscAsc"
      || String.eqb algorithm "Greedy_DescAsc" in
    state ← greedyHeuristic state sortDevicesAsc sortServersAsc;
    Ok (state, e)
  else Ok (state, e).

(* ===================================================================== *)
(** * MetaHeuristics.h *)
(* ===================================================================== *)

(** The candidate loop of [generateNeighbor].  [d_idx] is the position of
    [device] in the device vector; the result is the rewritten vectors and
    the two cost components. *)
Fixpoint generateNeighbor_loop (tries : Z) (serversShuffled : list Z)
    (devices : list Device) (servers_ : list Server) (d_idx : Z)
    (device : Device) (cns csu : Qc)
    : result (list Device * list Server * Qc * Qc) :=
  match serversShuffled with
  | [] => Ok (devices, servers_, cns, csu)
  | idxServers :: rest =>
      if (5 <=? tries)%Z then Ok (devices, servers_, cns, csu)
      else
        potential_server ← vat (servers device) idxServers;
        if (sc_id potential_server =? sc_id (server device))%Z then
          generateNeighbor_loop (tries + 1) rest devices servers_ d_idx
                                device cns csu
        else
          old_server ← vat servers_ (sc_id (server device));
          new_server ← vat servers_ (sc_id potential_server);
          if canServe new_server device then
            let csu := if negb (on new_server) then csu + csc new_server
                       else csu in
            let '(old_server, device, cns, csu) :=
              if served device then
                let '(_, old_server, device) := rmvServed old_server device in
                (old_server, device, cns,
                 if negb (on old_server) then csu - csc old_server else csu)
              else (old_server, device, cns - cnd device, csu) in
            let '(_, new_server, device') := addServed new_server device in
            let servers_ := vset servers_ (sc_id (server device)) old_server in
            let servers_ := vset servers_ (sc_id potential_server) new_server in
            Ok (vset devices d_idx (set_server potential_server device'),
                servers_, cns, csu)
          else
            generateNeighbor_loop (tries + 1) rest devices servers_ d_idx
                                  device cns csu
  end.

Definition generateNeighbor (devices : list Device) (servers_ : list Server)
    (coveredDevicesIdx_ : list Z) (cns csu : Qc) (e : Engine)
    : result (list Device * list Server * Qc * Qc * Engine) :=
  '(idx, e) ←
    randomNumber 0 (Z.of_nat (length coveredDevicesIdx_) - 1) e;
  d_idx ← vat coveredDevicesIdx_ idx;
  device ← vat devices d_idx;
  '(serversShuffled, e) ←
    shuffledRange 0 (Z.of_nat (length (servers device)) - 1) e;
  '(devices, servers_, cns, csu) ←
    generateNeighbor_loop 0 serversShuffled devices servers_ d_idx device
                          cns csu;
  Ok (devices, servers_, cns, csu, e).

(** The local variables of [simulatedAnnealing]. *)
Record Annealing := {
  bestDevices : list Device;
  bestServers : list Server;
  currentDevices : list Device;
  currentServers : list Server;
  bestCNS : Qc;
  currentCNS : Qc;
  bestCSU : Qc;
  currentCSU : Qc;
  bestCost : Qc;
  currentCost : Qc
}.

(** [current := neighbor] (both branches of the acceptance test). *)
Definition accept (neighborDevices : list Device)
    (neighborServers : list Server) (neighborCNS neighborCSU neighborCost : Qc)
    (a : Annealing) : Annealing :=
  {| bestDevices := bestDevices a; bestServers := bestServers a;
     currentDevices := neighborDevices; currentServers := neighborServers;
     bestCNS := bestCNS a; currentCNS := neighborCNS;
     bestCSU := bestCSU a; currentCSU := neighborCSU;
     bestCost := bestCost a; currentCost := neighborCost |}.

(** [best := current]. *)
Definition replace_best (a : Annealing) : Annealing :=
  {| bestDevices := currentDevices a; bestServers := currentServers a;
     currentDevices := currentDevices a; currentServers := currentServers a;
     bestCNS := currentCNS a; currentCNS := currentCNS a;
     bestCSU := currentCSU a; currentCSU := currentCSU a;
     bestCost := currentCost a; currentCost := currentCost a |}.

Definition TEMPERATURE_FLOOR : Qc := dec 1 1000.

Section Annealing.

(** [std::exp]. *)
Variable exp : Qc → Qc.

(** One pass through the body of the inner [for] loop at temperature [T]
    and counter [i]; returns the new locals and the counter as the body
    leaves it (before [++i]). *)
Definition annealing_body (coveredDevicesIdx_ : list Z) (T : Qc)
    (a : Annealing) (i : Z) (e : Engine) : result (Annealing * Z * Engine) :=
  '(neighborDevices, neighborServers, neighborCNS, neighborCSU, e) ←
    generateNeighbor (currentDevices a) (currentServers a) coveredDevicesIdx_
                     (currentCNS a) (currentCSU a) e;
  let neighborCost := neighborCNS + neighborCSU in
  let delta := neighborCost - currentCost a in
  if Qcltb delta 0 then
    let a := accept neighborDevices neighborServers neighborCNS neighborCSU
                    neighborCost a in
    Ok (if Qcltb (currentCost a) (bestCost a) then replace_best a else a,
        0%Z, e)
  else
    '(u, e) ← randomNumber_double 0 1 e;
    if Qcltb u (exp (- delta / T)) then
      Ok (accept neighborDevices neighborServers neighborCNS neighborCSU
                 neighborCost a, i, e)
    else Ok (a, i, e).

(** [for (int i = 0; i < 10; ++i) body]; the body may reset [i], so the
    loop is bounded by [fuel] passes only in the model. *)
Fixpoint annealing_for (fuel : nat) (coveredDevicesIdx_ : list Z) (T : Qc)
    (a : Annealing) (i : Z) (e : Engine) : result (Annealing * Engine) :=
  if (i <? 10)%Z then
    match fuel with
    | O => Fuel
    | S fuel' =>
        '(a, i, e) ← annealing_body coveredDevicesIdx_ T a i e;
        annealing_for fuel' coveredDevicesIdx_ T a (i + 1) e
    end
  else Ok (a, e).

(** [while (T > 1e-3) { for ...; T *= alpha; }]; [levels] bounds the number
    of temperature levels and [fuel] the passes of each inner loop. *)
Fixpoint annealing_while (levels fuel : nat) (coveredDevicesIdx_ : list Z)
    (alpha T : Qc) (a : Annealing) (e : Engine)
    : result (Annealing * Engine) :=
  if Qcltb TEMPERATURE_FLOOR T then
    match levels with
    | O => Fuel
    | S levels' =>
        '(a, e) ← annealing_for fuel coveredDevicesIdx_ T a 0 e;
        annealing_while levels' fuel coveredDevicesIdx_ alpha (T * alpha) a e
    end
  else Ok (a, e).

(** The locals as initialised on entry. *)
Definition annealing_init (state : Result) : Annealing :=
  let bestCNS_ := cost_of_non_service (outputs (metrics state)) in
  let bestCSU_ := cost_of_servers_used (outputs (metrics state)) in
  {| bestDevices := r_devices state; bestServers := r_servers state;
     currentDevices := r_devices state; currentServers := r_servers state;
     bestCNS := bestCNS_; currentCNS := bestCNS_;
     bestCSU := bestCSU_; currentCSU := bestCSU_;
     bestCost := bestCNS_ + bestCSU_; currentCost := bestCNS_ + bestCSU_ |}.

(** The search part of [simulatedAnnealing]: the locals when the outer
    loop exits. *)
Definition annealing_search (levels fuel : nat) (state : Result)
    (T alpha : Qc) (e : Engine) : result (Annealing * Engine) :=
  annealing_while levels fuel (coveredDevicesIdx state) alpha T
                  (annealing_init state) e.

(** [simulatedAnnealing(state, T, alpha)]: after the search the only
    write to [state] is [calculateMetrics(bestDevices, bestServers,
    *state.metrics)]. *)
Definition simulatedAnnealing (levels fuel : nat) (state : Result)
    (T alpha : Qc) (e : Engine) : result (Result * Engine) :=
  '(a, e) ← annealing_search levels fuel state T alpha e;
  metrics_ ← calculateMetrics (bestDevices a) (bestServers a) (metrics state);
  Ok ({| r_devices := r_devices state; r_servers := r_servers state;
         coveredDevicesIdx := coveredDevicesIdx state;
         metrics := metrics_ |}, e).

End Annealing.



Section Trials.

Variable exp : Qc → Qc.
Variables levels fuel : nat.



End Trials.

(* ===================================================================== *)
(** * FileManager.h *)
(* ===================================================================== *)

(** A [std::string] is a [string]; the file system is a partial map from
    the paths of the regular files to their contents.  Directories, and
    whether a stream opens, belong to the environment of [write]. *)
Definition newline : ascii := "010"%char.

Definition push_back (s : string) (c : ascii) : string :=
  String.append s (String c EmptyString).

(** [while (std::getline(in, piece, delim)) out.push_back(piece)] on the
    unread input [s], [cur] being the characters of the current piece
    read so far: a piece ends at a delimiter or at the end of the input;
    at the end of the input right after a delimiter, [getline] extracts
    nothing and fails. *)
Fixpoint getline_pieces (delim : ascii) (cur : string) (s : string)
    : list string :=
  match s with
  | EmptyString => [cur]
  | String c s' =>
      if Ascii.eqb c delim then
        cur :: match s' with
               | EmptyString => []
               | _ => getline_pieces delim EmptyString s'
               end
      else getline_pieces delim (push_back cur c) s'
  end.

Definition getline_loop (delim : ascii) (s : string) : list string :=
  match s with
  | EmptyString => []
  | _ => getline_pieces delim EmptyString s
  end.

(** [std::isspace] in the default locale. *)
Definition isspace (c : ascii) : bool :=
  Ascii.eqb c " " || Ascii.eqb c "009" || Ascii.eqb c "010" ||
  Ascii.eqb c "011" || Ascii.eqb c "012" || Ascii.eqb c "013".

(** [while (ss >> cell) row.push_back(cell)]: the maximal runs of
    characters that are not white space. *)
Fixpoint extract_words (cur : string) (s : string) : list string :=
  match s with
  | EmptyString =>
      match cur with EmptyString => [] | _ => [cur] end
  | String c s' =>
      if isspace c then
        match cur with
        | EmptyString => extract_words EmptyString s'
        | _ => cur :: extract_words EmptyString s'
        end
      else extract_words (push_back cur c) s'
  end.

(** The loops of [write]: the elements in order, the separator between
    two of them. *)
Fixpoint join (sep : ascii) (l : list string) : string :=
  match l with
  | [] => EmptyString
  | [x] => x
  | x :: l' => String.append x (String sep (join sep l'))
  end.

Definition FileSystem := string → option string.

(** [FileManager::read]: [None] is [std::nullopt] (the file cannot be
    opened); rows without cells are skipped. *)
Definition FileManager_read (files : FileSystem) (filePath : string)
    (delimiter : ascii) : option (list (list string)) :=
  match files filePath with
  | None => None
  | Some content =>
      let row_of line :=
        if Ascii.eqb delimiter " " then extract_words EmptyString line
        else getline_loop delimiter line in
      Some (List.filter (λ row, negb (bool_decide (row = [])))
                        (map row_of (getline_loop newline content)))
  end.

(** How a call of [write] ends: [std::filesystem::filesystem_error]
    leaves the function (it has no handler), or a flag is returned. *)
Inductive write_result :=
| filesystem_error
| write_returns (written : bool) (files : FileSystem).

Section Files.

(** The environment of [write], by path: [path.has_parent_path()];
    whether [std::filesystem::create_directories(path.parent_path())]
    returns ([false]: it throws [filesystem_error]); whether the output
    stream is open after its construction. *)
Variable has_parent_path : string → bool.
Variable create_directories : string → bool.
Variable is_open : string → bool.

(** [FileManager::write]: the directories first, then the stream; an
    existing file is replaced.  A stream that opened takes the whole
    output. *)
Definition FileManager_write (files : FileSystem) (filePath : string)
    (data : list (list string)) (delimiter : ascii) : write_result :=
  if has_parent_path filePath && negb (create_directories filePath)
  then filesystem_error
  else if is_open filePath then
    let content := join newline (map (join delimiter) data) in
    write_returns true
      (λ p, if String.eqb p filePath then Some content else files p)
  else write_returns false files.

End Files.

(* ===================================================================== *)
(** * Specification vocabulary *)
(* ===================================================================== *)

(** The activation invariant of a server. *)
Definition active_ok (s : Server) : Prop :=
  on s = true ↔ devices_served (supply s) ≠ ∅.

(** The capacity invariant of a server, one conjunct per dimension. *)
Definition capacity_ok (s : Server) : Prop :=
  pccD (supply s) ≤ pcc_total s ∧
  (pcnD (supply s) ≤ s_pcn s)%Z ∧
  memD (supply s) ≤ s_mem s ∧
  stoD (supply s) ≤ s_sto s ∧
  bwD (supply s) ≤ s_bw s.

(** The static part of a server: everything but [on] and [supply]. *)
Definition same_server (s s' : Server) : Prop :=
  s_id s' = s_id s ∧ s_pcn s' = s_pcn s ∧ s_type s' = s_type s ∧
  s_lat s' = s_lat s ∧ s_lon s' = s_lon s ∧ csc s' = csc s ∧
  pcc_per_core s' = pcc_per_core s ∧ pcc_total s' = pcc_total s ∧
  s_mem s' = s_mem s ∧ s_sto s' = s_sto s ∧ t_p s' = t_p s ∧
  s_bw s' = s_bw s.

(** The static part of a device: everything but [served], [server] and
    the candidate list. *)
Definition same_device (d d' : Device) : Prop :=
  d_id d' = d_id d ∧ d_pcn d' = d_pcn d ∧ svc d' = svc d ∧
  d_lat d' = d_lat d ∧ d_lon d' = d_lon d ∧ cnd d' = cnd d ∧
  pcc d' = pcc d ∧ d_mem d' = d_mem d ∧ d_sto d' = d_sto d ∧
  s_d d' = s_d d ∧ d_bw d' = d_bw d ∧ covered d' = covered d.

(** Demands of a device are non-negative in all five dimensions. *)
Definition demand_nonneg (d : Device) : Prop :=
  0 ≤ pcc d ∧ (0 ≤ d_pcn d)%Z ∧ 0 ≤ d_mem d ∧ 0 ≤ d_sto d ∧ 0 ≤ d_bw d.

Definition in_range {A} (i : Z) (v : list A) : Prop :=
  (0 ≤ i < Z.of_nat (length v))%Z.

(** A device before and after: static fields kept, the candidate list
    kept up to order, the committed link either kept or set to one of
    the candidates. *)
Definition device_step (d d' : Device) : Prop :=
  same_device d d' ∧ servers d' ≡ₚ servers d ∧
  (server d' = server d ∨ server d' ∈ servers d').

(** The same with the candidate list kept as it is. *)
Definition device_kept (d d' : Device) : Prop :=
  same_device d d' ∧ servers d' = servers d ∧
  (server d' = server d ∨ server d' ∈ servers d').

(** A server before and after: static fields kept, the activation
    invariant kept, and (under the side condition [D]) the capacity
    invariant kept. *)
Definition server_step (D : Prop) (s s' : Server) : Prop :=
  same_server s s' ∧ (active_ok s → active_ok s') ∧
  (D → capacity_ok s → capacity_ok s').

(** Pairs of vectors related componentwise. *)
Definition solution_step (D : Prop)
    (x y : list Device * list Server) : Prop :=
  Forall2 device_step x.1 y.1 ∧ Forall2 (server_step D) x.2 y.2.
Definition solution_kept (D : Prop)
    (x y : list Device * list Server) : Prop :=
  Forall2 device_kept x.1 y.1 ∧ Forall2 (server_step D) x.2 y.2.

(** Both the current and the best solution of the search derive from the
    input solution by admissible steps. *)
Definition annealing_inv (x : list Device * list Server) (a : Annealing)
    : Prop :=
  solution_kept (Forall demand_nonneg x.1) x
                (currentDevices a, currentServers a) ∧
  solution_kept (Forall demand_nonneg x.1) x
                (bestDevices a, bestServers a).

Inductive strategy :=
| Random
| Greedy (sortDevicesAsc sortServersAsc : bool)
| SimulatedAnnealing.

(** [completes k state state']: strategy [k], started on [state], returns
    and leaves [state']. *)
Inductive completes : strategy → Result → Result → Prop :=
| completes_Random state e state' e' :
    randomHeuristic state e = Ok (state', e') →
    completes Random state state'
| completes_Greedy state sortDevicesAsc sortServersAsc state' :
    greedyHeuristic state sortDevicesAsc sortServersAsc = Ok state' →
    completes (Greedy sortDevicesAsc sortServersAsc) state state'
| completes_SA exp levels fuel state T alpha e state' e' :
    simulatedAnnealing exp levels fuel state T alpha e = Ok (state', e') →
    completes SimulatedAnnealing state state'.

(** One strategy after another, any number of times. *)
Definition strategy_run (state state' : Result) : Prop :=
  ∃ k, completes k state state'.

Definition reachable (state0 state : Result) : Prop :=
  rtc strategy_run state0 state.

(** What both constructors of [Server] establish. *)
Definition constructed_server (s : Server) : Prop :=
  on s = false ∧ supply s = server_supply0 ∧ s_bw s = 0.

(** The capacities read from the data files are not negative. *)
Definition capacity_nonneg (s : Server) : Prop :=
  0 ≤ pcc_total s ∧ (0 ≤ s_pcn s)%Z ∧ 0 ≤ s_mem s ∧ 0 ≤ s_sto s.

(** The calls a server can receive. *)
Inductive call :=
| call_addServed (device : Device)
| call_rmvServed (device : Device).

Definition do_call (s : Server) (c : call) : Server :=
  match c with
  | call_addServed device => (addServed s device).1.2
  | call_rmvServed device => (rmvServed s device).1.2
  end.

(** The comparator of [sort_indices_impl] as a total function: the
    attribute of an index outside the vector (where the C++ comparator
    throws) is taken to be 0. *)
Definition attr_at {T} (attr : T → Qc) (entities : list T) (i : Z) : Qc :=
  match vat entities i with
  | Ok x => attr x
  | _ => 0
  end.

Definition index_before {T} (Ascending : bool) (attr : T → Qc)
    (entities : list T) (i j : Z) : bool :=
  let attr_i := attr_at attr entities i in
  let attr_j := attr_at attr entities j in
  if negb (Qceqb attr_i attr_j) then
    if Ascending then Qcltb attr_i attr_j else Qcltb attr_j attr_i
  else (i <? j)%Z.

(** [i] may stand before [j] in a sorted sequence. *)
Definition index_le {T} (Ascending : bool) (attr : T → Qc)
    (entities : list T) (i j : Z) : Prop :=
  index_before Ascending attr entities j i = false.

(** What [findCovering] does to one device. *)
Definition cover_device (calculateDistance : Qc → Qc → Qc → Qc → Qc)
    (servers_ : list Server) (coverageRadius : Qc) (device : Device)
    : Device :=
  let device := foldl (findCovering_edge calculateDistance coverageRadius)
                      device (from1 servers_) in
  if covered device then foldl findCovering_cloud device (from1 servers_)
  else device.

(** The non-service costs of the devices left uncovered. *)
Fixpoint uncovered_cost (l : list Device) : Qc :=
  match l with
  | [] => 0
  | d :: l' => (if covered d then 0 else cnd d) + uncovered_cost l'
  end.

(** The edge server of the pair [js] is within the radius of [device]. *)
Definition in_radius (calculateDistance : Qc → Qc → Qc → Qc → Qc)
    (coverageRadius : Qc) (device : Device) (js : Z * Server) : Prop :=
  s_type js.2 = "E"%char ∧
  distance_device_server calculateDistance device js.2 ≤ coverageRadius.

(** A view of a device vector without the numeric fields. *)
Definition assignment (devices : list Device) : list (bool * Z) :=
  map (λ d, (served d, sc_id (server d))) devices.

(** The committed link and every candidate of a device name a server of
    a vector of [n] servers. *)
Definition device_valid (n : nat) (d : Device) : Prop :=
  (0 ≤ sc_id (server d) < Z.of_nat n)%Z ∧
  Forall (λ c, (0 ≤ sc_id c < Z.of_nat n)%Z) (servers d).

(** A validated run state: covered indices inside the device vector,
    server ids inside the server vector, and a candidate for every
    covered device. *)
Definition validated (state : Result) : Prop :=
  Forall (λ i, in_range i (r_devices state)) (coveredDevicesIdx state) ∧
  Forall (device_valid (length (r_servers state))) (r_devices state) ∧
  Forall (λ i, ∀ d, vat (r_devices state) i = Ok d → servers d ≠ [])
         (coveredDevicesIdx state).

(** What a loop over a valid solution keeps. *)
Definition valid_like (ds0 : list Device) (ss0 : list Server)
    (ds : list Device) (ss : list Server) : Prop :=
  length ds = length ds0 ∧ length ss = length ss0 ∧
  Forall (device_valid (length ss0)) ds.

(** A checker for [validated]. *)
Definition device_validb (n : nat) (d : Device) : bool :=
  bool_decide (0 ≤ sc_id (server d) < Z.of_nat n)%Z &&
  forallb (λ c, bool_decide (0 ≤ sc_id c < Z.of_nat n)%Z) (servers d).

Definition validatedb (state : Result) : bool :=
  forallb (λ i, bool_decide (0 ≤ i < Z.of_nat (length (r_devices state)))%Z)
          (coveredDevicesIdx state) &&
  forallb (device_validb (length (r_servers state))) (r_devices state) &&
  forallb (λ i, match vat (r_devices state) i with
                | Ok d => negb (bool_decide (servers d = []))
                | _ => true
                end)
          (coveredDevicesIdx state).

(** *** Accounting *)

Fixpoint sum_cost {A} (f : A → Qc) (l : list A) : Qc :=
  match l with
  | [] => 0
  | x :: l' => f x + sum_cost f l'
  end.

Definition count_if {A} (p : A → bool) (l : list A) : Z :=
  Z.of_nat (length (List.filter p l)).

(** The entries [calculateMetrics] looks at: those whose id is not 0. *)
Definition real_served (d : Device) : bool :=
  negb (d_id d =? 0)%Z && served d.
Definition real_unserved (d : Device) : bool :=
  negb (d_id d =? 0)%Z && negb (served d) && covered d.
Definition real_on (s : Server) : bool :=
  negb (s_id s =? 0)%Z && on s.

(** The non-service costs of the covered devices left unserved, and the
    usage costs of the active servers. *)
Definition non_service_cost (devices : list Device) : Qc :=
  sum_cost (λ d, if real_unserved d then cnd d else 0) devices.
Definition servers_used_cost (servers_ : list Server) : Qc :=
  sum_cost (λ s, if real_on s then csc s else 0) servers_.
Definition response_time_sum (devices : list Device) : Qc :=
  sum_cost (λ d, if real_served d then responseTime (server d) else 0)
           devices.

(** The server at position [j] is of the given type. *)
Definition server_type_at (servers_ : list Server) (t : ascii) (j : Z)
    : bool :=
  match vat servers_ j with
  | Ok sv => Ascii.eqb (s_type sv) t
  | _ => false
  end.

(** [order] lists the indices [1 .. N-1] of [entities], each once, by
    attribute in the chosen direction, equal attributes by ascending
    index. *)
Definition sorted_indices {T} (Ascending : bool) (attr : T → Qc)
    (entities : list T) (order : list Z) : Prop :=
  order ≡ₚ seqZ 1 (Z.of_nat (length entities) - 1) ∧
  ∀ p q i j ei ej,
    (p < q)%nat → order !! p = Some i → order !! q = Some j →
    vat entities i = Ok ei → vat entities j = Ok ej →
    (if Ascending then attr ei ≤ attr ej else attr ej ≤ attr ei) ∧
    (attr ei = attr ej → (i < j)%Z).

(** What [timeCalculation] makes of a candidate link [c] of [device]:
    identity and distance kept, processing time set from the server,
    response time the sum of connection and processing time. *)
Definition timed_link (servers_ : list Server) (device : Device)
    (c c' : server_covering) : Prop :=
  sc_id c' = sc_id c ∧ distance c' = distance c ∧
  responseTime c' = connectionTime c' + processingTime c' ∧
  ∃ sv, vat servers_ (sc_id c) = Ok sv ∧
        processingTime c' = s_d device * t_p sv.

(** *** Consistency of a solution *)

(** Device ids are pairwise distinct. *)
Definition distinct_ids (devices : list Device) : Prop :=
  NoDup (d_id <$> devices).

(** The served sets mirror the devices: an id is in the served set of
    the server at position [j] exactly when a device with that id is
    marked served with its link pointing to [j]. *)
Definition sets_mirror_links (devices : list Device)
    (servers_ : list Server) : Prop :=
  ∀ j sv x, vat servers_ j = Ok sv →
    (x ∈ devices_served (supply sv) ↔
     ∃ i d, vat devices i = Ok d ∧ d_id d = x ∧ served d = true ∧
            sc_id (server d) = j).

Definition consistent (devices : list Device) (servers_ : list Server)
    : Prop :=
  distinct_ids devices ∧ sets_mirror_links devices servers_ ∧
  Forall active_ok servers_.

(** A served device is linked to one of its candidates. *)
Definition legal (d : Device) : Prop :=
  served d = true → server d ∈ servers d.

(** The candidates of a device name servers whose id is not 0 (the
    servers [calculateMetrics] counts). *)
Definition candidates_real (servers_ : list Server) (d : Device) : Prop :=
  Forall (λ c, ∀ sv, vat servers_ (sc_id c) = Ok sv → s_id sv ≠ 0%Z)
         (servers d).

(** The covered list names devices marked covered whose id is not 0. *)
Definition covered_real (devices : list Device) (coveredIdx : list Z)
    : Prop :=
  Forall (λ i, ∀ d, vat devices i = Ok d → d_id d ≠ 0%Z ∧ covered d = true)
         coveredIdx.

Definition accountable (devices : list Device) (servers_ : list Server)
    (coveredIdx : list Z) : Prop :=
  Forall legal devices ∧ Forall (candidates_real servers_) devices ∧
  covered_real devices coveredIdx.

(** The device [device] (at position [i]) is committed to its candidate
    [c]: the server named by [c] passes [canServe] and takes the device,
    the link is set. *)
Definition committed (devices : list Device) (servers_ : list Server)
    (i : Z) (device : Device) (c : server_covering)
    (devices' : list Device) (servers' : list Server) : Prop :=
  ∃ sv b sv' device',
    vat servers_ (sc_id c) = Ok sv ∧ canServe sv device = true ∧
    addServed sv device = (b, sv', device') ∧
    devices' = vset devices i (set_server c device') ∧
    servers' = vset servers_ (sc_id c) sv'.

(** No device is served and no server serves any (the state before the
    first strategy runs). *)
Definition unassigned (devices : list Device) (servers_ : list Server)
    : Prop :=
  Forall (λ d, served d = false) devices ∧
  Forall (λ s, devices_served (supply s) = ∅ ∧ on s = false) servers_.

(** What a successful move of [generateNeighbor] does: the device at
    position [d_idx] leaves [old_server] (when it was served) and joins
    [new_server], the server named by its candidate [potential_server];
    the two cost components are adjusted. *)
Definition neighbor_move (devices : list Device) (servers_ : list Server)
    (d_idx : Z) (device : Device) (potential_server : server_covering)
    (old_server new_server : Server) (cns csu : Qc)
    : list Device * list Server * Qc * Qc :=
  let csu := if negb (on new_server) then csu + csc new_server else csu in
  let '(old_server, device, cns, csu) :=
    if served device then
      let '(_, old_server, device) := rmvServed old_server device in
      (old_server, device, cns,
       if negb (on old_server) then csu - csc old_server else csu)
    else (old_server, device, cns - cnd device, csu) in
  let '(_, new_server, device') := addServed new_server device in
  let servers_ := vset servers_ (sc_id (server device)) old_server in
  let servers_ := vset servers_ (sc_id potential_server) new_server in
  (vset devices d_idx (set_server potential_server device'), servers_,
   cns, csu).

(** The invariant of both heuristic loops: the solution is consistent,
    every served device is linked to one of its candidates, and the
    devices still to visit are not served. *)
Definition heuristic_inv (rest : list Z) (devices : list Device)
    (servers_ : list Server) : Prop :=
  NoDup rest ∧ consistent devices servers_ ∧ Forall legal devices ∧
  Forall (λ i, ∀ d, vat devices i = Ok d → served d = false) rest.

(** The invariant of the annealing search started on [start]: the
    current and the best solution are consistent and accountable, and
    the best solution is the start solution unless a cost strictly
    below the start cost was recorded (costs as the search tracks
    them). *)
Definition annealing_sound (start : Result) (a : Annealing) : Prop :=
  consistent (currentDevices a) (currentServers a) ∧
  accountable (currentDevices a) (currentServers a)
              (coveredDevicesIdx start) ∧
  consistent (bestDevices a) (bestServers a) ∧
  accountable (bestDevices a) (bestServers a) (coveredDevicesIdx start) ∧
  ((bestDevices a = r_devices start ∧ bestServers a = r_servers start ∧
    bestCost a = bestCost (annealing_init start)) ∨
   bestCost a < bestCost (annealing_init start)).

(** Every server from position 1 on has an id other than 0 (the ids in
    the data files start at 1). *)
Definition real_servers (servers_ : list Server) : Prop :=
  ∀ j sv, (1 ≤ j)%Z → vat servers_ j = Ok sv → s_id sv ≠ 0%Z.

(** A device as both constructors of [Device] leave it. *)
Definition constructed_device (d : Device) : Prop :=
  covered d = false ∧ served d = false ∧ server d = server_covering0 ∧
  servers d = [] ∧ d_bw d = 0.

(** The id of every device is its position in the vector (the data
    generator numbers the devices 1, 2, ... in file order, after the
    placeholder with id 0). *)
Definition ids_by_position (devices : list Device) : Prop :=
  ∀ i d, vat devices i = Ok d → d_id d = i.

(** What the timing step keeps of a device. *)
Definition timing_frame (d d' : Device) : Prop :=
  same_device d d' ∧ served d' = served d ∧ server d' = server d ∧
  sc_id <$> servers d' = sc_id <$> servers d.

(** A run state on which the strategies can start: validated, nothing
    assigned yet, device ids equal to positions, and the covered list
    naming each covered device (none of them the placeholder) once. *)
Definition ready (state : Result) : Prop :=
  validated state ∧ NoDup (coveredDevicesIdx state) ∧
  ids_by_position (r_devices state) ∧
  unassigned (r_devices state) (r_servers state) ∧
  (∀ i, i ∈ coveredDevicesIdx state ↔
        (1 ≤ i)%Z ∧ ∃ d, vat (r_devices state) i = Ok d ∧ covered d = true) ∧
  Forall (λ d, Forall (λ c, (1 ≤ sc_id c)%Z) (servers d)) (r_devices state).

(** The candidate [c] cannot serve [device] in the solution at hand. *)
Definition cannot_serve (servers_ : list Server) (device : Device)
    (c : server_covering) : Prop :=
  ∃ sv, vat servers_ (sc_id c) = Ok sv ∧ canServe sv device = false.

(** The order of response times asked for by the server flag of
    [greedyHeuristic]. *)
Definition responseTime_le (sortServersAsc : bool)
    (a b : server_covering) : Prop :=
  if sortServersAsc then responseTime a ≤ responseTime b
  else responseTime b ≤ responseTime a.


(** *** Tables that survive a round trip through a file *)

Fixpoint chars (s : string) : list ascii :=
  match s with
  | EmptyString => []
  | String c s' => c :: chars s'
  end.

(** A cell that [read] gives back as written: not empty, free of the
    delimiter and of the line break, and free of white space when the
    delimiter is the space. *)
Definition plain_cell (delimiter : ascii) (cell : string) : Prop :=
  cell ≠ EmptyString ∧
  Forall (λ c, c ≠ delimiter ∧ c ≠ newline ∧
               (delimiter = " "%char → isspace c = false)) (chars cell).

Definition plain_table (delimiter : ascii) (data : list (list string))
    : Prop :=
  Forall (λ row, row ≠ [] ∧ Forall (plain_cell delimiter) row) data.

(** What the loaders make of one row: nothing of a header row (first
    cell "#") or of a row that does not parse. *)
Definition data_row {A} (parse : list string → option A)
    (row : list string) : option A :=
  match row with
  | [] => None
  | cell :: _ => if String.eqb cell "#" then None else parse row
  end.

(** *** The bottleneck scenario *)

(** The demands a bottleneck device gets from the capacities of the
    server [sv]: 0.999999 times the whole part of its memory and of its
    storage, and a cost of 9.9. *)
Definition bottleneck_of (sv : Server) (d d' : Device) : Prop :=
  ∃ m s, trunc (s_mem sv) = Some m ∧ trunc (s_sto sv) = Some s ∧
         d' = set_bottleneck (Q2Qc (inject_Z m) * dec 999999 1000000)
                             (Q2Qc (inject_Z s) * dec 999999 1000000)
                             (dec 99 10) d.

(** The device at position [p] after the first [n] passes of the
    bottleneck loop over the index list [idx]: left as it was when no
    pass named it, rewritten from the server paired with a pass that
    named it otherwise. *)
Definition bottleneck_at (idx : list Z) (cloud : list Server) (n : nat)
    (p : nat) (d d' : Device) : Prop :=
  (d' = d ∧ ∀ j, (j < n)%nat → idx !! j ≠ Some (Z.of_nat p)) ∨
  ∃ j sv, (j < n)%nat ∧ idx !! j = Some (Z.of_nat p) ∧
          cloud !! j = Some sv ∧ bottleneck_of sv d d'.

(** The index list the bottleneck loop walks. *)
Definition bottleneck_idx (state : Result) (randomBottleneck : bool)
    (e : Engine) : list Z :=
  if randomBottleneck then (shuffle (coveredDevicesIdx state) e).1
  else coveredDevicesIdx state.

(** Everything of a device but its cost, memory and storage. *)
Definition same_device_but_demand (d d' : Device) : Prop :=
  d_id d' = d_id d ∧ d_pcn d' = d_pcn d ∧ svc d' = svc d ∧
  d_lat d' = d_lat d ∧ d_lon d' = d_lon d ∧ pcc d' = pcc d ∧
  s_d d' = s_d d ∧ d_bw d' = d_bw d ∧ covered d' = covered d ∧
  served d' = served d ∧ server d' = server d ∧ servers d' = servers d.

(** *** Floating-point tolerance *)

(** The tolerance within which an accumulator that held [x] is restored
    after a demand [d] was added and subtracted again, each operation
    with a relative rounding error of at most [2^-53]. *)
Definition tolerance (x d : Qc) : Qc :=
  unit_roundoff * (2 + unit_roundoff) * (Qcabs.Qcabs x + Qcabs.Qcabs d).

(** The server [this2] and the device [device2] after a commit and
    release of [device] on [this]: the served set and the core count are
    as before, every [double] sum is within the tolerance of its value
    before, and the device is not served. *)
Definition restored (this : Server) (device : Device) (this2 : Server)
    (device2 : Device) : Prop :=
  devices_served (supply this2) = devices_served (supply this) ∧
  pcnD (supply this2) = pcnD (supply this) ∧
  Qcabs.Qcabs (cndD (supply this2) - cndD (supply this))
    ≤ tolerance (cndD (supply this)) (cnd device) ∧
  Qcabs.Qcabs (pccD (supply this2) - pccD (supply this))
    ≤ tolerance (pccD (supply this)) (pcc device) ∧
  Qcabs.Qcabs (memD (supply this2) - memD (supply this))
    ≤ tolerance (memD (supply this)) (d_mem device) ∧
  Qcabs.Qcabs (stoD (supply this2) - stoD (supply this))
    ≤ tolerance (stoD (supply this)) (d_sto device) ∧
  Qcabs.Qcabs (bwD (supply this2) - bwD (supply this))
    ≤ tolerance (bwD (supply this)) (d_bw device) ∧
  same_server this this2 ∧ same_device device device2 ∧
  served device2 = false.

(* ===================================================================== *)
(** * A small instance *)
(* ===================================================================== *)

(** Two devices, one edge server and one cloud server; every distance is
    2.9 km. *)
Definition ex_calculateDistance (lat1 lon1 lat2 lon2 : Qc) : Qc := dec 29 10.

Definition ex_loadDevices (length_ : Z) : list Device :=
  [Device0;
   mkDevice 1 0 0 (dec 5 1) 1 1 1 1 1 1;
   mkDevice 2 0 0 (dec 5 1) 1 1 1 1 1 1].

Definition ex_loadServers (ecLength ccLength : Z) : list Server :=
  [Server0;
   mkServer 1 0 0 (dec 1 1) (dec 2 1) 4 (dec 10 1) (dec 10 1) 1 "E";
   mkServer 2 0 0 (dec 3 1) (dec 2 1) 4 (dec 10 1) (dec 10 1) 1 "C"].

Definition ex_engine : Engine := {| raw := λ n, Z.of_nat n; pos := 0 |}.

(** [std::exp] is irrelevant to the instance: every non-improving
    neighbour is rejected. *)
Definition ex_exp (x : Qc) : Qc := 0.

Definition ex_empty : Result :=
  {| r_devices := []; r_servers := []; coveredDevicesIdx := [];
     metrics := mkMetrics EmptyString EmptyString 0 0 0 0 |}.

(** The pre-calculated state under 4G (radius 3.0 km). *)
Definition ex_state : Result :=
  match pre_calculation ex_calculateDistance ex_loadDevices ex_loadServers
                        "Heuristic" "Random" 2 1 1 4 with
  | Ok (Some state) => state
  | _ => ex_empty
  end.

(** The same after the Random strategy. *)
Definition ex_random : Result :=
  match randomHeuristic ex_state ex_engine with
  | Ok (state, _) => state
  | _ => ex_empty
  end.

(** The same after Greedy with servers in descending response time. *)
Definition ex_greedy : Result :=
  match greedyHeuristic ex_state true false with
  | Ok state => state
  | _ => ex_empty
  end.

(** Simulated annealing started on [ex_random], [T = 1], [alpha = 1/2]. *)
Definition ex_search : Annealing :=
  match annealing_search ex_exp 20 100 ex_random 1 (dec 1 2) ex_engine with
  | Ok (a, _) => a
  | _ => annealing_init ex_empty
  end.

Definition ex_annealed : Result :=
  match simulatedAnnealing ex_exp 20 100 ex_random 1 (dec 1 2) ex_engine with
  | Ok (state, _) => state
  | _ => ex_empty
  end.

(** The pre-calculated state under 6G (radius 0.32 km): no device is
    covered. *)
Definition ex_uncovered : Result :=
  match pre_calculation ex_calculateDistance ex_loadDevices ex_loadServers
                        "MetaHeuristic" "SA" 2 1 1 6 with
  | Ok (Some state) => state
  | _ => ex_empty
  end.

Definition ex_device : Device := mkDevice 1 0 0 (dec 5 1) 1 1 1 1 1 1.

(** The first pass of the annealing loop on [ex_random]. *)
Definition ex_pass : Annealing * Z * Engine :=
  match annealing_body ex_exp (coveredDevicesIdx ex_random) 1
                       (annealing_init ex_random) 0 ex_engine with
  | Ok r => r
  | _ => (annealing_init ex_empty, 0%Z, ex_engine)
  end.

(** The loaded devices with the 4G data rate, and the coverage step on
    them under the 4G radius. *)
Definition ex_devices : list Device :=
  (bandwidth (ex_loadDevices 2) (ex_loadServers 1 1) (techParams 4).2).1.
Definition ex_servers : list Server :=
  (bandwidth (ex_loadDevices 2) (ex_loadServers 1 1) (techParams 4).2).2.
Definition ex_covering : list Device * list Z * Metrics :=
  findCovering ex_calculateDistance ex_devices ex_servers (techParams 4).1
               (mkMetrics "Heuristic" "Random" 2 1 1 4).

(** The metrics of the Greedy solution, recomputed. *)
Definition ex_metrics : Metrics :=
  match calculateMetrics (r_devices ex_greedy) (r_servers ex_greedy)
                         (metrics ex_state) with
  | Ok m => m
  | _ => metrics ex_empty
  end.

(** The covered devices after the timing step; the first device and its
    link to the cloud server. *)
Definition ex_timed : list Device :=
  match timeCalculation ex_calculateDistance ex_covering.1.1 ex_servers with
  | Ok devices => devices
  | _ => []
  end.
Definition ex_covered_device : Device :=
  match vat ex_covering.1.1 1 with Ok d => d | _ => Device0 end.
Definition ex_timed_device : Device :=
  match vat ex_timed 1 with Ok d => d | _ => Device0 end.
Definition ex_cloud_link : server_covering :=
  match servers ex_timed_device with
  | [_; c] => c
  | _ => server_covering0
  end.

(** A neighbour of the Random solution. *)
Definition ex_neighbor : list Device * list Server * Qc * Qc * Engine :=
  match generateNeighbor (r_devices ex_random) (r_servers ex_random)
                         (coveredDevicesIdx ex_random) 0 0 ex_engine with
  | Ok r => r
  | _ => ([], [], 0, 0, ex_engine)
  end.

(** The first pass of the Greedy loop on [ex_state]. *)
Definition ex_greedy_pass : list Device * list Server :=
  match greedyHeuristic_body false (r_devices ex_state, r_servers ex_state)
                             1 with
  | Ok r => r
  | _ => ([], [])
  end.


(** A table with a header row, a file system without files, and an
    environment in which directories can be created and streams open. *)
Definition ex_table : list (list string) :=
  [["#"; "id"; "cnd"]; ["1"; "0.5"; "x"]]%string.
Definition ex_files : FileSystem := λ _, None.
Definition ex_environment (filePath : string) : bool := true.

(** The bottleneck scenario on [ex_state]. *)
Definition ex_bottleneck : Result * Engine :=
  match createBottleneck (Some ex_state) false ex_engine with
  | Some r => r
  | None => (ex_empty, ex_engine)
  end.

(** The doubles 0.1 and 0.2; a server that holds a device with demands
    0.1, a second device with demands 0.2, and the server after the
    second device was committed and released again. *)
Definition ex_tenth : Qc := round_binary64 (dec 1 10).
Definition ex_fifth : Qc := round_binary64 (dec 2 10).
Definition ex_device_a : Device :=
  mkDevice 1 0 0 ex_tenth ex_tenth 1 ex_tenth ex_tenth 1 1.
Definition ex_device_b : Device :=
  mkDevice 2 0 0 ex_fifth ex_fifth 1 ex_fifth ex_fifth 1 1.
Definition ex_loaded : Server :=
  (addServed_rounded round_binary64
     (mkServer 1 0 0 1 1 4 (dec 10 1) (dec 10 1) 1 "E") ex_device_a).1.2.
Definition ex_released : Server :=
  let '(_, this1, device1) :=
    addServed_rounded round_binary64 ex_loaded ex_device_b in
  (rmvServed_rounded round_binary64 this1 device1).1.2.

(* ===================================================================== *)
(** * Properties of the capacity model *)
(* ===================================================================== *)

Lemma same_server_refl s : same_server s s.
Proof. by repeat split. Qed.

Lemma same_device_refl d : same_device d d.
Proof. by repeat split. Qed.

Lemma same_server_trans s1 s2 s3 :
  same_server s1 s2 → same_server s2 s3 → same_server s1 s3.
Proof. unfold same_server. intros H1 H2. intuition congruence. Qed.

Lemma same_device_trans d1 d2 d3 :
  same_device d1 d2 → same_device d2 d3 → same_device d1 d3.
Proof. unfold same_device. intros H1 H2. intuition congruence. Qed.

Lemma Qcleb_le x y : Qcleb x y = true ↔ x ≤ y.
Proof. unfold Qcleb. apply bool_decide_eq_true. Qed.

Lemma Qcltb_lt x y : Qcltb x y = true ↔ x < y.
Proof. unfold Qcltb. apply bool_decide_eq_true. Qed.

Lemma canServe_spec this device :
  canServe this device = true ↔
  pccD (supply this) + pcc device ≤ pcc_total this ∧
  (pcnD (supply this) + d_pcn device ≤ s_pcn this)%Z ∧
  memD (supply this) + d_mem device ≤ s_mem this ∧
  stoD (supply this) + d_sto device ≤ s_sto this ∧
  bwD (supply this) + d_bw device ≤ s_bw this.
Proof.
  unfold canServe. rewrite !andb_true_iff, !Qcleb_le, bool_decide_eq_true.
  tauto.
Qed.

(** *** addServed *)

Lemma addServed_present this device :
  d_id device ∈ devices_served (supply this) →
  addServed this device = (false, this, device).
Proof. intros H. unfold addServed. by rewrite bool_decide_eq_true_2. Qed.

Lemma addServed_static this device b s' d' :
  addServed this device = (b, s', d') →
  same_server this s' ∧ same_device device d' ∧
  server d' = server device ∧ servers d' = servers device.
Proof.
  unfold addServed. case_bool_decide; intros [= <- <- <-].
  - split; [apply same_server_refl | split; [apply same_device_refl | done]].
  - by repeat split.
Qed.

Lemma addServed_active this device b s' d' :
  addServed this device = (b, s', d') → active_ok this → active_ok s'.
Proof.
  unfold addServed, active_ok.
  case_bool_decide; intros [= <- <- <-]; [done |].
  intros _. simpl. split; [set_solver | done].
Qed.

Lemma addServed_capacity this device b s' d' :
  canServe this device = true →
  addServed this device = (b, s', d') → capacity_ok this → capacity_ok s'.
Proof.
  rewrite canServe_spec. unfold addServed, capacity_ok.
  case_bool_decide; intros Hc [= <- <- <-]; [done |].
  intros _. simpl. exact Hc.
Qed.

(** *** rmvServed *)

Lemma rmvServed_absent this device :
  d_id device ∉ devices_served (supply this) →
  rmvServed this device = (false, this, device).
Proof. intros H. unfold rmvServed. by rewrite bool_decide_eq_true_2. Qed.

Lemma rmvServed_static this device b s' d' :
  rmvServed this device = (b, s', d') →
  same_server this s' ∧ same_device device d' ∧
  server d' = server device ∧ servers d' = servers device.
Proof.
  unfold rmvServed. case_bool_decide; intros [= <- <- <-].
  - split; [apply same_server_refl | split; [apply same_device_refl | done]].
  - case_bool_decide; by repeat split.
Qed.

Lemma rmvServed_active this device b s' d' :
  rmvServed this device = (b, s', d') → active_ok this → active_ok s'.
Proof.
  unfold rmvServed, active_ok.
  case_bool_decide; intros [= <- <- <-]; [done |].
  intros [H1 H2]. case_bool_decide as Hempty; simpl.
  - rewrite Hempty. split; [done | congruence].
  - split; [done |]. intros _. apply H2. set_solver.
Qed.

Lemma Qcle_minus_nonneg (x d c : Qc) : x ≤ c → 0 ≤ d → x - d ≤ c.
Proof. intros. qc_lra. Qed.

Lemma rmvServed_capacity this device b s' d' :
  demand_nonneg device →
  rmvServed this device = (b, s', d') → capacity_ok this → capacity_ok s'.
Proof.
  unfold rmvServed, capacity_ok, demand_nonneg.
  intros (Hd1 & Hd2 & Hd3 & Hd4 & Hd5).
  case_bool_decide; intros [= <- <- <-]; [done |].
  intros (H1 & H2 & H3 & H4 & H5).
  case_bool_decide; simpl;
    (repeat split; [by apply Qcle_minus_nonneg | lia
                   | by apply Qcle_minus_nonneg | by apply Qcle_minus_nonneg
                   | by apply Qcle_minus_nonneg]).
Qed.

(* ===================================================================== *)
(** * Vectors, loops, shuffles and sorts *)
(* ===================================================================== *)

Lemma vat_Ok {A} (v : list A) i x :
  vat v i = Ok x ↔ (0 ≤ i)%Z ∧ v !! Z.to_nat i = Some x.
Proof.
  unfold vat. destruct (Z.ltb_spec i 0).
  - split; [done | lia].
  - destruct (v !! Z.to_nat i) as [a |].
    + split; [intros [= ->]; by split | intros [_ [= ->]]; done].
    + split; [done | intros [_ [=]]].
Qed.

Lemma vat_in_range {A} (v : list A) i :
  in_range i v ↔ ∃ x, vat v i = Ok x.
Proof.
  unfold in_range. split.
  - intros [H0 H1].
    destruct (lookup_lt_is_Some_2 v (Z.to_nat i)) as [x Hx]; [lia |].
    exists x. by apply vat_Ok.
  - intros [x Hx]. apply vat_Ok in Hx as [H0 Hx].
    apply lookup_lt_Some in Hx. lia.
Qed.

Lemma vat_elem_of {A} (v : list A) i x : vat v i = Ok x → x ∈ v.
Proof. intros [_ H]%vat_Ok. by eapply list_elem_of_lookup_2. Qed.

Lemma vat_Forall {A} (P : A → Prop) (v : list A) i x :
  Forall P v → vat v i = Ok x → P x.
Proof. intros HP [_ H]%vat_Ok. by eapply Forall_lookup_1. Qed.

Lemma length_vset {A} (v : list A) i x : length (vset v i x) = length v.
Proof. apply length_insert. Qed.

Lemma vat_vset_ne {A} (v : list A) i j x y :
  i ≠ j → vat v j = Ok y → (0 ≤ i)%Z → vat (vset v i x) j = Ok y.
Proof.
  intros Hne [Hj Hy]%vat_Ok Hi. apply vat_Ok. split; [done |].
  unfold vset. rewrite list_lookup_insert_ne; [done | lia].
Qed.

Lemma Forall_vset {A} (P : A → Prop) (v : list A) i x :
  Forall P v → P x → Forall P (vset v i x).
Proof. apply Forall_insert. Qed.

Lemma Forall2_diag {A} (R : A → A → Prop) `{!Reflexive R} (l : list A) :
  Forall2 R l l.
Proof. induction l; constructor; auto. Qed.

Lemma Forall2_vset {A} (R : A → A → Prop) `{!Reflexive R}
    (v : list A) i x y :
  vat v i = Ok x → R x y → Forall2 R v (vset v i y).
Proof.
  intros [_ Hx]%vat_Ok HR. unfold vset.
  rewrite <- (list_insert_id v (Z.to_nat i) x) at 1 by done.
  apply Forall2_insert; [by apply Forall2_diag | done].
Qed.

Lemma Forall2_compose {A} (R : A → A → Prop) `{!Transitive R}
    (l1 l2 l3 : list A) :
  Forall2 R l1 l2 → Forall2 R l2 l3 → Forall2 R l1 l3.
Proof. apply Forall2_trans. intros x y z. apply transitivity. Qed.

(** A relation that every pass of a loop body establishes between the
    loop state before and after holds across the whole loop. *)
Lemma for_each_rel {A S} (R : S → S → Prop)
    (body : S → A → result S) (l : list A) :
  (∀ s, R s s) → (∀ s1 s2 s3, R s1 s2 → R s2 s3 → R s1 s3) →
  (∀ s x s', x ∈ l → body s x = Ok s' → R s s') →
  ∀ s s', for_each body s l = Ok s' → R s s'.
Proof.
  intros Hrefl Htrans.
  induction l as [| x l IH]; intros Hbody s s'; simpl.
  - intros [= <-]. apply Hrefl.
  - destruct (body s x) as [s1 | |] eqn:Hs1; simpl; try done.
    intros Hrest. apply (Htrans _ s1).
    + eapply Hbody; [left | done].
    + eapply IH; [| done]. intros. eapply Hbody; [by right | done].
Qed.

(** A loop whose body cannot throw while an invariant holds, and keeps
    it, does not throw. *)
Lemma for_each_total {A S} (I : S → Prop) (body : S → A → result S)
    (l : list A) :
  (∀ s x, x ∈ l → I s → ∃ s', body s x = Ok s' ∧ I s') →
  ∀ s, I s → ∃ s', for_each body s l = Ok s' ∧ I s'.
Proof.
  induction l as [| x l IH]; intros Hbody s Hs; simpl.
  - eauto.
  - destruct (Hbody s x) as (s1 & -> & Hs1); [left | done |]. simpl.
    apply IH; [| done]. intros. apply Hbody; [by right | done].
Qed.

(** *** The shuffle is a permutation *)

Lemma shuffle_aux_Permutation {A} n (l : list A) e :
  length l = n → (shuffle_aux n l e).1 ≡ₚ l.
Proof.
  revert l e. induction n as [| n IH]; intros l e Hlen.
  - by destruct l.
  - cbn [shuffle_aux]. destruct (next e) as [r e'].
    set (k := Z.to_nat (r `mod` Z.of_nat (length l))).
    destruct (lookup_lt_is_Some_2 l k) as [x Hx].
    { pose proof (Z.mod_pos_bound r (Z.of_nat (length l))). lia. }
    rewrite Hx. specialize (IH (delete k l) e').
    destruct (shuffle_aux n (delete k l) e') as [rest e'']. simpl in *.
    rewrite IH.
    + symmetry. by apply delete_Permutation.
    + rewrite length_delete by eauto. lia.
Qed.

Lemma shuffle_Permutation {A} (l : list A) e : (shuffle l e).1 ≡ₚ l.
Proof. by apply shuffle_aux_Permutation. Qed.

Lemma randomNumber_Ok min max e :
  (min ≤ max)%Z →
  ∃ r e', randomNumber min max e = Ok (r, e') ∧ (min ≤ r ≤ max)%Z.
Proof.
  intros H. unfold randomNumber. destruct (Z.ltb_spec max min); [lia |].
  destruct (next e) as [r e']. eexists _, _. split; [done |].
  pose proof (Z.mod_pos_bound r (max - min + 1)). lia.
Qed.

Lemma shuffledRange_Ok min max e :
  (min ≤ max)%Z →
  ∃ l e', shuffledRange min max e = Ok (l, e') ∧
          Forall (λ k, (min ≤ k ≤ max)%Z) l.
Proof.
  intros H. unfold shuffledRange. destruct (Z.ltb_spec max min); [lia |].
  destruct (shuffle _ e) as [l e'] eqn:Hs. eexists _, _. split; [done |].
  pose proof (shuffle_Permutation (seqZ min (max - min + 1)) e) as Hp.
  rewrite Hs in Hp. simpl in Hp. rewrite Hp.
  apply Forall_seqZ. intros; lia.
Qed.

(** *** The insertion sort returns a permutation *)

Lemma insert_sorted_Permutation {A} (comp : A → A → bool) x l :
  insert_sorted comp x l ≡ₚ x :: l.
Proof.
  induction l as [| y l IH]; simpl; [done |].
  destruct (comp y x); [| done]. rewrite IH. apply Permutation_swap.
Qed.

Lemma sort_Permutation {A} (comp : A → A → bool) l : sort comp l ≡ₚ l.
Proof.
  induction l as [| x l IH]; simpl; [done |].
  by rewrite insert_sorted_Permutation, IH.
Qed.

(** A throwing comparator that agrees with a pure one on the elements of
    the list sorts like the pure one and does not throw. *)
Lemma insert_sortedM_pure {A} (compM : A → A → result bool)
    (comp : A → A → bool) x l :
  (∀ y, y ∈ l → compM y x = Ok (comp y x)) →
  insert_sortedM compM x l = Ok (insert_sorted comp x l).
Proof.
  induction l as [| y l IH]; intros H; simpl; [done |].
  rewrite H by left. simpl. destruct (comp y x); [| done].
  rewrite IH; [done |]. intros. apply H. by right.
Qed.

Lemma sortM_pure {A} (compM : A → A → result bool)
    (comp : A → A → bool) l :
  (∀ x y, x ∈ l → y ∈ l → compM x y = Ok (comp x y)) →
  sortM compM l = Ok (sort comp l).
Proof.
  induction l as [| x l IH]; intros H; simpl; [done |].
  rewrite IH by (intros; apply H; by right). simpl.
  apply insert_sortedM_pure. intros y Hy. apply H; [| left].
  right. by rewrite <- (sort_Permutation comp l).
Qed.

(* ===================================================================== *)
(** * What a strategy may change *)
(* ===================================================================== *)

#[local] Instance device_step_preorder : PreOrder device_step.
Proof.
  split.
  - intros d. split; [apply same_device_refl | split; [done | by left]].
  - intros d1 d2 d3 (Hs1 & Hp1 & Hl1) (Hs2 & Hp2 & Hl2).
    split; [by eapply same_device_trans |]. split; [by rewrite Hp2 |].
    destruct Hl2 as [-> | ?]; [| by right].
    destruct Hl1 as [-> | ?]; [by left |]. right. by rewrite Hp2.
Qed.

#[local] Instance device_kept_preorder : PreOrder device_kept.
Proof.
  split.
  - intros d. split; [apply same_device_refl | split; [done | by left]].
  - intros d1 d2 d3 (Hs1 & Hp1 & Hl1) (Hs2 & Hp2 & Hl2).
    split; [by eapply same_device_trans |]. split; [congruence |].
    destruct Hl2 as [-> | ?]; [| by right].
    destruct Hl1 as [-> | ?]; [by left |]. right. by rewrite Hp2.
Qed.

#[local] Instance server_step_preorder D : PreOrder (server_step D).
Proof.
  split.
  - intros s. split; [apply same_server_refl | done].
  - intros s1 s2 s3 (Hs1 & Ha1 & Hc1) (Hs2 & Ha2 & Hc2).
    split; [by eapply same_server_trans | split; auto].
Qed.

Lemma device_kept_step d d' : device_kept d d' → device_step d d'.
Proof. intros (? & Hs & ?). split; [done | split; [by rewrite Hs | done]]. Qed.

Lemma server_step_weaken (D D' : Prop) s s' :
  (D' → D) → server_step D s s' → server_step D' s s'.
Proof. intros HD (? & ? & ?). split; [done | split; auto]. Qed.

#[local] Instance solution_step_preorder D : PreOrder (solution_step D).
Proof.
  split.
  - intros [ds ss]. split; apply Forall2_diag; apply _.
  - intros x y z [H1 H2] [H3 H4]. split; eapply Forall2_compose; eauto; apply _.
Qed.

#[local] Instance solution_kept_preorder D : PreOrder (solution_kept D).
Proof.
  split.
  - intros [ds ss]. split; apply Forall2_diag; apply _.
  - intros x y z [H1 H2] [H3 H4]. split; eapply Forall2_compose; eauto; apply _.
Qed.

Lemma solution_kept_step D x y : solution_kept D x y → solution_step D x y.
Proof.
  intros [H1 H2]. split; [| done].
  eapply List.Forall2_impl; [exact device_kept_step | exact H1].
Qed.

(** Committing a device that passed [canServe]. *)
Lemma commit_step D (sv sv' : Server) (device device' : Device) b c :
  canServe sv device = true →
  addServed sv device = (b, sv', device') →
  c ∈ servers device →
  server_step D sv sv' ∧ device_kept device (set_server c device').
Proof.
  intros Hcan Hadd Hc.
  destruct (addServed_static _ _ _ _ _ Hadd) as (Hs & Hd & Hl & Hcs).
  split.
  - split; [done |]. split.
    + by eapply addServed_active.
    + intros _. by eapply addServed_capacity.
  - split; [| split].
    + destruct Hd as (?&?&?&?&?&?&?&?&?&?&?&?). by repeat split.
    + done.
    + right. simpl. by rewrite Hcs.
Qed.

Lemma randomHeuristic_body_step devices servers_ e d_idx devices' servers' e' :
  randomHeuristic_body (devices, servers_, e) d_idx
    = Ok (devices', servers', e') →
  solution_kept True (devices, servers_) (devices', servers').
Proof.
  unfold randomHeuristic_body. intros H.
  destruct (vat devices d_idx) as [device | |] eqn:Hdev; simpl in H; try done.
  case_bool_decide; [injection H as <- <- <-; reflexivity |].
  destruct (randomNumber _ _ e) as [[s_idx e1] | |] eqn:Hrn;
    simpl in H; try done.
  destruct (_ =? _)%Z; [injection H as <- <- <-; reflexivity |].
  destruct (vat (servers device) s_idx) as [potential_server | |] eqn:Hpot;
    simpl in H; try done.
  destruct (vat servers_ _) as [sv | |] eqn:Hsv; simpl in H; try done.
  destruct (canServe sv device) eqn:Hcan;
    [| injection H as <- <- <-; reflexivity].
  destruct (addServed sv device) as [[b sv'] device'] eqn:Hadd.
  injection H as <- <- <-.
  destruct (commit_step True _ _ _ _ _ potential_server Hcan Hadd)
    as [Hs Hd]; [by eapply vat_elem_of |].
  split; simpl; eapply Forall2_vset; eauto; apply _.
Qed.

Lemma randomHeuristic_loop_step l devices servers_ e devices' servers' e' :
  for_each randomHeuristic_body (devices, servers_, e) l
    = Ok (devices', servers', e') →
  solution_kept True (devices, servers_) (devices', servers').
Proof.
  intros H.
  apply (for_each_rel
           (λ s s' : list Device * list Server * Engine,
              solution_kept True s.1 s'.1) randomHeuristic_body l) in H.
  - exact H.
  - intros ?; reflexivity.
  - intros ? ? ? ? ?; by etransitivity.
  - intros [[ds ss] e0] x [[ds' ss'] e0'] _ Hb.
    by apply randomHeuristic_body_step in Hb.
Qed.

Lemma greedy_commit_step servers_ device candidates servers' device' :
  candidates ⊆ servers device →
  greedy_commit servers_ device candidates = Ok (servers', device') →
  solution_kept True ([device], servers_) ([device'], servers').
Proof.
  revert servers' device'.
  induction candidates as [| c rest IH]; intros servers' device' Hsub H;
    simpl in H.
  - injection H as <- <-. reflexivity.
  - destruct (vat servers_ (sc_id c)) as [sv | |] eqn:Hsv; simpl in H;
      try done.
    destruct (canServe sv device) eqn:Hcan.
    + destruct (addServed sv device) as [[b sv'] device1] eqn:Hadd.
      injection H as <- <-.
      destruct (commit_step True _ _ _ _ _ c Hcan Hadd) as [Hs Hd].
      { apply Hsub. left. }
      split; simpl; [by constructor |].
      eapply Forall2_vset; eauto; apply _.
    + apply IH; [| done]. intros x Hx. apply Hsub. by right.
Qed.

Lemma greedyHeuristic_body_step asc devices servers_ d_idx devices' servers' :
  greedyHeuristic_body asc (devices, servers_) d_idx
    = Ok (devices', servers') →
  solution_step True (devices, servers_) (devices', servers').
Proof.
  unfold greedyHeuristic_body. intros H.
  destruct (vat devices d_idx) as [device | |] eqn:Hdev; simpl in H; try done.
  destruct (greedy_commit servers_ _ _)
    as [[servers1 device1] | |] eqn:Hcommit; simpl in H; try done.
  injection H as <- <-.
  apply greedy_commit_step in Hcommit as [Hd Hs]; [| done].
  simpl in Hd, Hs. apply Forall2_cons_1 in Hd as [Hd _].
  split; simpl; [| done].
  eapply Forall2_vset; [apply _ | done |].
  etransitivity; [| apply device_kept_step, Hd].
  split; [by repeat split |]. split; [apply sort_Permutation | by left].
Qed.

Lemma greedyHeuristic_loop_step asc l devices servers_ devices' servers' :
  for_each (greedyHeuristic_body asc) (devices, servers_) l
    = Ok (devices', servers') →
  solution_step True (devices, servers_) (devices', servers').
Proof.
  apply (for_each_rel (solution_step True)).
  - intros ?; reflexivity.
  - intros ? ? ? ? ?; by etransitivity.
  - intros [ds ss] x [ds' ss'] _. apply greedyHeuristic_body_step.
Qed.

Lemma canServe_same_device sv d d' :
  same_device d d' → canServe sv d' = canServe sv d.
Proof.
  intros (_ & Hpcn & _ & _ & _ & _ & Hpcc & Hmem & Hsto & _ & Hbw & _).
  unfold canServe. by rewrite Hpcn, Hpcc, Hmem, Hsto, Hbw.
Qed.

Lemma demand_nonneg_same_device d d' :
  same_device d d' → demand_nonneg d → demand_nonneg d'.
Proof.
  intros (_ & Hpcn & _ & _ & _ & _ & Hpcc & Hmem & Hsto & _ & Hbw & _).
  unfold demand_nonneg. by rewrite Hpcn, Hpcc, Hmem, Hsto, Hbw.
Qed.

Lemma generateNeighbor_loop_step tries l devices servers_ d_idx device
    cns csu devices' servers' cns' csu' :
  vat devices d_idx = Ok device →
  generateNeighbor_loop tries l devices servers_ d_idx device cns csu
    = Ok (devices', servers', cns', csu') →
  solution_kept (demand_nonneg device) (devices, servers_) (devices', servers').
Proof.
  intros Hdev. revert tries.
  induction l as [| idxServers rest IH]; intros tries H; simpl in H.
  { injection H as <- <- <- <-. reflexivity. }
  destruct (5 <=? tries)%Z; [injection H as <- <- <- <-; reflexivity |].
  destruct (vat (servers device) idxServers) as [potential_server | |]
    eqn:Hpot; simpl in H; try done.
  destruct (Z.eqb_spec (sc_id potential_server) (sc_id (server device)))
    as [| Hne]; [by eapply IH |].
  destruct (vat servers_ (sc_id (server device))) as [old_server | |]
    eqn:Hold; simpl in H; try done.
  destruct (vat servers_ (sc_id potential_server)) as [new_server | |]
    eqn:Hnew; simpl in H; try done.
  destruct (canServe new_server device) eqn:Hcan; [| by eapply IH].
  assert (∃ old' device1,
    server_step (demand_nonneg device) old_server old' ∧
    same_device device device1 ∧ server device1 = server device ∧
    servers device1 = servers device ∧
    ∃ b new' device2 cns1 csu1,
      addServed new_server device1 = (b, new', device2) ∧
      Ok (vset devices d_idx (set_server potential_server device2),
          vset (vset servers_ (sc_id (server device1)) old')
               (sc_id potential_server) new', cns1, csu1)
      = Ok (devices', servers', cns', csu'))
    as (old' & device1 & Hold' & Hsame & Hlink & Hcands & b & new' & device2
        & cns1 & csu1 & Hadd & Heq).
  { destruct (served device).
    - destruct (rmvServed old_server device) as [[b0 old'] device1] eqn:Hrmv.
      destruct (rmvServed_static _ _ _ _ _ Hrmv) as (Hs & Hd & Hl & Hc).
      destruct (addServed new_server device1) as [[b new'] device2] eqn:Hadd.
      exists old', device1. split.
      { split; [done |]. split.
        - by eapply rmvServed_active.
        - intros Hnn. by eapply rmvServed_capacity. }
      repeat (split; [done |]). by eexists _, _, _, _, _.
    - destruct (addServed new_server device) as [[b new'] device2] eqn:Hadd.
      exists old_server, device. split; [reflexivity |].
      split; [apply same_device_refl |].
      repeat (split; [done |]). by eexists _, _, _, _, _. }
  clear H. injection Heq as <- <- <- <-. rewrite Hlink.
  rewrite <- (canServe_same_device _ _ _ Hsame) in Hcan.
  destruct (commit_step (demand_nonneg device) _ _ _ _ _ potential_server
              Hcan Hadd) as [Hs Hd].
  { rewrite Hcands. by eapply vat_elem_of. }
  split; simpl.
  - eapply Forall2_vset; [apply _ | done |].
    transitivity device1; [| done].
    split; [done |]. split; [done | by left].
  - transitivity (vset servers_ (sc_id (server device)) old').
    + eapply Forall2_vset; [apply _ | done..].
    + eapply Forall2_vset; [apply _ | | done].
      apply vat_vset_ne; [congruence | done |].
      by apply vat_Ok in Hold as [? _].
Qed.

Lemma generateNeighbor_step devices servers_ covered_ cns csu e
    devices' servers' cns' csu' e' :
  generateNeighbor devices servers_ covered_ cns csu e
    = Ok (devices', servers', cns', csu', e') →
  solution_kept (Forall demand_nonneg devices)
                (devices, servers_) (devices', servers').
Proof.
  unfold generateNeighbor. intros H.
  destruct (randomNumber _ _ e) as [[idx e1] | |]; simpl in H; try done.
  destruct (vat covered_ idx) as [d_idx | |]; simpl in H; try done.
  destruct (vat devices d_idx) as [device | |] eqn:Hdev; simpl in H; try done.
  destruct (shuffledRange _ _ e1) as [[serversShuffled e2] | |];
    simpl in H; try done.
  destruct (generateNeighbor_loop _ _ _ _ _ _ _ _)
    as [[[[ds ss] cns1] csu1] | |] eqn:Hloop; simpl in H; try done.
  injection H as <- <- <- <- <-.
  apply generateNeighbor_loop_step in Hloop as [Hd Hs]; [| done].
  split; [done |]. simpl in *.
  eapply List.Forall2_impl; [| exact Hs].
  intros s s'. apply server_step_weaken.
  intros Hall. by eapply vat_Forall.
Qed.

(* ===================================================================== *)
(** * The annealing loops *)
(* ===================================================================== *)

(** What one pass of the inner loop does to the locals: nothing, or
    [current := neighbor], or that followed by [best := current] when the
    neighbour beats the best cost. *)
Lemma annealing_body_cases exp covered_ T a i e a' i' e' :
  annealing_body exp covered_ T a i e = Ok (a', i', e') →
  ∃ nd ns ncns ncsu e1,
    generateNeighbor (currentDevices a) (currentServers a) covered_
                     (currentCNS a) (currentCSU a) e
      = Ok (nd, ns, ncns, ncsu, e1) ∧
    (a' = a ∨
     a' = accept nd ns ncns ncsu (ncns + ncsu) a ∨
     (a' = replace_best (accept nd ns ncns ncsu (ncns + ncsu) a) ∧
      ncns + ncsu < bestCost a)).
Proof.
  unfold annealing_body. intros H.
  destruct (generateNeighbor _ _ _ _ _ e)
    as [[[[[nd ns] ncns] ncsu] e1] | |] eqn:Hn;
    cbn [mbind result_bind] in H; try done.
  exists nd, ns, ncns, ncsu, e1. split; [done |].
  destruct (Qcltb (ncns + ncsu - currentCost a) 0).
  - destruct (Qcltb _ _) eqn:Hlt in H; injection H as <- <- <-.
    + right; right. split; [done |]. by apply Qcltb_lt in Hlt.
    + right; by left.
  - destruct (randomNumber_double 0 1 e1) as [[u e2] | |];
      cbn [mbind result_bind] in H; try done.
    destruct (Qcltb u _); injection H as <- <- <-; [right | ]; by left.
Qed.

(** A property of the locals kept by every pass is kept by the inner
    loop and by the whole search. *)
Lemma annealing_for_preserves exp (P : Annealing → Prop) covered_ T :
  (∀ a i e a' i' e',
     P a → annealing_body exp covered_ T a i e = Ok (a', i', e') → P a') →
  ∀ fuel a i e a' e',
    P a → annealing_for exp fuel covered_ T a i e = Ok (a', e') → P a'.
Proof.
  intros Hbody. induction fuel as [| fuel IH]; intros a i e a' e' Ha H;
    simpl in H; destruct (i <? 10)%Z; try done;
    try (by injection H as <- <-).
  destruct (annealing_body exp covered_ T a i e) as [[[a1 i1] e1] | |]
    eqn:Hb; simpl in H; try done.
  eapply IH; [| done]. by eapply Hbody.
Qed.

Lemma annealing_while_preserves exp (P : Annealing → Prop) covered_ alpha :
  (∀ T a i e a' i' e',
     P a → annealing_body exp covered_ T a i e = Ok (a', i', e') → P a') →
  ∀ levels fuel T a e a' e',
    P a →
    annealing_while exp levels fuel covered_ alpha T a e = Ok (a', e') →
    P a'.
Proof.
  intros Hbody. induction levels as [| levels IH];
    intros fuel T a e a' e' Ha H; simpl in H;
    destruct (Qcltb TEMPERATURE_FLOOR T); try done;
    try (by injection H as <- <-).
  destruct (annealing_for exp fuel covered_ T a 0 e) as [[a1 e1] | |]
    eqn:Hf; simpl in H; try done.
  eapply IH; [| done].
  eapply annealing_for_preserves; [apply Hbody | done..].
Qed.

Lemma Forall_demand_nonneg_kept ds ds' :
  Forall2 device_kept ds ds' →
  Forall demand_nonneg ds → Forall demand_nonneg ds'.
Proof.
  induction 1 as [| d d' ds ds' [Hd _] _ IH]; [done |].
  intros [H1 H2]%Forall_cons_1. constructor; [| auto].
  by eapply demand_nonneg_same_device.
Qed.

Lemma annealing_body_inv exp x covered_ T a i e a' i' e' :
  annealing_inv x a →
  annealing_body exp covered_ T a i e = Ok (a', i', e') →
  annealing_inv x a'.
Proof.
  intros [Hcur Hbest] H.
  apply annealing_body_cases in H
    as (nd & ns & ncns & ncsu & e1 & Hn & Hcases).
  apply generateNeighbor_step in Hn.
  assert (solution_kept (Forall demand_nonneg x.1) x (nd, ns)) as Hnew.
  { etransitivity; [exact Hcur |]. destruct Hn as [Hd Hs].
    split; [done |]. simpl in *.
    eapply List.Forall2_impl; [| exact Hs].
    intros s s'. apply server_step_weaken.
    apply Forall_demand_nonneg_kept, Hcur. }
  destruct Hcases as [-> | [-> | [-> _]]]; by split.
Qed.

Lemma annealing_search_inv exp levels fuel state T alpha e a e' :
  annealing_search exp levels fuel state T alpha e = Ok (a, e') →
  annealing_inv (r_devices state, r_servers state) a.
Proof.
  unfold annealing_search.
  apply (annealing_while_preserves exp
           (annealing_inv (r_devices state, r_servers state))).
  - intros. by eapply annealing_body_inv.
  - split; reflexivity.
Qed.

Lemma simulatedAnnealing_inv exp levels fuel state T alpha e state' e' :
  simulatedAnnealing exp levels fuel state T alpha e = Ok (state', e') →
  ∃ a e1,
    annealing_search exp levels fuel state T alpha e = Ok (a, e1) ∧
    calculateMetrics (bestDevices a) (bestServers a) (metrics state)
      = Ok (metrics state') ∧
    r_devices state' = r_devices state ∧
    r_servers state' = r_servers state ∧
    coveredDevicesIdx state' = coveredDevicesIdx state.
Proof.
  unfold simulatedAnnealing. intros H.
  destruct (annealing_search _ _ _ _ _ _ _) as [[a e1] | |]; simpl in H;
    try done.
  destruct (calculateMetrics _ _ _) as [m | |] eqn:Hm; simpl in H; try done.
  injection H as <- <-. exists a, e1. by rewrite Hm.
Qed.

(* ===================================================================== *)
(** * Completed strategies *)
(* ===================================================================== *)

Lemma randomHeuristic_inv state e state' e' :
  randomHeuristic state e = Ok (state', e') →
  solution_kept True (r_devices state, r_servers state)
                (r_devices state', r_servers state') ∧
  coveredDevicesIdx state' = coveredDevicesIdx state.
Proof.
  unfold randomHeuristic. intros H.
  destruct (shuffle (coveredDevicesIdx state) e) as [l e1].
  destruct (for_each _ _ l) as [[[ds ss] e2] | |] eqn:Hloop; simpl in H;
    try done.
  destruct (calculateMetrics ds ss _) as [m | |]; simpl in H; try done.
  injection H as <- <-. split; [| done].
  by apply randomHeuristic_loop_step in Hloop.
Qed.

Lemma greedyHeuristic_inv state ascD ascS state' :
  greedyHeuristic state ascD ascS = Ok state' →
  solution_step True (r_devices state, r_servers state)
                (r_devices state', r_servers state') ∧
  coveredDevicesIdx state' = coveredDevicesIdx state.
Proof.
  unfold greedyHeuristic. intros H.
  destruct (greedy_order state ascD) as [l | |]; simpl in H; try done.
  destruct (for_each _ _ l) as [[ds ss] | |] eqn:Hloop; simpl in H;
    try done.
  destruct (calculateMetrics ds ss _) as [m | |]; simpl in H; try done.
  injection H as <-. split; [| done].
  by apply greedyHeuristic_loop_step in Hloop.
Qed.

Lemma completes_step k state state' :
  completes k state state' →
  solution_step True (r_devices state, r_servers state)
                (r_devices state', r_servers state').
Proof.
  destruct 1 as [state e state' e' H | state a b state' H
                | exp levels fuel state T alpha e state' e' H].
  - apply solution_kept_step. by apply randomHeuristic_inv in H as [H _].
  - by apply greedyHeuristic_inv in H as [H _].
  - apply simulatedAnnealing_inv in H
      as (a & e1 & _ & _ & -> & -> & _). reflexivity.
Qed.

Lemma reachable_step state0 state :
  reachable state0 state →
  solution_step True (r_devices state0, r_servers state0)
                (r_devices state, r_servers state).
Proof.
  induction 1 as [| x y z [k Hk] _ IH]; [reflexivity |].
  etransitivity; [| exact IH]. by eapply completes_step.
Qed.

(** The dispatcher runs one of the strategies above, or nothing. *)
Lemma Heuristics_bootup_completes algorithm state e state' e' :
  Heuristics_bootup algorithm state e = Ok (state', e') →
  state' = state ∨ ∃ k, completes k state state'.
Proof.
  unfold Heuristics_bootup. intros H.
  destruct (String.eqb algorithm "Random").
  - right. exists Random. econstructor. exact H.
  - destruct (String.prefix "Greedy" algorithm).
    + destruct (greedyHeuristic state _ _) as [s | |] eqn:Hg; simpl in H;
        try done.
      injection H as <- <-. right. eexists (Greedy _ _). constructor.
      exact Hg.
    + injection H as <- <-. by left.
Qed.

(** The four Greedy variants and their flags. *)
Lemma Heuristics_bootup_Greedy state e :
  Heuristics_bootup "Greedy_AscAsc" state e
    = (s ← greedyHeuristic state true true; Ok (s, e)) ∧
  Heuristics_bootup "Greedy_AscDesc" state e
    = (s ← greedyHeuristic state true false; Ok (s, e)) ∧
  Heuristics_bootup "Greedy_DescAsc" state e
    = (s ← greedyHeuristic state false true; Ok (s, e)) ∧
  Heuristics_bootup "Greedy_DescDesc" state e
    = (s ← greedyHeuristic state false false; Ok (s, e)).
Proof. by repeat split. Qed.

Lemma server_steps_capacity D ss ss' :
  D → Forall2 (server_step D) ss ss' →
  Forall capacity_ok ss → Forall capacity_ok ss'.
Proof.
  intros HD. induction 1 as [| s s' ss ss' (_ & _ & Hc) _ IH]; [done |].
  intros [H1 H2]%Forall_cons_1. constructor; auto.
Qed.

Lemma server_steps_active D ss ss' :
  Forall2 (server_step D) ss ss' →
  Forall active_ok ss → Forall active_ok ss'.
Proof.
  induction 1 as [| s s' ss ss' (_ & Ha & _) _ IH]; [done |].
  intros [H1 H2]%Forall_cons_1. constructor; auto.
Qed.

(* ===================================================================== *)
(** * Pre-calculated states *)
(* ===================================================================== *)

Lemma constructed_server_active s x :
  constructed_server s → active_ok s ∧ active_ok (set_s_bw x s).
Proof.
  intros (Hon & Hsup & _). unfold active_ok. simpl. rewrite Hon, Hsup. simpl.
  split; split; done.
Qed.

Lemma constructed_server_capacity s :
  constructed_server s → capacity_nonneg s →
  capacity_ok s ∧ capacity_ok (set_s_bw DATA_RATE_EC_TO_CC_MBPS s).
Proof.
  intros (_ & Hsup & Hbw) (H1 & H2 & H3 & H4). unfold capacity_ok. simpl.
  rewrite Hsup, Hbw. simpl. repeat split; done.
Qed.

Lemma Forall_map_from1 {A} (P : A → Prop) (f : A → A) (l : list A) :
  Forall (λ x, P x ∧ P (f x)) l → Forall P (map_from1 f l).
Proof.
  destruct 1 as [| x l [Hx _] Hl]; simpl; constructor; [done |].
  apply Forall_fmap. eapply List.Forall_impl; [| exact Hl]. by intros y [_ Hy].
Qed.

Lemma coverage_servers dist devices servers_ m devices' servers' m' cov :
  coverage dist devices servers_ m = Ok (devices', servers', m', cov) →
  servers' = servers_ ∨
  servers' = map_from1 (set_s_bw DATA_RATE_EC_TO_CC_MBPS) servers_.
Proof.
  unfold coverage, bandwidth. intros H.
  destruct (Qcltb _ 0); [injection H as <- <- <- <-; by left |].
  destruct (findCovering _ _ _ _ _) as [[ds cov1] m1].
  destruct (timeCalculation _ _ _) as [ds' | |]; simpl in H; try done.
  injection H as <- <- <- <-. by right.
Qed.

Lemma pre_calculation_servers dist loadDevices loadServers sim alg
    numDevices numServersEC numServersCC tech state0 :
  pre_calculation dist loadDevices loadServers sim alg numDevices
                  numServersEC numServersCC tech = Ok (Some state0) →
  r_servers state0 = loadServers numServersEC numServersCC ∨
  r_servers state0 = map_from1 (set_s_bw DATA_RATE_EC_TO_CC_MBPS)
                               (loadServers numServersEC numServersCC).
Proof.
  unfold pre_calculation. intros H.
  destruct (_ || _); [done |]. destruct (_ || _); [done |].
  destruct (coverage _ _ _ _) as [[[[ds ss] m] cov] | |] eqn:Hc; simpl in H;
    try done.
  injection H as <-. simpl. by eapply coverage_servers.
Qed.

Lemma pre_calculation_active dist loadDevices loadServers sim alg
    numDevices numServersEC numServersCC tech state0 :
  (∀ ec cc, Forall constructed_server (loadServers ec cc)) →
  pre_calculation dist loadDevices loadServers sim alg numDevices
                  numServersEC numServersCC tech = Ok (Some state0) →
  Forall active_ok (r_servers state0).
Proof.
  intros Hload [-> | ->]%pre_calculation_servers.
  - eapply List.Forall_impl; [| apply Hload].
    intros s Hs. by apply (constructed_server_active s 0).
  - apply Forall_map_from1. eapply List.Forall_impl; [| apply Hload].
    intros s Hs. by apply constructed_server_active.
Qed.

Lemma pre_calculation_capacity dist loadDevices loadServers sim alg
    numDevices numServersEC numServersCC tech state0 :
  (∀ ec cc, Forall (λ s, constructed_server s ∧ capacity_nonneg s)
                   (loadServers ec cc)) →
  pre_calculation dist loadDevices loadServers sim alg numDevices
                  numServersEC numServersCC tech = Ok (Some state0) →
  Forall capacity_ok (r_servers state0).
Proof.
  intros Hload [-> | ->]%pre_calculation_servers.
  - eapply List.Forall_impl; [| apply Hload].
    intros s [Hs Hn]. by apply constructed_server_capacity.
  - apply Forall_map_from1. eapply List.Forall_impl; [| apply Hload].
    intros s [Hs Hn]. by apply constructed_server_capacity.
Qed.

(** The solutions handled by the annealing search keep both server
    invariants (the capacity one provided no device has a negative
    demand, since a move also releases the device from its old server). *)
Lemma annealing_search_servers exp levels fuel state T alpha e a e' :
  annealing_search exp levels fuel state T alpha e = Ok (a, e') →
  (Forall active_ok (r_servers state) →
   Forall active_ok (bestServers a) ∧ Forall active_ok (currentServers a)) ∧
  (Forall demand_nonneg (r_devices state) →
   Forall capacity_ok (r_servers state) →
   Forall capacity_ok (bestServers a) ∧ Forall capacity_ok (currentServers a)).
Proof.
  intros [[_ Hcur] [_ Hbest]]%annealing_search_inv. simpl in *. split.
  - intros Ha. split; eapply server_steps_active; eauto.
  - intros Hd Hc.
    split; (eapply server_steps_capacity; [exact Hd | eassumption | exact Hc]).
Qed.

(* ===================================================================== *)
(** * Claims about the capacity model and the annealing search *)
(* ===================================================================== *)

(** C1.  Capacity invariant: in every run state reached from a
    pre-calculated state by completing strategies (Random, any Greedy
    variant, simulated annealing), every server's accumulated demand is
    at most its capacity in each of the five dimensions.  The
    pre-calculated state is the output of [pre_calculation] on loaded
    servers as the constructor leaves them, with capacities that are not
    negative.  The second part states the same for the best solution of
    an annealing search started there, when no device has a negative
    demand. *)
Theorem capacity_invariant dist loadDevices loadServers sim alg
    numDevices numServersEC numServersCC tech state0 state :
  (∀ ec cc, Forall (λ s, constructed_server s ∧ capacity_nonneg s)
                   (loadServers ec cc)) →
  pre_calculation dist loadDevices loadServers sim alg numDevices
                  numServersEC numServersCC tech = Ok (Some state0) →
  reachable state0 state →
  Forall capacity_ok (r_servers state) ∧
  (Forall demand_nonneg (r_devices state) →
   ∀ exp levels fuel T alpha e a e',
     annealing_search exp levels fuel state T alpha e = Ok (a, e') →
     Forall capacity_ok (bestServers a)).
Proof.
  intros Hload Hpre Hreach.
  assert (Forall capacity_ok (r_servers state)) as Hcap.
  { apply reachable_step in Hreach as [_ Hs]. simpl in Hs.
    eapply server_steps_capacity; [exact I | exact Hs |].
    by eapply pre_calculation_capacity. }
  split; [done |].
  intros Hd exp levels fuel T alpha e a e' Hsearch.
  apply annealing_search_servers in Hsearch as [_ Hsearch].
  by apply Hsearch.
Qed.

Lemma do_call_active s c : active_ok s → active_ok (do_call s c).
Proof.
  destruct c as [device | device]; simpl.
  - destruct (addServed s device) as [[b s'] d'] eqn:H.
    by eapply addServed_active.
  - destruct (rmvServed s device) as [[b s'] d'] eqn:H.
    by eapply rmvServed_active.
Qed.

(** C5.  Activation invariant: after every call of [addServed] or
    [rmvServed] on a server that started as the constructor leaves it,
    [on] is true iff the served set is not empty; hence the same holds
    for every server of every run state reached from a pre-calculated
    state by completing strategies, and for the best solution of an
    annealing search started there. *)
Theorem activation_invariant :
  (∀ s calls, constructed_server s → active_ok (foldl do_call s calls)) ∧
  (∀ dist loadDevices loadServers sim alg numDevices numServersEC
     numServersCC tech state0 state,
     (∀ ec cc, Forall constructed_server (loadServers ec cc)) →
     pre_calculation dist loadDevices loadServers sim alg numDevices
                     numServersEC numServersCC tech = Ok (Some state0) →
     reachable state0 state →
     Forall active_ok (r_servers state) ∧
     ∀ exp levels fuel T alpha e a e',
       annealing_search exp levels fuel state T alpha e = Ok (a, e') →
       Forall active_ok (bestServers a)).
Proof.
  split.
  - intros s calls Hs.
    assert (active_ok s) as Ha by by apply (constructed_server_active s 0).
    clear Hs. revert s Ha.
    induction calls as [| c calls IH]; intros s Ha; simpl; [done |].
    apply IH. by apply do_call_active.
  - intros dist loadDevices loadServers sim alg numDevices numServersEC
      numServersCC tech state0 state Hload Hpre Hreach.
    assert (Forall active_ok (r_servers state)) as Hact.
    { apply reachable_step in Hreach as [_ Hs]. simpl in Hs.
      eapply server_steps_active; [exact Hs |].
      by eapply pre_calculation_active. }
    split; [done |].
    intros exp levels fuel T alpha e a e' Hsearch.
    apply annealing_search_servers in Hsearch as [Hsearch _].
    by apply Hsearch.
Qed.

(** C6.  The best-known cost never increases: across one pass of the
    inner loop, across a whole inner loop, and across the whole search
    (the temperature update between inner loops leaves it alone). *)
Theorem bestCost_non_increasing exp covered_ :
  (∀ T a i e a' i' e',
     annealing_body exp covered_ T a i e = Ok (a', i', e') →
     bestCost a' ≤ bestCost a) ∧
  (∀ fuel T a i e a' e',
     annealing_for exp fuel covered_ T a i e = Ok (a', e') →
     bestCost a' ≤ bestCost a) ∧
  (∀ levels fuel alpha T a e a' e',
     annealing_while exp levels fuel covered_ alpha T a e = Ok (a', e') →
     bestCost a' ≤ bestCost a).
Proof.
  assert (∀ c T a i e a' i' e',
            bestCost a ≤ c →
            annealing_body exp covered_ T a i e = Ok (a', i', e') →
            bestCost a' ≤ c) as Hbody.
  { intros c T a i e a' i' e' Hc H.
    apply annealing_body_cases in H
      as (nd & ns & ncns & ncsu & e1 & _ & [-> | [-> | [-> Hlt]]]);
      simpl; try done.
    apply Qclt_le_weak in Hlt. by etransitivity. }
  split; [| split].
  - intros T a i e a' i' e'. by apply Hbody.
  - intros fuel T a i e a' e' H.
    eapply (annealing_for_preserves exp (λ x, bestCost x ≤ bestCost a));
      [| | exact H]; [intros; by eapply Hbody | done].
  - intros levels fuel alpha T a e a' e' H.
    eapply (annealing_while_preserves exp (λ x, bestCost x ≤ bestCost a));
      [| | exact H]; [intros; by eapply Hbody | done].
Qed.

(* ===================================================================== *)
(** * The tie-breaking index sort *)
(* ===================================================================== *)

Lemma index_comp_before {T} asc (attr : T → Qc) entities i j b :
  index_comp asc attr entities i j = Ok b →
  b = index_before asc attr entities i j.
Proof.
  unfold index_comp, index_before, attr_at.
  destruct (vat entities i) as [ei | |]; simpl; try done.
  destruct (vat entities j) as [ej | |]; simpl; try done.
  destruct (negb _), asc; by intros [= <-].
Qed.

Lemma index_before_cases {T} asc (attr : T → Qc) entities i j :
  index_before asc attr entities i j = true ↔
  (if asc then attr_at attr entities i < attr_at attr entities j
   else attr_at attr entities j < attr_at attr entities i) ∨
  (attr_at attr entities i = attr_at attr entities j ∧ (i < j)%Z).
Proof.
  unfold index_before, Qceqb. case_bool_decide as Heq; simpl.
  - rewrite Heq. rewrite Z.ltb_lt. split; [by right |].
    intros [H | [_ H]]; [| done].
    destruct asc; by apply Qclt_not_eq in H.
  - destruct asc; rewrite Qcltb_lt; split; try (by left);
      (intros [H | [H _]]; [done | by destruct Heq]).
Qed.

Lemma index_le_cases {T} asc (attr : T → Qc) entities i j :
  index_le asc attr entities i j ↔
  (if asc then attr_at attr entities i < attr_at attr entities j
   else attr_at attr entities j < attr_at attr entities i) ∨
  (attr_at attr entities i = attr_at attr entities j ∧ (i ≤ j)%Z).
Proof.
  unfold index_le. rewrite <- not_true_iff_false, index_before_cases.
  set (x := attr_at attr entities i). set (y := attr_at attr entities j).
  destruct (Qc_dec x y) as [[Hlt | Hgt] | Heq].
  - pose proof (Qclt_not_eq _ _ Hlt). pose proof (Qclt_le_weak _ _ Hlt).
    destruct asc; split.
    + by left.
    + intros _ [H1 | [H1 _]]; [by apply Qclt_not_le in H1 | done].
    + intros Hn. destruct Hn. by left.
    + intros [H1 | [H1 _]]; [by apply Qclt_not_le in H1 | done].
  - pose proof (Qclt_not_eq _ _ Hgt). pose proof (Qclt_le_weak _ _ Hgt).
    destruct asc; split.
    + intros Hn. destruct Hn. by left.
    + intros [H1 | [H1 _]]; [by apply Qclt_not_le in H1 | done].
    + by left.
    + intros _ [H1 | [H1 _]]; [by apply Qclt_not_le in H1 | done].
  - rewrite Heq.
    assert (¬ y < y) as Hirr by (intros H; by apply Qclt_not_eq in H).
    destruct asc; split.
    + intros Hn. right. split; [done |].
      destruct (Z.le_gt_cases i j); [done |]. destruct Hn. right.
      split; [done | lia].
    + intros [H1 | [_ H1]] [H2 | [_ H2]]; try done. lia.
    + intros Hn. right. split; [done |].
      destruct (Z.le_gt_cases i j); [done |]. destruct Hn. right.
      split; [done | lia].
    + intros [H1 | [_ H1]] [H2 | [_ H2]]; try done. lia.
Qed.

Lemma index_before_le {T} asc (attr : T → Qc) entities i j :
  index_before asc attr entities i j = true → index_le asc attr entities i j.
Proof.
  rewrite index_before_cases, index_le_cases.
  intros [H | [H1 H2]]; [by left | right]. split; [done | lia].
Qed.

Lemma index_le_trans {T} asc (attr : T → Qc) entities i j k :
  index_le asc attr entities i j → index_le asc attr entities j k →
  index_le asc attr entities i k.
Proof.
  rewrite !index_le_cases.
  intros [H1 | [H1 H1']] [H2 | [H2 H2']].
  - left. destruct asc; by etransitivity.
  - left. by rewrite <- H2.
  - left. by rewrite H1.
  - right. split; [congruence | lia].
Qed.


(** *** Insertion sort yields a sorted sequence *)

Section sorted.
Context {A : Type} (comp : A → A → bool).
Let le (x y : A) : Prop := comp y x = false.
Hypothesis comp_le : ∀ x y, comp x y = true → le x y.
Hypothesis le_trans : ∀ x y z, le x y → le y z → le x z.

Lemma insert_sorted_StronglySorted x l :
  StronglySorted le l → StronglySorted le (insert_sorted comp x l).
Proof.
  induction 1 as [| y l Hl IH Hy]; simpl.
  - by repeat constructor.
  - destruct (comp y x) eqn:Hc.
    + constructor; [done |].
      rewrite insert_sorted_Permutation. constructor; [| done].
      by apply comp_le.
    + constructor; [by constructor |]. constructor; [done |].
      eapply List.Forall_impl; [| exact Hy]. intros z. by apply le_trans.
Qed.

Lemma sort_StronglySorted l : StronglySorted le (sort comp l).
Proof.
  induction l as [| x l IH]; simpl; [constructor |].
  by apply insert_sorted_StronglySorted.
Qed.
End sorted.

Lemma StronglySorted_lookup {A} (R : A → A → Prop) l p q x y :
  StronglySorted R l → (p < q)%nat →
  l !! p = Some x → l !! q = Some y → R x y.
Proof.
  intros Hs. revert p q x y.
  induction Hs as [| z l Hl IH Hz]; intros p q x y Hpq; [done |].
  destruct p as [| p]; destruct q as [| q]; simpl; try lia.
  - intros [= <-] Hy. by eapply Forall_lookup_1.
  - apply IH. lia.
Qed.

(** A sort whose comparator may throw, when it returns, returns what the
    pure sort returns. *)
Lemma insert_sortedM_Ok {A} (compM : A → A → result bool)
    (comp : A → A → bool) x l r :
  (∀ x y b, compM x y = Ok b → b = comp x y) →
  insert_sortedM compM x l = Ok r → r = insert_sorted comp x l.
Proof.
  intros Hc. revert r. induction l as [| y l IH]; intros r; simpl.
  - by intros [= <-].
  - destruct (compM y x) as [b | |] eqn:Hb; simpl; try done.
    apply Hc in Hb as ->. destruct (comp y x).
    + destruct (insert_sortedM compM x l) as [l' | |]; simpl; try done.
      intros [= <-]. by rewrite (IH l').
    + by intros [= <-].
Qed.

Lemma sortM_Ok {A} (compM : A → A → result bool) (comp : A → A → bool) l r :
  (∀ x y b, compM x y = Ok b → b = comp x y) →
  sortM compM l = Ok r → r = sort comp l.
Proof.
  intros Hc. revert r. induction l as [| x l IH]; intros r; simpl.
  - by intros [= <-].
  - destruct (sortM compM l) as [s | |]; simpl; try done.
    rewrite <- (IH s) by done. by apply insert_sortedM_Ok.
Qed.

Lemma sortEntities_Ok {T} asc (attr : T → Qc) entities idxs order :
  sortEntities asc attr entities idxs = Ok order →
  order = [] ∧ (entities = [] ∨ idxs = []) ∨
  order = sort (index_before asc attr entities) idxs ∧ entities ≠ [].
Proof.
  unfold sortEntities, sort_indices_impl.
  destruct entities as [| x entities]; [intros [= <-]; left; auto |].
  destruct idxs as [| i idxs]; [intros [= <-]; left; auto |].
  intros H. right. split; [| done].
  eapply sortM_Ok; [| exact H]. intros. by eapply index_comp_before.
Qed.


(* ===================================================================== *)
(** * The coverage step *)
(* ===================================================================== *)

Section Coverage.
Variable calculateDistance : Qc → Qc → Qc → Qc → Qc.
Variable servers_ : list Server.
Variable coverageRadius : Qc.

#[local] Abbreviation dist := (distance_device_server calculateDistance).
#[local] Abbreviation cover :=
  (cover_device calculateDistance servers_ coverageRadius).
#[local] Abbreviation within := (in_radius calculateDistance coverageRadius).

Lemma elem_of_from1 {A} (v : list A) j (x : A) :
  (j, x) ∈ from1 v ↔ (1 ≤ j)%Z ∧ vat v j = Ok x.
Proof.
  unfold from1. rewrite vat_Ok. split.
  - intros (k & Hk)%list_elem_of_lookup_1.
    rewrite lookup_drop in Hk. apply lookup_zip_Some in Hk as [Hj Hx].
    apply lookup_seqZ in Hj as [-> _].
    replace (Z.to_nat (0 + Z.of_nat (1 + k))) with (1 + k)%nat by lia.
    split; [lia | split; [lia | done]].
  - intros (Hj & _ & Hx). apply list_elem_of_lookup.
    exists (Z.to_nat j - 1)%nat. rewrite lookup_drop.
    replace (1 + (Z.to_nat j - 1))%nat with (Z.to_nat j) by lia.
    apply lookup_zip_Some. split; [| done].
    apply lookup_seqZ. apply lookup_lt_Some in Hx. lia.
Qed.

Lemma exists_elem_of_cons {B} (Q : B → Prop) (x : B) (l : list B) :
  (∃ y, y ∈ x :: l ∧ Q y) ↔ Q x ∨ ∃ y, y ∈ l ∧ Q y.
Proof.
  split.
  - intros (y & [-> | Hy]%elem_of_cons & HQ); [by left | right; eauto].
  - intros [HQ | (y & Hy & HQ)]; [exists x | exists y];
      (split; [| done]); [left | by right].
Qed.

Lemma edges_fold device l :
  let device' := foldl (findCovering_edge calculateDistance coverageRadius)
                       device l in
  same_device (set_covered false device) (set_covered false device') ∧
  served device' = served device ∧ server device' = server device ∧
  (covered device' = true ↔
   covered device = true ∨ ∃ js, js ∈ l ∧ within device js) ∧
  (∀ c, c ∈ servers device' ↔
        c ∈ servers device ∨
        ∃ js, js ∈ l ∧ (within device js ∧
                        c = server_covering2 js.1 (dist device js.2))).
Proof.
  revert device. induction l as [| [j sv] l IH]; intros device; cbn [foldl].
  - split; [apply same_device_refl |]. repeat split; try done; try tauto.
    + intros [? | (? & []%elem_of_nil & _)]; done.
    + intros [? | (? & []%elem_of_nil & _)]; done.
  - set (d1 := findCovering_edge calculateDistance coverageRadius device
                                 (j, sv)).
    assert (same_device (set_covered false device) (set_covered false d1) ∧
            served d1 = served device ∧ server d1 = server device ∧
            (∀ sv', dist d1 sv' = dist device sv') ∧
            ((covered d1 = covered device ∧ servers d1 = servers device ∧
              ¬ within device (j, sv)) ∨
             (covered d1 = true ∧
              servers d1
              = servers device ++ [server_covering2 j (dist device sv)] ∧
              within device (j, sv))))
      as (Hs1 & Hsv1 & Hl1 & Hdist & Hcase).
    { subst d1. unfold findCovering_edge, in_radius.
      destruct (Ascii.eqb_spec (s_type sv) "E") as [HE | HE]; simpl.
      - unfold Qcleb. case_bool_decide as Hle; simpl.
        + repeat split; try done. right. by repeat split.
        + repeat split; try done. left. repeat split; try done. tauto.
      - repeat split; try done. left. repeat split; try done. tauto. }
    destruct (IH d1) as (Hs & Hsv & Hl & Hcov & Hcands).
    assert (∀ js, within d1 js ↔ within device js) as Hrad.
    { intros js. unfold in_radius. by rewrite Hdist. }
    split; [by eapply same_device_trans |].
    split; [congruence |]. split; [congruence |]. split.
    + rewrite Hcov, exists_elem_of_cons. setoid_rewrite Hrad.
      destruct Hcase as [(-> & _ & Hno) | (-> & _ & Hyes)]; tauto.
    + intros c. rewrite Hcands, exists_elem_of_cons.
      setoid_rewrite Hrad. setoid_rewrite Hdist. cbn [fst snd].
      destruct Hcase as [(_ & -> & Hno) | (_ & -> & Hyes)]; [tauto |].
      rewrite elem_of_app, list_elem_of_singleton. tauto.
Qed.

Lemma clouds_fold device l :
  let device' := foldl findCovering_cloud device l in
  same_device device device' ∧
  served device' = served device ∧ server device' = server device ∧
  (∀ c, c ∈ servers device' ↔
        c ∈ servers device ∨
        ∃ js, js ∈ l ∧ (s_type js.2 = "C"%char ∧ c = server_covering1 js.1)).
Proof.
  revert device. induction l as [| [j sv] l IH]; intros device; cbn [foldl].
  - split; [apply same_device_refl |]. repeat split; try done; try tauto.
    intros [? | (? & []%elem_of_nil & _)]; done.
  - set (d1 := findCovering_cloud device (j, sv)).
    assert (same_device device d1 ∧
            served d1 = served device ∧ server d1 = server device ∧
            ((servers d1 = servers device ∧ s_type sv ≠ "C"%char) ∨
             (servers d1 = servers device ++ [server_covering1 j] ∧
              s_type sv = "C"%char)))
      as (Hs1 & Hsv1 & Hl1 & Hcase).
    { subst d1. unfold findCovering_cloud.
      destruct (Ascii.eqb_spec (s_type sv) "C") as [HC | HC]; simpl.
      - repeat split; try done. by right.
      - repeat split; try done. by left. }
    destruct (IH d1) as (Hs & Hsv & Hl & Hcands).
    split; [by eapply same_device_trans |].
    split; [congruence |]. split; [congruence |].
    intros c. rewrite Hcands, exists_elem_of_cons. cbn [fst snd].
    destruct Hcase as [(-> & Hno) | (-> & HC)]; [tauto |].
    rewrite elem_of_app, list_elem_of_singleton. tauto.
Qed.

Lemma cover_device_spec device :
  covered device = false → servers device = [] →
  let device' := cover device in
  cnd device' = cnd device ∧ d_id device' = d_id device ∧
  (covered device' = true ↔
   ∃ j sv, (1 ≤ j)%Z ∧ vat servers_ j = Ok sv ∧ s_type sv = "E"%char ∧
           dist device sv ≤ coverageRadius) ∧
  (∀ j sv, (1 ≤ j)%Z → vat servers_ j = Ok sv → s_type sv = "E"%char →
           dist device sv ≤ coverageRadius →
           server_covering2 j (dist device sv) ∈ servers device') ∧
  (covered device' = true →
   ∀ j sv, (1 ≤ j)%Z → vat servers_ j = Ok sv → s_type sv = "C"%char →
           server_covering1 j ∈ servers device').
Proof.
  intros Hcov Hcands. unfold cover_device.
  destruct (edges_fold device (from1 servers_))
    as (Hs & _ & _ & Hc & Hl).
  set (d1 := foldl _ device (from1 servers_)) in *.
  destruct (clouds_fold d1 (from1 servers_)) as (Hs2 & _ & _ & Hl2).
  set (d2 := foldl findCovering_cloud d1 (from1 servers_)) in *.
  destruct Hs as (Hid & _ & _ & _ & _ & Hcnd & _). simpl in Hid, Hcnd.
  destruct Hs2 as (Hid2 & _ & _ & _ & _ & Hcnd2 & _ & _ & _ & _ & _ & Hcov2).
  assert (covered d1 = true ↔
          ∃ j sv, (1 ≤ j)%Z ∧ vat servers_ j = Ok sv ∧ s_type sv = "E"%char ∧
                  dist device sv ≤ coverageRadius) as Hcovered.
  { rewrite Hc, Hcov. split.
    - intros [? | ([j sv] & [? ?]%elem_of_from1 & ? & ?)]; [done |].
      by exists j, sv.
    - intros (j & sv & ? & ? & ? & ?). right. exists (j, sv).
      split; [by apply elem_of_from1 | by split]. }
  assert (∀ j sv, (1 ≤ j)%Z → vat servers_ j = Ok sv → s_type sv = "E"%char →
                  dist device sv ≤ coverageRadius →
                  server_covering2 j (dist device sv) ∈ servers d1) as Hedge.
  { intros j sv ? ? ? ?. apply Hl. right. exists (j, sv).
    split; [by apply elem_of_from1 | by split]. }
  destruct (covered d1) eqn:Hd1; simpl.
  - split; [congruence |]. split; [congruence |]. rewrite Hcov2.
    split; [done |]. split.
    + intros j sv ? ? ? ?. apply Hl2. left. by apply Hedge.
    + intros _ j sv ? ? ?. apply Hl2. right. exists (j, sv).
      split; [by apply elem_of_from1 | by split].
  - split; [done |]. split; [done |]. rewrite Hd1.
    split; [done |]. split; [done | done].
Qed.

Lemma findCovering_fold ds :
  ∀ done ids m, ∃ ids' m',
    foldl (findCovering_device calculateDistance servers_ coverageRadius)
          (done, ids, m) ds
    = (done ++ map cover ds, ids', m') ∧
    cost_of_non_coverage (outputs m')
    = cost_of_non_coverage (outputs m) + uncovered_cost (map cover ds).
Proof.
  induction ds as [| d ds IH]; intros done ids m; cbn [foldl map].
  - exists ids, m. rewrite app_nil_r. split; [done |]. simpl. ring.
  - assert (∃ ids1 m1,
      findCovering_device calculateDistance servers_ coverageRadius
                          (done, ids, m) d
      = (done ++ [cover d], ids1, m1) ∧
      cost_of_non_coverage (outputs m1)
      = cost_of_non_coverage (outputs m)
        + (if covered (cover d) then 0 else cnd (cover d)))
      as (ids1 & m1 & -> & Hm1).
    { unfold findCovering_device, cover_device.
      set (d1 := foldl _ d (from1 servers_)).
      destruct (clouds_fold d1 (from1 servers_)) as (Hs2 & _).
      destruct Hs2 as (_ & _ & _ & _ & _ & _ & _ & _ & _ & _ & _ & Hcov2).
      destruct (covered d1) eqn:Hd1.
      - eexists _, _. split; [done |]. rewrite Hcov2. ring.
      - eexists _, _. split; [done |]. rewrite ?Hd1. simpl. done. }
    destruct (IH (done ++ [cover d]) ids1 m1) as (ids' & m' & -> & Hm').
    exists ids', m'. rewrite <- app_assoc. split; [done |].
    rewrite Hm', Hm1. simpl. ring.
Qed.

(** C8.  The coverage step on devices as loaded (not yet covered, no
    candidates).  For every device (index 1 and up; index 0 is the
    placeholder): it is marked covered iff some edge server is within the
    radius; every such edge server is a candidate, with its distance;
    when covered, every cloud server is a candidate as well; and the
    non-coverage cost grows by the non-service costs of exactly the
    devices left uncovered. *)
Theorem findCovering_coverage devices metrics_ devices' ids metrics' :
  Forall (λ d, covered d = false ∧ servers d = []) devices →
  findCovering calculateDistance devices servers_ coverageRadius metrics_
    = (devices', ids, metrics') →
  length devices' = length devices ∧
  (∀ i device,
     (1 ≤ i)%Z → vat devices i = Ok device →
     ∃ device',
       vat devices' i = Ok device' ∧ cnd device' = cnd device ∧
       (covered device' = true ↔
        ∃ j sv, (1 ≤ j)%Z ∧ vat servers_ j = Ok sv ∧ s_type sv = "E"%char ∧
                dist device sv ≤ coverageRadius) ∧
       (∀ j sv, (1 ≤ j)%Z → vat servers_ j = Ok sv → s_type sv = "E"%char →
                dist device sv ≤ coverageRadius →
                server_covering2 j (dist device sv) ∈ servers device') ∧
       (covered device' = true →
        ∀ j sv, (1 ≤ j)%Z → vat servers_ j = Ok sv → s_type sv = "C"%char →
                server_covering1 j ∈ servers device')) ∧
  cost_of_non_coverage (outputs metrics')
  = cost_of_non_coverage (outputs metrics_) + uncovered_cost (drop 1 devices').
Proof.
  intros Hfresh. unfold findCovering.
  destruct (findCovering_fold (drop 1 devices) (take 1 devices) [] metrics_)
    as (ids' & m' & -> & Hcost).
  intros [= <- <- <-].
  assert (drop 1 (take 1 devices ++ map cover (drop 1 devices))
          = map cover (drop 1 devices)) as Hdrop.
  { destruct devices; [done |]. simpl. by rewrite drop_0. }
  split; [| split].
  - rewrite length_app, length_map, <- length_app, take_drop. done.
  - intros i device Hi [_ Hdev]%vat_Ok.
    assert (drop 1 devices !! (Z.to_nat i - 1)%nat = Some device) as Hd.
    { rewrite lookup_drop. rewrite <- Hdev. f_equal. lia. }
    exists (cover device).
    split.
    + apply vat_Ok. split; [lia |].
      replace (Z.to_nat i) with (length (take 1 devices) + (Z.to_nat i - 1))%nat.
      * rewrite lookup_app_r by lia.
        replace (_ + _ - _)%nat with (Z.to_nat i - 1)%nat by lia.
        by rewrite list_lookup_fmap, Hd.
      * apply lookup_lt_Some in Hdev. rewrite length_take. lia.
    + eapply Forall_lookup_1 in Hfresh as [Hc Hl]; [| exact Hdev].
      destruct (cover_device_spec device Hc Hl) as (H1 & _ & H2 & H3 & H4).
      auto.
  - simpl. rewrite Hdrop. exact Hcost.
Qed.

(** Every candidate recorded by [findCovering] names a server of the
    vector. *)
Lemma cover_device_candidates device c :
  servers device = [] → c ∈ servers (cover device) →
  in_range (sc_id c) servers_.
Proof.
  intros Hnil. unfold cover_device.
  destruct (edges_fold device (from1 servers_)) as (_ & _ & _ & _ & Hl).
  set (d1 := foldl _ device (from1 servers_)) in *.
  destruct (clouds_fold d1 (from1 servers_)) as (_ & _ & _ & Hl2).
  assert (c ∈ servers d1 → in_range (sc_id c) servers_) as Hedge.
  { intros [Hc | ([j sv] & [_ Hj]%elem_of_from1 & _ & ->)]%Hl.
    - rewrite Hnil in Hc. by apply elem_of_nil in Hc.
    - apply vat_in_range. by exists sv. }
  destruct (covered d1); [| done].
  intros [Hc | ([j sv] & [_ Hj]%elem_of_from1 & _ & ->)]%Hl2; [auto |].
  apply vat_in_range. by exists sv.
Qed.

Lemma findCovering_candidates devices metrics_ devices' ids metrics' :
  Forall (λ d, covered d = false ∧ servers d = []) devices →
  findCovering calculateDistance devices servers_ coverageRadius metrics_
    = (devices', ids, metrics') →
  Forall (λ d, Forall (λ c, in_range (sc_id c) servers_) (servers d))
         devices'.
Proof.
  intros Hfresh. unfold findCovering.
  destruct (findCovering_fold (drop 1 devices) (take 1 devices) [] metrics_)
    as (ids' & m' & -> & _).
  intros [= <- <- <-]. apply Forall_app. split.
  - apply Forall_take. eapply List.Forall_impl; [| exact Hfresh].
    intros d [_ ->]. constructor.
  - apply Forall_fmap, Forall_drop.
    eapply List.Forall_impl; [| exact Hfresh].
    intros d [_ Hnil]. simpl. apply Forall_forall. intros c.
    by apply cover_device_candidates.
Qed.

End Coverage.

(* ===================================================================== *)
(** * The instance evaluated *)
(* ===================================================================== *)

Lemma ex_state_eq :
  pre_calculation ex_calculateDistance ex_loadDevices ex_loadServers
                  "Heuristic" "Random" 2 1 1 4 = Ok (Some ex_state).
Proof.
  unfold ex_state.
  destruct (pre_calculation _ _ _ _ _ _ _ _ _) as [[s |] | |] eqn:E;
    [done | | |]; vm_compute in E; discriminate E.
Qed.

Lemma ex_random_eq :
  ∃ e', randomHeuristic ex_state ex_engine = Ok (ex_random, e').
Proof.
  unfold ex_random.
  destruct (randomHeuristic ex_state ex_engine) as [[s e'] | |] eqn:E;
    [by exists e' | |]; vm_compute in E; discriminate E.
Qed.

Lemma ex_greedy_eq : greedyHeuristic ex_state true false = Ok ex_greedy.
Proof.
  unfold ex_greedy.
  destruct (greedyHeuristic ex_state true false) as [s | |] eqn:E;
    [done | |]; vm_compute in E; discriminate E.
Qed.

Lemma ex_search_eq :
  ∃ e', annealing_search ex_exp 20 100 ex_random 1 (dec 1 2) ex_engine
        = Ok (ex_search, e').
Proof.
  unfold ex_search.
  destruct (annealing_search _ _ _ _ _ _ _) as [[a e'] | |] eqn:E;
    [by exists e' | |]; vm_compute in E; discriminate E.
Qed.

Lemma ex_annealed_eq :
  ∃ e', simulatedAnnealing ex_exp 20 100 ex_random 1 (dec 1 2) ex_engine
        = Ok (ex_annealed, e').
Proof.
  unfold ex_annealed.
  destruct (simulatedAnnealing _ _ _ _ _ _ _) as [[s e'] | |] eqn:E;
    [by exists e' | |]; vm_compute in E; discriminate E.
Qed.

Example ex_assignments :
  coveredDevicesIdx ex_state = [1; 2]%Z ∧
  assignment (r_devices ex_state) = [(false, 0); (false, 0); (false, 0)]%Z ∧
  assignment (r_devices ex_random) = [(false, 0); (false, 0); (true, 1)]%Z ∧
  assignment (r_devices ex_greedy) = [(false, 0); (true, 2); (true, 2)]%Z ∧
  assignment (bestDevices ex_search) = [(false, 0); (true, 2); (true, 2)]%Z ∧
  assignment (r_devices ex_annealed) = [(false, 0); (false, 0); (true, 1)]%Z.
Proof. vm_compute. repeat split; reflexivity. Qed.

(* ===================================================================== *)
(** * Claims about pre-calculation and the returned state *)
(* ===================================================================== *)

Lemma techParams_unknown tech :
  ¬ (1 ≤ tech ≤ 6)%Z → techParams tech = (dec (-1) 1, dec (-1) 1).
Proof.
  intros H. unfold techParams.
  destruct tech as [| p | p]; try done.
  destruct p as [[[p | p |] | [p | p |] |] | [[p | p |] | [p | p |] |] |];
    try done; lia.
Qed.

(** Non-positive counts give [std::nullopt]. *)
Lemma pre_calculation_counts dist loadDevices loadServers sim alg
    numDevices numServersEC numServersCC tech :
  (numDevices ≤ 0 ∨ numServersEC ≤ 0 ∨ numServersCC ≤ 0)%Z →
  pre_calculation dist loadDevices loadServers sim alg numDevices
                  numServersEC numServersCC tech = Ok None.
Proof.
  intros H. unfold pre_calculation.
  destruct (Z.leb_spec numDevices 0), (Z.leb_spec numServersEC 0),
    (Z.leb_spec numServersCC 0); simpl; try done; lia.
Qed.

(** With positive counts and loadable data, an unknown technology id
    still produces a state: the loaded vectors as they are, no covered
    device. *)
Lemma pre_calculation_unknown_tech dist loadDevices loadServers sim alg
    numDevices numServersEC numServersCC tech :
  (0 < numDevices)%Z → (0 < numServersEC)%Z → (0 < numServersCC)%Z →
  loadDevices numDevices ≠ [] → loadServers numServersEC numServersCC ≠ [] →
  ¬ (1 ≤ tech ≤ 6)%Z →
  pre_calculation dist loadDevices loadServers sim alg numDevices
                  numServersEC numServersCC tech
  = Ok (Some {| r_devices := loadDevices numDevices;
                r_servers := loadServers numServersEC numServersCC;
                coveredDevicesIdx := [];
                metrics := mkMetrics sim alg numDevices numServersEC
                                     numServersCC tech |}).
Proof.
  intros Hd Hec Hcc Hld Hls Htech. unfold pre_calculation.
  destruct (Z.leb_spec numDevices 0); [lia |].
  destruct (Z.leb_spec numServersEC 0); [lia |].
  destruct (Z.leb_spec numServersCC 0); [lia |]. simpl.
  rewrite !bool_decide_eq_false_2 by done. simpl.
  unfold coverage. simpl. by rewrite techParams_unknown.
Qed.

Lemma update_each_total {A} (body : A → result A) (l : list A) :
  Forall (λ x, ∃ y, body x = Ok y) l → ∃ l', update_each body l = Ok l'.
Proof.
  induction 1 as [| x l [y Hy] _ [l' IH]]; simpl; [eauto |].
  rewrite Hy. simpl. rewrite IH. simpl. eauto.
Qed.

Lemma timeCalculation_device_total dist servers_ device :
  servers_ ≠ [] →
  Forall (λ c, in_range (sc_id c) servers_) (servers device) →
  ∃ device', timeCalculation_device dist servers_ device = Ok device'.
Proof.
  intros Hne Hc. unfold timeCalculation_device.
  destruct (covered device); simpl; [| eauto].
  destruct (for_each_total (λ ce : Z * Qc, in_range ce.1 servers_)
              (closestEdge_step servers_) (servers device))
    with (s := (0%Z, EARTH_RADIUS_KM)) as (ce & -> & Hce).
  - intros ce s_info Hin Hce0. unfold closestEdge_step.
    pose proof (proj1 (Forall_forall _ _) Hc s_info Hin) as Hr.
    destruct (proj1 (vat_in_range _ _) Hr) as [sv ->]. simpl.
    destruct (_ && _); eexists; (split; [reflexivity | done]).
  - unfold in_range. destruct servers_; [done | simpl; lia].
  - simpl.
    destruct (update_each_total
                (timeCalculation_link dist servers_ device ce)
                (servers device)) as [links ->]; [| simpl; eauto].
    eapply List.Forall_impl; [| exact Hc].
    intros c Hr. unfold timeCalculation_link.
    destruct (proj1 (vat_in_range _ _) Hr) as [sv ->]. simpl.
    destruct (Ascii.eqb (s_type sv) "C"); [| eauto].
    destruct (proj1 (vat_in_range _ _) Hce) as [edge ->]. simpl. eauto.
Qed.

Lemma timeCalculation_total dist devices servers_ :
  servers_ ≠ [] →
  Forall (λ d, Forall (λ c, in_range (sc_id c) servers_) (servers d))
         devices →
  ∃ devices', timeCalculation dist devices servers_ = Ok devices'.
Proof.
  intros Hne Hd. unfold timeCalculation.
  destruct devices as [| d0 ds]; [eauto |].
  apply Forall_cons_1 in Hd as [_ Hd].
  destruct (update_each_total (timeCalculation_device dist servers_) ds)
    as [ds' ->]; [| simpl; eauto].
  eapply List.Forall_impl; [| exact Hd].
  intros d. by apply timeCalculation_device_total.
Qed.

(** With positive counts, a known technology and loaded vectors (devices
    as the constructor leaves them), [pre_calculation] returns a state. *)
Lemma pre_calculation_valid dist loadDevices loadServers sim alg
    numDevices numServersEC numServersCC tech :
  (0 < numDevices)%Z → (0 < numServersEC)%Z → (0 < numServersCC)%Z →
  (1 ≤ tech ≤ 6)%Z →
  loadDevices numDevices ≠ [] → loadServers numServersEC numServersCC ≠ [] →
  Forall (λ d, covered d = false ∧ servers d = []) (loadDevices numDevices) →
  ∃ state,
    pre_calculation dist loadDevices loadServers sim alg numDevices
                    numServersEC numServersCC tech = Ok (Some state).
Proof.
  intros Hd Hec Hcc Htech Hld Hls Hfresh. unfold pre_calculation.
  destruct (Z.leb_spec numDevices 0); [lia |].
  destruct (Z.leb_spec numServersEC 0); [lia |].
  destruct (Z.leb_spec numServersCC 0); [lia |]. simpl.
  rewrite !bool_decide_eq_false_2 by done. simpl.
  unfold coverage, bandwidth. simpl.
  assert (Qcltb (techParams tech).1 0 = false) as ->.
  { assert (tech = 1 ∨ tech = 2 ∨ tech = 3 ∨ tech = 4 ∨ tech = 5 ∨ tech = 6)%Z
      as [-> | [-> | [-> | [-> | [-> | ->]]]]] by lia;
      vm_compute; reflexivity. }
  set (devices := map_from1 _ (loadDevices numDevices)).
  set (servers_ := map_from1 _ (loadServers numServersEC numServersCC)).
  destruct (findCovering dist devices servers_ _ _) as [[ds cov] m] eqn:Hfc.
  apply findCovering_candidates in Hfc.
  - destruct (timeCalculation_total dist ds servers_) as [ds' ->];
      [| done | simpl; eauto].
    subst servers_. by destruct (loadServers numServersEC numServersCC).
  - subst devices. destruct Hfresh as [| d l Hd0 Hl]; simpl; [done |].
    constructor; [done |]. apply Forall_fmap.
    eapply List.Forall_impl; [| exact Hl]. by intros x [? ?].
Qed.

(** C3 (the code departs from the claim).  Technology id 7 with positive
    counts and loadable data: [pre_calculation] does not return
    [std::nullopt] but a run state holding the loaded vectors and an empty
    covered list. *)
Theorem pre_calculation_tech7_returns_state :
  pre_calculation ex_calculateDistance ex_loadDevices ex_loadServers
                  "Heuristic" "Random" 2 1 1 7
  = Ok (Some {| r_devices := ex_loadDevices 2;
                r_servers := ex_loadServers 1 1;
                coveredDevicesIdx := [];
                metrics := mkMetrics "Heuristic" "Random" 2 1 1 7 |}).
Proof. apply pre_calculation_unknown_tech; try lia; discriminate. Qed.

(** C2 (the code departs from the claim).  On the instance, the search
    finds a best solution serving both devices, and the metrics of the
    returned state are computed from it; but the device and server
    vectors of the returned state are those of the input, with device 1
    unserved and server 2 idle. *)
Theorem simulatedAnnealing_returns_input_vectors :
  (∃ e', simulatedAnnealing ex_exp 20 100 ex_random 1 (dec 1 2) ex_engine
         = Ok (ex_annealed, e')) ∧
  (∃ e', annealing_search ex_exp 20 100 ex_random 1 (dec 1 2) ex_engine
         = Ok (ex_search, e')) ∧
  r_devices ex_annealed = r_devices ex_random ∧
  r_servers ex_annealed = r_servers ex_random ∧
  assignment (r_devices ex_annealed) = [(false, 0); (false, 0); (true, 1)]%Z ∧
  assignment (bestDevices ex_search) = [(false, 0); (true, 2); (true, 2)]%Z ∧
  map on (r_servers ex_annealed) = [false; true; false] ∧
  map on (bestServers ex_search) = [false; false; true] ∧
  calculateMetrics (bestDevices ex_search) (bestServers ex_search)
                   (metrics ex_random) = Ok (metrics ex_annealed) ∧
  devices_served_count (outputs (metrics ex_annealed)) = 2%Z.
Proof.
  split; [apply ex_annealed_eq |]. split; [apply ex_search_eq |].
  destruct ex_annealed_eq as [e' H].
  apply simulatedAnnealing_inv in H as (a & e1 & Ha & Hm & Hd & Hs & _).
  destruct ex_search_eq as [e2 H2]. rewrite H2 in Ha.
  assert (a = ex_search) as ->.
  { symmetry. exact (f_equal (λ r, match r with
                                   | Ok (x, _) => x
                                   | _ => a
                                   end) Ha). }
  split; [exact Hd |]. split; [exact Hs |].
  split; [vm_compute; reflexivity |]. split; [vm_compute; reflexivity |].
  split; [vm_compute; reflexivity |]. split; [vm_compute; reflexivity |].
  split; [exact Hm | vm_compute; reflexivity].
Qed.

(** C4, as the claim states it, fails for Greedy: on the instance the
    candidate list of device 1 is [1; 2] before and [2; 1] after. *)
Lemma greedy_reorders_candidates :
  greedyHeuristic ex_state true false = Ok ex_greedy ∧
  map (λ d, map sc_id (servers d)) (r_devices ex_state)
    = [[]; [1; 2]; [1; 2]]%Z ∧
  map (λ d, map sc_id (servers d)) (r_devices ex_greedy)
    = [[]; [2; 1]; [2; 1]]%Z ∧
  ¬ Forall2 (λ d d', servers d' = servers d)
            (r_devices ex_state) (r_devices ex_greedy).
Proof.
  split; [apply ex_greedy_eq |]. split; [vm_compute; reflexivity |].
  split; [vm_compute; reflexivity |].
  intros H.
  assert (map (λ d, map sc_id (servers d)) (r_devices ex_greedy)
          = map (λ d, map sc_id (servers d)) (r_devices ex_state)) as Heq.
  { induction H as [| d d' l l' Hd _ IH]; [done |]. simpl.
    by rewrite Hd, IH. }
  vm_compute in Heq. discriminate Heq.
Qed.

(** C4, amended.  Every completed strategy leaves the covered list, the
    static fields of every device and of every server, and the entries of
    every candidate list as they were; the candidate list itself is kept
    as it is by Random and simulated annealing and permuted by Greedy
    (which sorts it in place); the committed link is kept or set to one
    of the candidates.  The neighbour step of the annealing search keeps
    every candidate list as it is. *)
Theorem strategies_keep_candidates :
  (∀ k state state',
     completes k state state' →
     coveredDevicesIdx state' = coveredDevicesIdx state ∧
     Forall2 same_server (r_servers state) (r_servers state') ∧
     Forall2 (λ d d',
                same_device d d' ∧ servers d' ≡ₚ servers d ∧
                (server d' = server d ∨ server d' ∈ servers d') ∧
                match k with
                | Greedy _ _ => True
                | _ => servers d' = servers d
                end)
             (r_devices state) (r_devices state')) ∧
  (∀ devices servers_ covered_ cns csu e devices' servers' cns' csu' e',
     generateNeighbor devices servers_ covered_ cns csu e
       = Ok (devices', servers', cns', csu', e') →
     Forall2 same_server servers_ servers' ∧
     Forall2 (λ d d', same_device d d' ∧ servers d' = servers d ∧
                      (server d' = server d ∨ server d' ∈ servers d'))
             devices devices').
Proof.
  split.
  - intros k state state' H.
    destruct H as [state e state' e' H | state a b state' H
                  | exp levels fuel state T alpha e state' e' H].
    + apply randomHeuristic_inv in H as [[Hd Hs] Hc]. simpl in *.
      split; [done |]. split.
      * eapply List.Forall2_impl; [| exact Hs]. by intros s s' [? _].
      * eapply List.Forall2_impl; [| exact Hd].
        intros d d' (? & Heq & ?).
        split; [done | split; [by rewrite Heq | split; done]].
    + apply greedyHeuristic_inv in H as [[Hd Hs] Hc]. simpl in *.
      split; [done |]. split.
      * eapply List.Forall2_impl; [| exact Hs]. by intros s s' [? _].
      * eapply List.Forall2_impl; [| exact Hd].
        intros d d' (? & ? & ?). split; [done | split; [done | split; done]].
    + apply simulatedAnnealing_inv in H as (a & e1 & _ & _ & -> & -> & ->).
      split; [done |]. split.
      * apply Forall2_diag. intros s. apply same_server_refl.
      * apply Forall2_diag. intros d.
        split; [apply same_device_refl |]. split; [done |].
        split; [by left | done].
  - intros devices servers_ covered_ cns csu e devices' servers' cns' csu' e'
      H.
    apply generateNeighbor_step in H as [Hd Hs]. simpl in *. split.
    + eapply List.Forall2_impl; [| exact Hs]. by intros s s' [? _].
    + exact Hd.
Qed.

(* ===================================================================== *)
(** * Totality of the strategies on validated states *)
(* ===================================================================== *)

Lemma device_step_valid n d d' :
  device_step d d' → device_valid n d → device_valid n d'.
Proof.
  intros (_ & Hp & Hl) [H1 H2].
  assert (Forall (λ c, (0 ≤ sc_id c < Z.of_nat n)%Z) (servers d')) as H2'
    by by rewrite Hp.
  split; [| done].
  destruct Hl as [-> | Hin]; [done |].
  by apply (proj1 (Forall_forall _ _) H2').
Qed.

Lemma devices_step_valid n ds ds' :
  Forall2 device_step ds ds' →
  Forall (device_valid n) ds → Forall (device_valid n) ds'.
Proof.
  induction 1 as [| d d' ds ds' Hd _ IH]; [done |].
  intros [H1 H2]%Forall_cons_1. constructor; [| auto].
  by eapply device_step_valid.
Qed.

Lemma solution_step_valid_like D ds0 ss0 ds ss ds' ss' :
  solution_step D (ds, ss) (ds', ss') →
  valid_like ds0 ss0 ds ss → valid_like ds0 ss0 ds' ss'.
Proof.
  intros [Hd Hs] (H1 & H2 & H3). simpl in *.
  apply Forall2_length in Hd as Hld. apply Forall2_length in Hs as Hls.
  split; [congruence |]. split; [congruence |].
  by eapply devices_step_valid.
Qed.

Lemma device_valid_link n (ss : list Server) d :
  length ss = n → device_valid n d → ∃ sv, vat ss (sc_id (server d)) = Ok sv.
Proof.
  intros <- [H _]. apply vat_in_range. exact H.
Qed.

Lemma device_valid_candidate n (ss : list Server) d c :
  length ss = n → device_valid n d → c ∈ servers d →
  ∃ sv, vat ss (sc_id c) = Ok sv.
Proof.
  intros <- [_ H] Hc. apply vat_in_range.
  by apply (proj1 (Forall_forall _ _) H).
Qed.

Lemma calculateMetrics_total ds ss m :
  Forall (device_valid (length ss)) ds →
  ∃ m', calculateMetrics ds ss m = Ok m'.
Proof.
  intros Hv. unfold calculateMetrics.
  set (o0 := Build_CommonOutputs _ _ _ _ _ _ _ _ _ _ _ _).
  destruct (for_each_total (λ _, True) (calculateMetrics_device ss) ds)
    with (s := o0) as (o1 & -> & _); [| done | simpl; eauto].
  intros o d Hd _. unfold calculateMetrics_device.
  destruct (d_id d =? 0)%Z; [eauto |].
  destruct (served d); [| destruct (covered d); eauto].
  destruct (device_valid_link (length ss) ss d) as [sv ->]; [done | |].
  - by apply (proj1 (Forall_forall _ _) Hv).
  - simpl. eauto.
Qed.

Lemma randomHeuristic_body_total ds ss e d_idx :
  in_range d_idx ds → Forall (device_valid (length ss)) ds →
  ∃ r, randomHeuristic_body (ds, ss, e) d_idx = Ok r.
Proof.
  intros [device Hdev]%vat_in_range Hv. unfold randomHeuristic_body.
  rewrite Hdev. simpl.
  case_bool_decide; [eauto |].
  destruct (randomNumber_Ok 0 (Z.of_nat (length (servers device))) e)
    as (s_idx & e1 & -> & Hr); [lia |]. simpl.
  destruct (Z.eqb_spec s_idx (Z.of_nat (length (servers device))));
    [eauto |].
  destruct (proj1 (vat_in_range (servers device) s_idx))
    as [potential_server Hpot]; [unfold in_range; lia |].
  rewrite Hpot. simpl.
  destruct (device_valid_candidate (length ss) ss device potential_server)
    as [sv ->];
    [done | exact (vat_Forall _ _ _ _ Hv Hdev) | by eapply vat_elem_of |].
  simpl. destruct (canServe sv device); [| eauto].
  destruct (addServed sv device) as [[b sv'] device']. eauto.
Qed.

Lemma randomHeuristic_total state e :
  validated state → ∃ state' e', randomHeuristic state e = Ok (state', e').
Proof.
  intros (Hcov & Hv & _). unfold randomHeuristic.
  pose proof (shuffle_Permutation (coveredDevicesIdx state) e) as Hperm.
  destruct (shuffle (coveredDevicesIdx state) e) as [l e1]. simpl in Hperm.
  destruct (for_each_total
              (λ s : list Device * list Server * Engine,
                 valid_like (r_devices state) (r_servers state) s.1.1 s.1.2)
              randomHeuristic_body l)
    with (s := (r_devices state, r_servers state, e1))
    as ([[ds ss] e2] & -> & (Hld & Hls & Hv')).
  - intros [[ds ss] e0] d_idx Hin (Hld & Hls & Hv0). simpl in *.
    destruct (randomHeuristic_body_total ds ss e0 d_idx)
      as [[[ds' ss'] e0'] Hbody].
    + unfold in_range. rewrite Hld. rewrite Hperm in Hin.
      by apply (proj1 (Forall_forall _ _) Hcov).
    + by rewrite Hls.
    + exists (ds', ss', e0'). split; [done |]. simpl.
      apply randomHeuristic_body_step, solution_kept_step in Hbody.
      by eapply solution_step_valid_like.
  - by repeat split.
  - simpl in *. rewrite <- Hls in Hv'.
    destruct (calculateMetrics_total ds ss (metrics state) Hv') as [m ->].
    simpl. eauto.
Qed.

Lemma index_comp_in_range {T} asc (attr : T → Qc) entities i j :
  in_range i entities → in_range j entities →
  index_comp asc attr entities i j = Ok (index_before asc attr entities i j).
Proof.
  intros [ei Hi]%vat_in_range [ej Hj]%vat_in_range.
  unfold index_comp, index_before, attr_at. rewrite Hi, Hj. simpl.
  destruct (negb _), asc; done.
Qed.

Lemma sortEntities_total {T} asc (attr : T → Qc) entities idxs :
  Forall (λ i, in_range i entities) idxs →
  ∃ order, sortEntities asc attr entities idxs = Ok order ∧
           Forall (λ i, in_range i entities) order.
Proof.
  intros Hr. unfold sortEntities, sort_indices_impl.
  destruct entities as [| x entities]; [by exists [] |].
  destruct idxs as [| i idxs]; [by exists [] |].
  exists (sort (index_before asc attr (x :: entities)) (i :: idxs)). split.
  - apply sortM_pure. intros a b Ha Hb.
    apply index_comp_in_range; by apply (proj1 (Forall_forall _ _) Hr).
  - by rewrite sort_Permutation.
Qed.

Lemma greedy_commit_total ss device cands :
  Forall (λ c, (0 ≤ sc_id c < Z.of_nat (length ss))%Z) cands →
  ∃ r, greedy_commit ss device cands = Ok r.
Proof.
  induction 1 as [| c cands Hc _ IH]; simpl; [eauto |].
  destruct (proj1 (vat_in_range ss (sc_id c)) Hc) as [sv ->]. simpl.
  destruct (canServe sv device); [| done].
  destruct (addServed sv device) as [[b sv'] device']. eauto.
Qed.

(** A device none of whose candidates can serve it is left as it is. *)
Lemma greedy_commit_unservable ss device cands :
  Forall (λ c, ∃ sv, vat ss (sc_id c) = Ok sv ∧ canServe sv device = false)
         cands →
  greedy_commit ss device cands = Ok (ss, device).
Proof.
  induction 1 as [| c cands (sv & Hsv & Hcan) _ IH]; simpl; [done |].
  by rewrite Hsv; simpl; rewrite Hcan.
Qed.

Lemma greedyHeuristic_body_total asc ds ss d_idx :
  in_range d_idx ds → Forall (device_valid (length ss)) ds →
  ∃ r, greedyHeuristic_body asc (ds, ss) d_idx = Ok r.
Proof.
  intros [device Hdev]%vat_in_range Hv. unfold greedyHeuristic_body.
  rewrite Hdev. simpl.
  destruct (greedy_commit_total ss
              (set_servers (sort (responseTime_comp asc) (servers device))
                           device)
              (sort (responseTime_comp asc) (servers device)))
    as [[ss' device'] ->].
  - rewrite sort_Permutation. by destruct (vat_Forall _ _ _ _ Hv Hdev).
  - simpl. eauto.
Qed.

Lemma greedyHeuristic_total state sortDevicesAsc sortServersAsc :
  validated state →
  ∃ state', greedyHeuristic state sortDevicesAsc sortServersAsc = Ok state'.
Proof.
  intros (Hcov & Hv & _). unfold greedyHeuristic, greedy_order.
  destruct (sortEntities_total sortDevicesAsc cnd (r_devices state)
              (coveredDevicesIdx state) Hcov) as (order & -> & Horder).
  simpl.
  destruct (for_each_total
              (λ s : list Device * list Server,
                 valid_like (r_devices state) (r_servers state) s.1 s.2)
              (greedyHeuristic_body sortServersAsc) order)
    with (s := (r_devices state, r_servers state))
    as ([ds ss] & -> & (Hld & Hls & Hv')).
  - intros [ds ss] d_idx Hin (Hld & Hls & Hv0). simpl in *.
    destruct (greedyHeuristic_body_total sortServersAsc ds ss d_idx)
      as [[ds' ss'] Hbody].
    + unfold in_range. rewrite Hld.
      by apply (proj1 (Forall_forall _ _) Horder).
    + by rewrite Hls.
    + exists (ds', ss'). split; [done |]. simpl.
      apply greedyHeuristic_body_step in Hbody.
      by eapply solution_step_valid_like.
  - by repeat split.
  - simpl in *. rewrite <- Hls in Hv'.
    destruct (calculateMetrics_total ds ss (metrics state) Hv') as [m ->].
    simpl. eauto.
Qed.

Lemma generateNeighbor_loop_total tries l ds ss d_idx device cns csu :
  Forall (λ k, (0 ≤ k ≤ Z.of_nat (length (servers device)) - 1)%Z) l →
  device_valid (length ss) device →
  ∃ r, generateNeighbor_loop tries l ds ss d_idx device cns csu = Ok r.
Proof.
  intros Hl Hv. revert tries.
  induction Hl as [| k l Hk _ IH]; intros tries; simpl; [eauto |].
  destruct (5 <=? tries)%Z; [eauto |].
  destruct (proj1 (vat_in_range (servers device) k))
    as [potential_server Hpot]; [unfold in_range; lia |].
  rewrite Hpot. simpl.
  destruct (_ =? _)%Z; [done |].
  destruct (device_valid_link (length ss) ss device) as [old_server ->];
    [done.. |]. simpl.
  destruct (device_valid_candidate (length ss) ss device potential_server)
    as [new_server ->]; [done | done | by eapply vat_elem_of |]. simpl.
  destruct (canServe new_server device); [| done].
  destruct (served device).
  - destruct (rmvServed old_server device) as [[b0 old'] device1].
    destruct (addServed new_server device1) as [[b new'] device2]. eauto.
  - destruct (addServed new_server device) as [[b new'] device2]. eauto.
Qed.

Lemma generateNeighbor_total state cns csu e :
  validated state → coveredDevicesIdx state ≠ [] →
  ∃ r, generateNeighbor (r_devices state) (r_servers state)
                        (coveredDevicesIdx state) cns csu e = Ok r.
Proof.
  intros (Hcov & Hv & Hne) Hcovered. unfold generateNeighbor.
  assert (0 < length (coveredDevicesIdx state))%nat as Hlen.
  { destruct (coveredDevicesIdx state); [done | simpl; lia]. }
  destruct (randomNumber_Ok 0 (Z.of_nat (length (coveredDevicesIdx state)) - 1)
                            e) as (idx & e1 & -> & Hidx); [lia |]. simpl.
  destruct (proj1 (vat_in_range (coveredDevicesIdx state) idx))
    as [d_idx Hd_idx]; [unfold in_range; lia |].
  rewrite Hd_idx. simpl.
  destruct (proj1 (vat_in_range (r_devices state) d_idx))
    as [device Hdev]; [exact (vat_Forall _ _ _ _ Hcov Hd_idx) |].
  rewrite Hdev. simpl.
  assert (0 < length (servers device))%nat as Hcands.
  { pose proof (vat_Forall _ _ _ _ Hne Hd_idx device Hdev).
    destruct (servers device); [done | simpl; lia]. }
  destruct (shuffledRange_Ok 0 (Z.of_nat (length (servers device)) - 1) e1)
    as (l & e2 & -> & Hl); [lia |]. simpl.
  destruct (generateNeighbor_loop_total 0 l (r_devices state)
              (r_servers state) d_idx device cns csu Hl)
    as [[[[ds ss] cns'] csu'] ->]; [exact (vat_Forall _ _ _ _ Hv Hdev) |].
  simpl. eauto.
Qed.

(** Without a covered device the neighbour step throws. *)
Lemma generateNeighbor_no_covered devices servers_ cns csu e :
  generateNeighbor devices servers_ [] cns csu e = Throw invalid_argument.
Proof. reflexivity. Qed.

Lemma validatedb_validated state :
  validatedb state = true → validated state.
Proof.
  unfold validatedb, validated.
  rewrite !andb_true_iff, !forallb_forall. intros [[H1 H2] H3].
  split; [| split]; apply Forall_forall; intros x Hx;
    apply list_elem_of_In in Hx.
  - apply H1 in Hx. by apply bool_decide_eq_true in Hx.
  - apply H2 in Hx. unfold device_validb in Hx.
    apply andb_true_iff in Hx as [Ha Hb].
    apply bool_decide_eq_true in Ha. split; [done |].
    apply Forall_forall. intros c Hc. apply list_elem_of_In in Hc.
    rewrite forallb_forall in Hb. apply Hb in Hc.
    by apply bool_decide_eq_true in Hc.
  - intros d Hd. apply H3 in Hx. rewrite Hd in Hx.
    apply negb_true_iff in Hx. by apply bool_decide_eq_false in Hx.
Qed.

Lemma ex_uncovered_eq :
  pre_calculation ex_calculateDistance ex_loadDevices ex_loadServers
                  "MetaHeuristic" "SA" 2 1 1 6 = Ok (Some ex_uncovered).
Proof.
  unfold ex_uncovered.
  destruct (pre_calculation _ _ _ _ _ _ _ _ _) as [[s |] | |] eqn:E;
    [reflexivity | | |]; vm_compute in E; discriminate E.
Qed.

(** C10, as the claim states it, fails for the neighbour step: the
    pre-calculated state under 6G is validated (its covered list is
    empty, so the conditions on covered devices hold), and
    [generateNeighbor] throws [invalid_argument] on it. *)
Lemma neighbor_step_throws_without_covered_device :
  pre_calculation ex_calculateDistance ex_loadDevices ex_loadServers
                  "MetaHeuristic" "SA" 2 1 1 6 = Ok (Some ex_uncovered) ∧
  validated ex_uncovered ∧
  generateNeighbor (r_devices ex_uncovered) (r_servers ex_uncovered)
                   (coveredDevicesIdx ex_uncovered) 0 0 ex_engine
  = Throw invalid_argument.
Proof.
  split; [apply ex_uncovered_eq |]. split.
  - apply validatedb_validated. vm_compute. reflexivity.
  - replace (coveredDevicesIdx ex_uncovered) with (@nil Z)
      by (vm_compute; reflexivity).
    apply generateNeighbor_no_covered.
Qed.

(** C10, amended.  On a validated run state (covered indices in range;
    candidate server ids and the committed link's server id in range; a
    candidate for every covered device) the Random and the Greedy
    heuristic return for every engine and every pair of flags, and the
    neighbour step returns provided there is a covered device; a device
    that no candidate can serve is left unserved by the greedy scan. *)
Theorem strategies_total state :
  validated state →
  (∀ e, ∃ state' e', randomHeuristic state e = Ok (state', e')) ∧
  (∀ sortDevicesAsc sortServersAsc,
     ∃ state', greedyHeuristic state sortDevicesAsc sortServersAsc
               = Ok state') ∧
  (coveredDevicesIdx state ≠ [] →
   ∀ cns csu e,
     ∃ r, generateNeighbor (r_devices state) (r_servers state)
                           (coveredDevicesIdx state) cns csu e = Ok r) ∧
  (∀ device cands,
     Forall (λ c, ∃ sv, vat (r_servers state) (sc_id c) = Ok sv ∧
                        canServe sv device = false) cands →
     greedy_commit (r_servers state) device cands
     = Ok (r_servers state, device)).
Proof.
  intros Hv. split; [| split; [| split]].
  - intros e. by apply randomHeuristic_total.
  - intros a b. by apply greedyHeuristic_total.
  - intros Hne cns csu e. by apply generateNeighbor_total.
  - intros device cands. apply greedy_commit_unservable.
Qed.

(* ===================================================================== *)
(** * The claims on the instance *)
(* ===================================================================== *)

Ltac qc_compute :=
  vm_compute; first [reflexivity | let H := fresh in intros H; discriminate H].

Lemma ex_loadServers_ok ec cc :
  Forall (λ s, constructed_server s ∧ capacity_nonneg s)
         (ex_loadServers ec cc).
Proof.
  unfold ex_loadServers, constructed_server, capacity_nonneg.
  repeat constructor; simpl; try qc_compute; lia.
Qed.

Lemma ex_loadServers_constructed ec cc :
  Forall constructed_server (ex_loadServers ec cc).
Proof.
  eapply List.Forall_impl; [| apply ex_loadServers_ok]. by intros s [? _].
Qed.

Lemma ex_reachable : reachable ex_state ex_annealed.
Proof.
  destruct ex_random_eq as [e1 H1]. destruct ex_annealed_eq as [e2 H2].
  eapply rtc_l; [exists Random; econstructor; exact H1 |].
  apply rtc_once. exists SimulatedAnnealing. econstructor. exact H2.
Qed.

Lemma capacity_invariant_witness :
  reachable ex_state ex_annealed ∧ Forall capacity_ok (r_servers ex_annealed).
Proof.
  split; [exact ex_reachable |].
  exact (proj1 (capacity_invariant ex_calculateDistance ex_loadDevices
                  ex_loadServers "Heuristic"%string "Random"%string
                  2%Z 1%Z 1%Z 4%Z ex_state
                  ex_annealed ex_loadServers_ok ex_state_eq ex_reachable)).
Defined.

Lemma activation_invariant_witness :
  active_ok (foldl do_call Server0
                   [call_addServed ex_device; call_rmvServed ex_device]) ∧
  Forall active_ok (r_servers ex_annealed).
Proof.
  split.
  - apply (proj1 activation_invariant). by repeat split.
  - exact (proj1 (proj2 activation_invariant ex_calculateDistance
                    ex_loadDevices ex_loadServers "Heuristic"%string
                    "Random"%string 2%Z 1%Z 1%Z 4%Z ex_state ex_annealed ex_loadServers_constructed
                    ex_state_eq ex_reachable)).
Defined.

Lemma ex_pass_eq :
  annealing_body ex_exp (coveredDevicesIdx ex_random) 1
                 (annealing_init ex_random) 0 ex_engine
  = Ok (ex_pass.1.1, ex_pass.1.2, ex_pass.2).
Proof.
  unfold ex_pass.
  destruct (annealing_body _ _ _ _ _ _) as [[[a i] e] | |] eqn:E;
    [reflexivity | |]; vm_compute in E; discriminate E.
Qed.

Lemma bestCost_non_increasing_witness :
  bestCost ex_pass.1.1 ≤ bestCost (annealing_init ex_random).
Proof.
  exact (proj1 (bestCost_non_increasing ex_exp (coveredDevicesIdx ex_random))
               1 (annealing_init ex_random) 0%Z ex_engine
               ex_pass.1.1 ex_pass.1.2 ex_pass.2 ex_pass_eq).
Defined.



Lemma ex_devices_fresh :
  Forall (λ d, covered d = false ∧ servers d = []) ex_devices.
Proof. repeat constructor. Qed.

Lemma findCovering_coverage_witness :
  Forall (λ d, covered d = false ∧ servers d = []) ex_devices ∧
  length ex_covering.1.1 = length ex_devices.
Proof.
  split; [exact ex_devices_fresh |].
  refine (proj1 (findCovering_coverage ex_calculateDistance ex_servers
                   (techParams 4).1 ex_devices
                   (mkMetrics "Heuristic" "Random" 2 1 1 4)
                   ex_covering.1.1 ex_covering.1.2 ex_covering.2
                   ex_devices_fresh _)).
  change (ex_covering = (ex_covering.1.1, ex_covering.1.2, ex_covering.2)).
  by destruct ex_covering as [[? ?] ?].
Defined.

(** The coverage example: under 4G (radius 3.0 km) devices at 2.9 km of
    the edge server are covered and get the edge and the cloud server as
    candidates; at 3.1 km they are not covered and their non-service
    costs (5 each) make up the non-coverage cost. *)
Example coverage_radius_example :
  let near := findCovering (λ _ _ _ _, dec 29 10) ex_devices ex_servers
                           (techParams 4).1
                           (mkMetrics "Heuristic" "Random" 2 1 1 4) in
  let far := findCovering (λ _ _ _ _, dec 31 10) ex_devices ex_servers
                          (techParams 4).1
                          (mkMetrics "Heuristic" "Random" 2 1 1 4) in
  map covered near.1.1 = [false; true; true] ∧
  map (λ d, map sc_id (servers d)) near.1.1 = [[]; [1; 2]; [1; 2]]%Z ∧
  cost_of_non_coverage (outputs near.2) = 0 ∧
  map covered far.1.1 = [false; false; false] ∧
  map (λ d, map sc_id (servers d)) far.1.1 = [[]; []; []] ∧
  cost_of_non_coverage (outputs far.2) = dec 10 1.
Proof.
  cbv zeta.
  repeat split; try (vm_compute; reflexivity);
    (apply Qc_is_canon; vm_compute; reflexivity).
Qed.

Lemma ex_state_validated : validated ex_state.
Proof. apply validatedb_validated. vm_compute. reflexivity. Qed.

Lemma strategies_total_witness :
  validated ex_state ∧
  ∃ state' e', randomHeuristic ex_state ex_engine = Ok (state', e').
Proof.
  split; [exact ex_state_validated |].
  exact (proj1 (strategies_total ex_state ex_state_validated) ex_engine).
Defined.

Lemma strategies_keep_candidates_witness :
  completes (Greedy true false) ex_state ex_greedy ∧
  coveredDevicesIdx ex_greedy = coveredDevicesIdx ex_state.
Proof.
  assert (completes (Greedy true false) ex_state ex_greedy) as H
    by (constructor; apply ex_greedy_eq).
  split; [exact H |].
  exact (proj1 (proj1 strategies_keep_candidates (Greedy true false)
                      ex_state ex_greedy H)).
Defined.

(* ===================================================================== *)
(** * The metrics as sums over the solution *)
(* ===================================================================== *)

Lemma count_if_cons {A} (p : A → bool) x l :
  count_if p (x :: l) = ((if p x then 1 else 0) + count_if p l)%Z.
Proof. unfold count_if. simpl. destruct (p x); simpl; lia. Qed.

Lemma count_if_nonneg {A} (p : A → bool) l : (0 ≤ count_if p l)%Z.
Proof. unfold count_if. lia. Qed.

(** The device scan of [calculateMetrics]: the counters it leaves alone
    and what it adds to the others. *)
Lemma calculateMetrics_devices_scan servers_ devices o o' :
  for_each (calculateMetrics_device servers_) o devices = Ok o' →
  devices_covered_count o' = devices_covered_count o ∧
  cost_of_non_coverage o' = cost_of_non_coverage o ∧
  servers_used_count o' = servers_used_count o ∧
  servers_used_ec_count o' = servers_used_ec_count o ∧
  servers_used_cc_count o' = servers_used_cc_count o ∧
  cost_of_servers_used o' = cost_of_servers_used o ∧
  total_cost o' = total_cost o ∧
  cost_of_non_service o' = cost_of_non_service o + non_service_cost devices ∧
  devices_served_count o'
  = (devices_served_count o + count_if real_served devices)%Z ∧
  (devices_served_ec_count o' + devices_served_cc_count o'
   = devices_served_ec_count o + devices_served_cc_count o
     + count_if real_served devices)%Z ∧
  average_response_time o'
  = average_response_time o + response_time_sum devices.
Proof.
  revert o. induction devices as [| d devices IH]; intros o; simpl.
  - intros [= <-]. unfold non_service_cost, response_time_sum, count_if.
    simpl. repeat split; try done; try lia; ring.
  - destruct (calculateMetrics_device servers_ o d) as [o1 | |] eqn:Hd;
      simpl; try done.
    intros H. apply IH in H
      as (H1 & H2 & H3 & H4 & H5 & H6 & H7 & H8 & H9 & H10 & H11).
    rewrite H1, H2, H3, H4, H5, H6, H7, H8, H9, H10, H11. clear IH.
    unfold non_service_cost, response_time_sum. rewrite !count_if_cons.
    cbn [sum_cost]. unfold real_served, real_unserved.
    unfold calculateMetrics_device in Hd.
    destruct (d_id d =? 0)%Z; simpl.
    { injection Hd as <-. repeat split; try done; try lia; ring. }
    destruct (served d); simpl.
    + destruct (vat servers_ _) as [sv | |]; simpl in Hd; try done.
      injection Hd as <-. simpl.
      repeat split; try done; try lia; try ring.
      destruct (Ascii.eqb _ _); lia.
    + destruct (covered d); injection Hd as <-; simpl;
        repeat split; try done; try lia; ring.
Qed.

Lemma calculateMetrics_servers_scan servers_ o :
  let o' := foldl calculateMetrics_server o servers_ in
  devices_covered_count o' = devices_covered_count o ∧
  cost_of_non_coverage o' = cost_of_non_coverage o ∧
  cost_of_non_service o' = cost_of_non_service o ∧
  devices_served_count o' = devices_served_count o ∧
  devices_served_ec_count o' = devices_served_ec_count o ∧
  devices_served_cc_count o' = devices_served_cc_count o ∧
  average_response_time o' = average_response_time o ∧
  cost_of_servers_used o'
  = cost_of_servers_used o + servers_used_cost servers_ ∧
  (servers_used_ec_count o' + servers_used_cc_count o'
   = servers_used_ec_count o + servers_used_cc_count o
     + count_if real_on servers_)%Z.
Proof.
  revert o. induction servers_ as [| sv servers_ IH]; intros o; simpl.
  - unfold servers_used_cost, count_if. simpl.
    repeat split; try done; try lia; ring.
  - destruct (IH (calculateMetrics_server o sv))
      as (H1 & H2 & H3 & H4 & H5 & H6 & H7 & H8 & H9).
    rewrite H1, H2, H3, H4, H5, H6, H7, H8, H9. clear IH.
    unfold servers_used_cost. rewrite count_if_cons. cbn [sum_cost].
    unfold real_on, calculateMetrics_server.
    destruct (s_id sv =? 0)%Z; simpl;
      [repeat split; try done; try lia; ring |].
    destruct (on sv); simpl; repeat split; try done; try lia; try ring.
    destruct (Ascii.eqb _ _); lia.
Qed.

(** The outputs of [calculateMetrics] as sums and counts over the
    solution. *)
Lemma calculateMetrics_sums devices servers_ metrics_ metrics' :
  calculateMetrics devices servers_ metrics_ = Ok metrics' →
  let o := outputs metrics' in
  cost_of_non_service o = non_service_cost devices ∧
  cost_of_servers_used o = servers_used_cost servers_ ∧
  cost_of_non_coverage o = cost_of_non_coverage (outputs metrics_) ∧
  devices_covered_count o = devices_covered_count (outputs metrics_) ∧
  total_cost o
  = cost_of_non_coverage (outputs metrics_) + non_service_cost devices
    + servers_used_cost servers_ ∧
  devices_served_count o = count_if real_served devices ∧
  (devices_served_ec_count o + devices_served_cc_count o)%Z
  = devices_served_count o ∧
  servers_used_count o = count_if real_on servers_ ∧
  (servers_used_ec_count o + servers_used_cc_count o)%Z
  = servers_used_count o ∧
  average_response_time o
  = (if (0 <? count_if real_served devices)%Z
     then response_time_sum devices
          / Q2Qc (inject_Z (count_if real_served devices))
     else 0) ∧
  inputs metrics' = inputs metrics_ ∧
  simulation_type metrics' = simulation_type metrics_ ∧
  algorithm_name metrics' = algorithm_name metrics_.
Proof.
  unfold calculateMetrics.
  set (o0 := Build_CommonOutputs _ _ _ _ _ _ _ _ _ _ _ _).
  destruct (for_each _ o0 devices) as [o1 | |] eqn:Hscan; simpl; try done.
  intros [= <-].
  apply calculateMetrics_devices_scan in Hscan
    as (H1 & H2 & H3 & H4 & H5 & H6 & H7 & H8 & H9 & H10 & H11).
  destruct (calculateMetrics_servers_scan servers_ o1)
    as (G1 & G2 & G3 & G4 & G5 & G6 & G7 & G8 & G9).
  simpl in *.
  rewrite G1, G2, G3, G4, G5, G6, G7, G8, G9.
  rewrite H1, H2, H4, H5, H6, H8, H9, H11.
  assert (∀ x : Qc, 0 + x = x) as Hz by (intros; ring).
  rewrite !Hz. rewrite !Z.add_0_l.
  repeat split; try done; try lia.
  destruct (0 <? count_if real_served devices)%Z eqn:Hn; [done |].
  apply Z.ltb_ge in Hn. pose proof (count_if_nonneg real_served devices).
  assert (count_if real_served devices = 0%Z) as Hc by lia.
  clear -Hc Hz. unfold count_if in Hc.
  assert (List.filter real_served devices = []) as Hf
    by (destruct (List.filter _ _); [done | simpl in Hc; lia]).
  clear Hc. induction devices as [| d devices IH]; [done |].
  simpl in Hf. unfold response_time_sum. cbn [sum_cost].
  destruct (real_served d); [done |]. rewrite Hz. by apply IH.
Qed.

Lemma calculateMetrics_fixpoint devices servers_ metrics_ metrics' :
  calculateMetrics devices servers_ metrics_ = Ok metrics' →
  calculateMetrics devices servers_ metrics' = Ok metrics'.
Proof.
  intros H. pose proof H as H0.
  apply calculateMetrics_sums in H0
    as (_ & _ & Hnc & Hcc & _ & _ & _ & _ & _ & _ & Hi & Hs & Ha).
  unfold calculateMetrics in *. rewrite Hnc, Hcc.
  destruct (for_each _ _ devices) as [o1 | |]; simpl in *; try done.
  injection H as <-. unfold set_outputs. simpl. done.
Qed.


(** X2.  [calculateMetrics] is idempotent: recomputing the metrics of the
    same solution from the metrics just computed gives them again. *)
Theorem calculateMetrics_idempotent devices servers_ metrics_ metrics' :
  calculateMetrics devices servers_ metrics_ = Ok metrics' →
  calculateMetrics devices servers_ metrics' = Ok metrics'.
Proof.
  apply calculateMetrics_fixpoint.
Qed.
(* ===================================================================== *)
(** * Sorting all entities *)
(* ===================================================================== *)

Lemma sort_indices_impl_in_range {T} asc (attr : T → Qc) entities idxs :
  Forall (λ i, in_range i entities) idxs →
  sort_indices_impl asc attr entities idxs
  = Ok (sort (index_before asc attr entities) idxs).
Proof.
  intros Hr. apply sortM_pure. intros a b Ha Hb.
  apply index_comp_in_range; by apply (proj1 (Forall_forall _ _) Hr).
Qed.

Lemma sort_index_le {T} asc (attr : T → Qc) entities idxs :
  StronglySorted (index_le asc attr entities)
                 (sort (index_before asc attr entities) idxs).
Proof.
  apply (sort_StronglySorted (index_before asc attr entities)).
  - intros x y. apply index_before_le.
  - intros x y z. apply index_le_trans.
Qed.

Lemma sortEntities_all_sorted {T} asc (attr : T → Qc) entities :
  ∃ order, sortEntities_all asc attr entities = Ok order ∧
           sorted_indices asc attr entities order.
Proof.
  unfold sortEntities_all.
  set (n := Z.of_nat (length entities)).
  destruct (Z.leb_spec n 1) as [Hn | Hn].
  - exists []. split; [done |]. split.
    + rewrite seqZ_nil by lia. done.
    + intros p q i j ei ej _ Hp. done.
  - rewrite sort_indices_impl_in_range.
    2:{ apply Forall_seqZ. intros i Hi. unfold in_range. lia. }
    eexists. split; [done |]. split; [apply sort_Permutation |].
    intros p q i j ei ej Hpq Hp Hq Hi Hj.
    pose proof (StronglySorted_lookup _ _ _ _ _ _
                  (sort_index_le asc attr entities (seqZ 1 (n - 1)))
                  Hpq Hp Hq) as Hle.
    apply index_le_cases in Hle. unfold attr_at in Hle.
    rewrite Hi, Hj in Hle.
    assert (i ≠ j) as Hne.
    { intros ->.
      assert (NoDup (sort (index_before asc attr entities) (seqZ 1 (n - 1))))
        as Hnd by (rewrite sort_Permutation; apply NoDup_seqZ).
      pose proof (NoDup_lookup _ _ _ _ Hnd Hp Hq). lia. }
    destruct Hle as [Hlt | [Heq Hij]].
    + split.
      * destruct asc; by apply Qclt_le_weak.
      * intros Heq. rewrite Heq in Hlt.
        destruct asc; by apply Qclt_not_eq in Hlt.
    + split; [| intros _; lia].
      rewrite Heq. destruct asc; apply Qcle_refl.
Qed.

(** X3.  [devicesAsc], [devicesDesc], [serversAsc] and [serversDesc]
    (the overload of [sortEntities] over all entities) never throw and
    return every index from 1 to N-1 exactly once, devices by
    non-decreasing (resp. non-increasing) non-service cost, servers by
    usage cost, entries of equal cost by ascending index; the placeholder
    index 0 is never listed, and a vector holding at most the placeholder
    gives the empty list. *)
Theorem entity_orders (devices : list Device) (servers_ : list Server) :
  (∃ order, devicesAsc devices = Ok order ∧
            sorted_indices true cnd devices order) ∧
  (∃ order, devicesDesc devices = Ok order ∧
            sorted_indices false cnd devices order) ∧
  (∃ order, serversAsc servers_ = Ok order ∧
            sorted_indices true csc servers_ order) ∧
  (∃ order, serversDesc servers_ = Ok order ∧
            sorted_indices false csc servers_ order) ∧
  ((length devices ≤ 1)%nat → devicesAsc devices = Ok []) ∧
  (∀ order, devicesAsc devices = Ok order → 0%Z ∉ order).
Proof.
  repeat split; try apply sortEntities_all_sorted.
  - intros Hn. unfold devicesAsc, sortEntities_all.
    destruct (Z.leb_spec (Z.of_nat (length devices)) 1); [done | lia].
  - intros order H.
    destruct (sortEntities_all_sorted true cnd devices)
      as (order' & H' & Hperm & _).
    unfold devicesAsc in H. rewrite H' in H. injection H as ->.
    rewrite Hperm. intros Hin%elem_of_seqZ. lia.
Qed.
(* ===================================================================== *)
(** * The timing step *)
(* ===================================================================== *)

Lemma update_each_Forall2 {A} (body : A → result A) (l l' : list A) :
  update_each body l = Ok l' → Forall2 (λ x y, body x = Ok y) l l'.
Proof.
  revert l'. induction l as [| x l IH]; intros l'; simpl.
  - intros [= <-]. constructor.
  - destruct (body x) as [y | |] eqn:Hy; simpl; try done.
    destruct (update_each body l) as [l1 | |]; simpl; try done.
    intros [= <-]. constructor; auto.
Qed.

(** The nearest-edge scan: the distance found is a lower bound of the
    distances of the edge candidates, and it is the start value or the
    distance of an edge candidate nearer than the start value. *)
Lemma closestEdge_scan servers_ cands ce0 ce :
  for_each (closestEdge_step servers_) ce0 cands = Ok ce →
  ce.2 ≤ ce0.2 ∧
  (∀ c, c ∈ cands → server_type_at servers_ "E" (sc_id c) = true →
        ce.2 ≤ distance c) ∧
  (ce = ce0 ∨
   ∃ c, c ∈ cands ∧ server_type_at servers_ "E" (sc_id c) = true ∧
        ce = (sc_id c, distance c) ∧ distance c < ce0.2).
Proof.
  revert ce0. induction cands as [| c cands IH]; intros ce0; simpl.
  - intros [= <-]. split; [apply Qcle_refl |]. split; [| by left].
    intros c []%elem_of_nil.
  - destruct (closestEdge_step servers_ ce0 c) as [ce1 | |] eqn:Hstep;
      simpl; try done.
    intros H. apply IH in H as (Hle & Hmin & Hwho). clear IH.
    unfold closestEdge_step in Hstep.
    destruct (vat servers_ (sc_id c)) as [sv | |] eqn:Hsv; simpl in Hstep;
      try done.
    assert (server_type_at servers_ "E" (sc_id c) = Ascii.eqb (s_type sv) "E")
      as Htype by (unfold server_type_at; by rewrite Hsv).
    destruct (Ascii.eqb (s_type sv) "E") eqn:HE; simpl in Hstep.
    + destruct (Qcltb (distance c) ce0.2) eqn:Hlt; injection Hstep as <-.
      * apply Qcltb_lt in Hlt. simpl in *. split.
        { apply Qclt_le_weak in Hlt. by etransitivity. }
        split.
        { intros c' [-> | Hc']%elem_of_cons Hc'E; [done | by apply Hmin]. }
        right. destruct Hwho as [-> | (c' & Hc' & Hc'E & -> & Hlt')].
        -- exists c. split; [left |]. by rewrite Htype.
        -- exists c'. split; [by right |]. split; [done |].
           split; [done | by etransitivity].
      * assert (ce0.2 ≤ distance c) as Hge.
        { apply Qcnot_lt_le. intros Hlt'%Qcltb_lt. congruence. }
        split; [done |]. split.
        { intros c' [-> | Hc']%elem_of_cons Hc'E; [| by apply Hmin].
          by etransitivity. }
        destruct Hwho as [-> | (c' & Hc' & Hc'E & -> & Hlt')]; [by left |].
        right. exists c'. split; [by right | done].
    + injection Hstep as <-. split; [done |]. split.
      { intros c' [-> | Hc']%elem_of_cons Hc'E; [congruence | by apply Hmin]. }
      destruct Hwho as [-> | (c' & Hc' & Hc'E & -> & Hlt')]; [by left |].
      right. exists c'. split; [by right | done].
Qed.

Lemma timeCalculation_link_timed dist servers_ device ce c c' :
  timeCalculation_link dist servers_ device ce c = Ok c' →
  timed_link servers_ device c c'.
Proof.
  unfold timeCalculation_link, timed_link.
  destruct (vat servers_ (sc_id c)) as [sv | |] eqn:Hsv; simpl; try done.
  destruct (Ascii.eqb (s_type sv) "C").
  - destruct (vat servers_ ce.1) as [edge | |]; simpl; try done.
    intros [= <-]. simpl. repeat split; try done. by exists sv.
  - intros [= <-]. simpl. repeat split; try done. by exists sv.
Qed.

(** What the timing step does to one device. *)
Lemma timeCalculation_device_spec dist servers_ device device' :
  timeCalculation_device dist servers_ device = Ok device' →
  same_device device device' ∧ served device' = served device ∧
  server device' = server device ∧
  (covered device = false → device' = device) ∧
  (covered device = true →
   ∃ ce, for_each (closestEdge_step servers_) (0%Z, EARTH_RADIUS_KM)
                  (servers device) = Ok ce ∧
         Forall2 (λ c c', timeCalculation_link dist servers_ device ce c
                          = Ok c')
                 (servers device) (servers device')).
Proof.
  unfold timeCalculation_device. destruct (covered device) eqn:Hcov; simpl.
  - destruct (for_each _ _ _) as [ce | |] eqn:Hce; simpl; try done.
    destruct (update_each _ _) as [links | |] eqn:Hl; simpl; try done.
    intros [= <-]. simpl.
    split; [by repeat split |]. repeat split; try done.
    intros _. exists ce. split; [done |]. by apply update_each_Forall2.
  - intros [= <-]. split; [apply same_device_refl |].
    repeat split; try done.
Qed.

Lemma timeCalculation_lookup dist devices servers_ devices' :
  timeCalculation dist devices servers_ = Ok devices' →
  length devices' = length devices ∧
  (∀ d, vat devices 0 = Ok d → vat devices' 0 = Ok d) ∧
  (∀ i d, (1 ≤ i)%Z → vat devices i = Ok d →
          ∃ d', vat devices' i = Ok d' ∧
                timeCalculation_device dist servers_ d = Ok d').
Proof.
  unfold timeCalculation. destruct devices as [| d0 ds]; simpl.
  { intros [= <-]. split; [done |]. split; [done |].
    intros i d _ [_ H]%vat_Ok. done. }
  destruct (update_each _ ds) as [ds' | |] eqn:Hu; simpl; try done.
  intros [= <-]. apply update_each_Forall2 in Hu.
  split; [simpl; f_equal; symmetry; by eapply Forall2_length |].
  split; [done |].
  intros i d Hi [_ Hd]%vat_Ok.
  assert (Z.to_nat i = S (Z.to_nat i - 1)) as Hn by lia.
  rewrite Hn in Hd. simpl in Hd.
  destruct (Forall2_lookup_l _ _ _ _ _ Hu Hd) as (d' & Hd' & Hbody).
  exists d'. split; [| done]. apply vat_Ok. split; [lia |].
  by rewrite Hn.
Qed.

(** X4.  The timing step keeps the shape of the solution: the vector
    length, the placeholder, every uncovered device, and of a covered
    device every field but the candidate list, which keeps its length,
    order, server ids and distances; each of its links gets the
    processing time [s_d * t_p] of its server and a response time equal
    to connection time plus processing time. *)
Theorem timeCalculation_links dist devices servers_ devices' :
  timeCalculation dist devices servers_ = Ok devices' →
  length devices' = length devices ∧
  (∀ d, vat devices 0 = Ok d → vat devices' 0 = Ok d) ∧
  ∀ i d, (1 ≤ i)%Z → vat devices i = Ok d →
    ∃ d', vat devices' i = Ok d' ∧
          same_device d d' ∧ served d' = served d ∧ server d' = server d ∧
          (covered d = false → d' = d) ∧
          (covered d = true →
           Forall2 (timed_link servers_ d) (servers d) (servers d')).
Proof.
  intros (Hlen & H0 & Hrest)%timeCalculation_lookup.
  split; [done |]. split; [done |].
  intros i d Hi Hd. destruct (Hrest i d Hi Hd) as (d' & Hd' & Hbody).
  exists d'. split; [done |].
  apply timeCalculation_device_spec in Hbody as (Hs & Hsv & Hl & Hunc & Hcov).
  repeat (split; [done |]).
  intros Hc. destruct (Hcov Hc) as (ce & _ & Hlinks).
  eapply List.Forall2_impl; [| exact Hlinks].
  intros c c'. apply timeCalculation_link_timed.
Qed.

(** X5.  Routing of the cloud links.  For a covered device with an edge
    candidate (nearer than the start value of the scan, the Earth's
    radius), every cloud link is routed through a nearest edge candidate
    [e] (no edge candidate is nearer), and its connection time is the
    transmission time, plus the propagation delay over the distance to
    [e] and on to the cloud server, plus the inter-datacentre latency.
    Without such an edge candidate the routing id is the placeholder 0. *)
Theorem timeCalculation_routes_via_nearest_edge
    dist devices servers_ devices' i d d' c' :
  timeCalculation dist devices servers_ = Ok devices' →
  (1 ≤ i)%Z → vat devices i = Ok d → covered d = true →
  vat devices' i = Ok d' → c' ∈ servers d' →
  server_type_at servers_ "C" (sc_id c') = true →
  ((∃ e, e ∈ servers d ∧ server_type_at servers_ "E" (sc_id e) = true ∧
         distance e < EARTH_RADIUS_KM) →
   ∃ e sv_e sv_c,
     e ∈ servers d ∧ server_type_at servers_ "E" (sc_id e) = true ∧
     (∀ e', e' ∈ servers d →
            server_type_at servers_ "E" (sc_id e') = true →
            distance e ≤ distance e') ∧
     id_routing c' = sc_id e ∧
     vat servers_ (sc_id e) = Ok sv_e ∧ vat servers_ (sc_id c') = Ok sv_c ∧
     connectionTime c'
     = (s_d d / d_bw d) * dec 1000 1
       + ((distance e + distance_server_server dist sv_e sv_c)
          / SPEED_OF_LIGHT) * dec 1000 1
       + INTER_DC_LATENCY_MS) ∧
  ((∀ e, e ∈ servers d → server_type_at servers_ "E" (sc_id e) = true →
         EARTH_RADIUS_KM ≤ distance e) →
   id_routing c' = 0%Z).
Proof.
  intros (_ & _ & Hrest)%timeCalculation_lookup Hi Hd Hcov Hd' Hc' HC.
  destruct (Hrest i d Hi Hd) as (d1 & Hd1 & Hbody).
  rewrite Hd' in Hd1. injection Hd1 as <-.
  apply timeCalculation_device_spec in Hbody as (_ & _ & _ & _ & Hlinks).
  destruct (Hlinks Hcov) as (ce & Hscan & Hall). clear Hlinks.
  apply closestEdge_scan in Hscan as (Hle & Hmin & Hwho). simpl in Hle.
  apply list_elem_of_lookup_1 in Hc' as [k Hk].
  destruct (Forall2_lookup_r _ _ _ _ _ Hall Hk) as (c & Hc & Hlink).
  unfold timeCalculation_link in Hlink.
  destruct (vat servers_ (sc_id c)) as [sv | |] eqn:Hsv; simpl in Hlink;
    try done.
  assert (sc_id c' = sc_id c ∧
          (Ascii.eqb (s_type sv) "C" = true →
           id_routing c' = ce.1 ∧
           ∃ edge, vat servers_ ce.1 = Ok edge ∧
             connectionTime c'
             = (s_d d / d_bw d) * dec 1000 1
               + ((ce.2 + distance_server_server dist edge sv)
                  / SPEED_OF_LIGHT) * dec 1000 1
               + INTER_DC_LATENCY_MS)) as [Hid Hcloud].
  { destruct (Ascii.eqb (s_type sv) "C").
    - destruct (vat servers_ ce.1) as [edge | |] eqn:He; simpl in Hlink;
        try done.
      injection Hlink as <-. simpl. split; [done |]. intros _.
      split; [done |]. by exists edge.
    - injection Hlink as <-. by split. }
  rewrite Hid in *. unfold server_type_at in HC. rewrite Hsv in HC.
  destruct (Hcloud HC) as (Hroute & edge & Hedge & Hconn). clear Hcloud.
  split.
  - intros (e0 & He0 & He0E & He0lt).
    destruct Hwho as [-> | (e & He & HeE & -> & _)].
    { simpl in *. pose proof (Hmin e0 He0 He0E) as Hge.
      by apply Qcle_not_lt in Hge. }
    simpl in *. exists e, edge, sv. by repeat split.
  - intros Hfar. destruct Hwho as [-> | (e & He & HeE & -> & Hlt)]; [done |].
    simpl in *. pose proof (Hfar e He HeE) as Hge.
    by apply Qcle_not_lt in Hge.
Qed.
(* ===================================================================== *)
(** * Consistent solutions *)
(* ===================================================================== *)

Lemma vat_vset_eq {A} (v : list A) i x y :
  vat v i = Ok x → vat (vset v i y) i = Ok y.
Proof.
  intros [Hi Hx]%vat_Ok. apply vat_Ok. split; [done |]. unfold vset.
  apply list_lookup_insert_eq. by eapply lookup_lt_Some.
Qed.

Lemma vat_vset_inv {A} (v : list A) i j x y :
  (0 ≤ i)%Z → vat (vset v i x) j = Ok y →
  (j = i ∧ y = x) ∨ (j ≠ i ∧ vat v j = Ok y).
Proof.
  intros Hi [Hj Hy]%vat_Ok. unfold vset in Hy.
  destruct (decide (j = i)) as [-> | Hne].
  - left. split; [done |].
    apply list_lookup_insert_Some in Hy as [(_ & -> & _) | [? _]]; done.
  - right. split; [done |]. apply vat_Ok. split; [done |].
    rewrite list_lookup_insert_ne in Hy; [done | lia].
Qed.

Lemma vat_nonneg {A} (v : list A) i x : vat v i = Ok x → (0 ≤ i)%Z.
Proof. by intros [? _]%vat_Ok. Qed.

Lemma vset_id {A} (v : list A) i x : vat v i = Ok x → vset v i x = v.
Proof. intros [_ H]%vat_Ok. by apply list_insert_id. Qed.

Lemma vset_vset {A} (v : list A) i x y : vset (vset v i x) i y = vset v i y.
Proof. apply list_insert_insert_eq. Qed.

Lemma distinct_ids_inj devices i i' d d' :
  distinct_ids devices → vat devices i = Ok d → vat devices i' = Ok d' →
  d_id d = d_id d' → i = i'.
Proof.
  intros Hnd [Hi Hd]%vat_Ok [Hi' Hd']%vat_Ok Heq.
  assert (Z.to_nat i = Z.to_nat i'); [| lia].
  eapply NoDup_lookup; [exact Hnd | |]; rewrite list_lookup_fmap.
  - by rewrite Hd.
  - rewrite Hd'. simpl. by rewrite Heq.
Qed.

Lemma distinct_ids_vset devices i d d' :
  vat devices i = Ok d → d_id d' = d_id d →
  distinct_ids devices → distinct_ids (vset devices i d').
Proof.
  intros [_ Hd]%vat_Ok Hid. unfold distinct_ids, vset.
  rewrite list_fmap_insert, Hid, list_insert_id; [done |].
  by rewrite list_lookup_fmap, Hd.
Qed.

(** Replacing the device at position [i] by one with the same id, with
    the served sets changed accordingly, keeps the mirror property. *)
Lemma mirror_update devices servers_ servers' i d d' :
  distinct_ids devices → sets_mirror_links devices servers_ →
  vat devices i = Ok d → d_id d' = d_id d →
  (∀ j sv', vat servers' j = Ok sv' →
     ∃ sv, vat servers_ j = Ok sv ∧
       ∀ x, x ∈ devices_served (supply sv') ↔
            (x ∈ devices_served (supply sv) ∧
             ¬ (x = d_id d ∧ served d = true ∧ sc_id (server d) = j)) ∨
            (x = d_id d ∧ served d' = true ∧ sc_id (server d') = j)) →
  sets_mirror_links (vset devices i d') servers'.
Proof.
  intros Hnd Hm Hd Hid Hsets j sv' x Hsv'.
  destruct (Hsets j sv' Hsv') as (sv & Hsv & Hx). rewrite Hx.
  rewrite (Hm j sv x Hsv). pose proof (vat_nonneg _ _ _ Hd) as Hi. split.
  - intros [[(i0 & d0 & Hd0 & Hid0 & Hs0 & Hl0) Hnot] | (-> & Hs & Hl)].
    + exists i0, d0. split; [| done].
      apply vat_vset_ne; [| done..]. intros ->.
      rewrite Hd in Hd0. injection Hd0 as <-. by destruct Hnot.
    + exists i, d'. split; [by eapply vat_vset_eq | done].
  - intros (i0 & d0 & Hd0 & Hid0 & Hs0 & Hl0).
    apply vat_vset_inv in Hd0 as [[-> ->] | [Hne Hd0]]; [| | done].
    + right. by rewrite <- Hid0, Hid.
    + left. split; [by exists i0, d0 |]. intros (Hxd & _).
      destruct Hne. eapply distinct_ids_inj; eauto. congruence.
Qed.

Lemma addServed_absent this device :
  d_id device ∉ devices_served (supply this) →
  ∃ this', addServed this device = (true, this', set_served true device) ∧
           same_server this this' ∧ on this' = true ∧
           devices_served (supply this')
           = {[d_id device]} ∪ devices_served (supply this).
Proof.
  intros H. unfold addServed. rewrite bool_decide_eq_false_2 by done.
  eexists. split; [done |]. by repeat split.
Qed.

Lemma rmvServed_present this device :
  d_id device ∈ devices_served (supply this) → on this = true →
  ∃ this', rmvServed this device = (true, this', set_served false device) ∧
           same_server this this' ∧
           devices_served (supply this')
           = devices_served (supply this) ∖ {[d_id device]} ∧
           (on this' = true ↔ devices_served (supply this') ≠ ∅).
Proof.
  intros H Hon. unfold rmvServed.
  rewrite bool_decide_eq_false_2 by (intros Hn; by apply Hn).
  eexists. split; [done |].
  case_bool_decide as He; simpl; repeat split; try done; congruence.
Qed.

(** In a consistent solution a device that is not served is in no served
    set, and a served device is in the set of the server it is linked to
    and in no other. *)
Lemma consistent_unserved devices servers_ i d j sv :
  consistent devices servers_ → vat devices i = Ok d → served d = false →
  vat servers_ j = Ok sv → d_id d ∉ devices_served (supply sv).
Proof.
  intros (Hnd & Hm & _) Hd Hs Hsv Hin.
  apply (Hm j sv _ Hsv) in Hin as (i0 & d0 & Hd0 & Hid0 & Hs0 & _).
  assert (i0 = i) as -> by (eapply distinct_ids_inj; eauto).
  congruence.
Qed.

Lemma consistent_served devices servers_ i d j sv :
  consistent devices servers_ → vat devices i = Ok d → served d = true →
  vat servers_ j = Ok sv →
  d_id d ∈ devices_served (supply sv) ↔ sc_id (server d) = j.
Proof.
  intros (Hnd & Hm & _) Hd Hs Hsv. rewrite (Hm j sv _ Hsv). split.
  - intros (i0 & d0 & Hd0 & Hid0 & Hs0 & Hl0).
    assert (i0 = i) as -> by (eapply distinct_ids_inj; eauto).
    congruence.
  - intros Hl. by exists i, d.
Qed.

(** Committing an unserved device keeps the solution consistent. *)
Lemma consistent_committed devices servers_ i d device c devices' servers' :
  consistent devices servers_ →
  vat devices i = Ok d → served d = false →
  d_id device = d_id d → served device = false →
  committed devices servers_ i device c devices' servers' →
  consistent devices' servers' ∧
  ∃ d', vat devices' i = Ok d' ∧ served d' = true ∧ server d' = c ∧
        same_device device d' ∧ servers d' = servers device.
Proof.
  intros Hcons Hd Hs Hid Hs0 (sv & b & sv' & device' & Hsv & Hcan & Hadd & -> & ->).
  pose proof (consistent_unserved _ _ _ _ _ _ Hcons Hd Hs Hsv) as Hnotin.
  rewrite <- Hid in Hnotin.
  destruct (addServed_absent sv device Hnotin)
    as (sv1 & Hadd1 & Hsame & Hon & Hset).
  rewrite Hadd in Hadd1. injection Hadd1 as -> -> ->.
  destruct Hcons as (Hnd & Hm & Hact).
  split; [split; [| split] |].
  - eapply distinct_ids_vset; eauto.
  - eapply mirror_update; eauto.
    intros j sv' Hsv'.
    apply vat_vset_inv in Hsv' as [[-> ->] | [Hne Hsv']];
      [| | by eapply vat_nonneg].
    + exists sv. split; [done |]. intros x. rewrite Hset, Hs. simpl.
      rewrite <- Hid. set_solver.
    + exists sv'. split; [done |]. intros x. rewrite Hs. simpl.
      naive_solver.
  - apply Forall_vset; [done |].
    eapply addServed_active; [exact Hadd |]. by eapply vat_Forall.
  - eexists. split; [by eapply vat_vset_eq |]. simpl.
    repeat split; done.
Qed.
(* ===================================================================== *)
(** * The neighbour step on consistent solutions *)
(* ===================================================================== *)

(** The candidate loop either leaves everything as it is or makes one
    move to a feasible candidate other than the current link. *)
Lemma generateNeighbor_loop_cases tries l devices servers_ d_idx device
    cns csu devices' servers' cns' csu' :
  generateNeighbor_loop tries l devices servers_ d_idx device cns csu
    = Ok (devices', servers', cns', csu') →
  (devices' = devices ∧ servers' = servers_ ∧ cns' = cns ∧ csu' = csu) ∨
  ∃ c old_server new_server,
    c ∈ servers device ∧ sc_id c ≠ sc_id (server device) ∧
    vat servers_ (sc_id (server device)) = Ok old_server ∧
    vat servers_ (sc_id c) = Ok new_server ∧
    canServe new_server device = true ∧
    neighbor_move devices servers_ d_idx device c old_server new_server
                  cns csu
    = (devices', servers', cns', csu').
Proof.
  revert tries. induction l as [| k l IH]; intros tries H; simpl in H.
  { injection H as <- <- <- <-. by left. }
  destruct (5 <=? tries)%Z; [injection H as <- <- <- <-; by left |].
  destruct (vat (servers device) k) as [c | |] eqn:Hc; simpl in H; try done.
  destruct (Z.eqb_spec (sc_id c) (sc_id (server device))) as [| Hne];
    [by eapply IH |].
  destruct (vat servers_ (sc_id (server device))) as [old_server | |]
    eqn:Hold; simpl in H; try done.
  destruct (vat servers_ (sc_id c)) as [new_server | |] eqn:Hnew;
    simpl in H; try done.
  destruct (canServe new_server device) eqn:Hcan; [| by eapply IH].
  right. exists c, old_server, new_server.
  split; [by eapply vat_elem_of |]. repeat (split; [done |]).
  unfold neighbor_move.
  destruct (served device).
  - destruct (rmvServed old_server device) as [[b0 old'] device1].
    destruct (addServed new_server device1) as [[b new'] device2].
    by injection H as <- <- <- <-.
  - destruct (addServed new_server device) as [[b new'] device2].
    by injection H as <- <- <- <-.
Qed.

(** A successful move on a consistent solution: the result is
    consistent and the moved device is served by the new server. *)
Lemma neighbor_move_consistent devices servers_ i device c old_server
    new_server cns csu devices' servers' cns' csu' :
  consistent devices servers_ →
  vat devices i = Ok device → legal device →
  candidates_real servers_ device →
  d_id device ≠ 0%Z → covered device = true →
  c ∈ servers device → sc_id c ≠ sc_id (server device) →
  vat servers_ (sc_id (server device)) = Ok old_server →
  vat servers_ (sc_id c) = Ok new_server →
  neighbor_move devices servers_ i device c old_server new_server cns csu
    = (devices', servers', cns', csu') →
  consistent devices' servers' ∧
  ∃ d', devices' = vset devices i d' ∧ served d' = true ∧ server d' = c ∧
        same_device device d' ∧ servers d' = servers device.
Proof.
  intros Hcons Hd Hlegal Hreal Hid Hcov Hc Hne Hold Hnew Hmove.
  pose proof Hcons as (Hnd & Hm & Hact).
  pose proof (vat_nonneg _ _ _ Hold) as Hjo.
  pose proof (vat_nonneg _ _ _ Hnew) as Hjn.
  assert (s_id new_server ≠ 0%Z) as Hnew_real
    by exact (proj1 (Forall_forall _ _) Hreal c Hc _ Hnew).
  unfold neighbor_move in Hmove.
  destruct (served device) eqn:Hserved.
  - (* the device leaves its old server *)
    assert (s_id old_server ≠ 0%Z) as Hold_real
      by exact (proj1 (Forall_forall _ _) Hreal _ (Hlegal Hserved) _ Hold).
    assert (d_id device ∈ devices_served (supply old_server)) as Hin
      by by apply (consistent_served _ _ _ _ _ _ Hcons Hd Hserved Hold).
    assert (d_id device ∉ devices_served (supply new_server)) as Hnotin.
    { intros Hin'.
      apply (consistent_served _ _ _ _ _ _ Hcons Hd Hserved Hnew) in Hin'.
      congruence. }
    assert (on old_server = true) as Hon.
    { apply (vat_Forall _ _ _ _ Hact Hold). set_solver. }
    destruct (rmvServed_present old_server device Hin Hon)
      as (old' & Hrmv & Hsame_o & Hset_o & Hon_o).
    rewrite Hrmv in Hmove.
    destruct (addServed_absent new_server (set_served false device) Hnotin)
      as (new' & Hadd & Hsame_n & Hon_n & Hset_n).
    rewrite Hadd in Hmove. simpl in Hmove, Hset_n.
    injection Hmove as <- <- <- <-.
    set (d' := set_server c (set_served true (set_served false device))).
    assert (vat (vset servers_ (sc_id (server device)) old') (sc_id c)
            = Ok new_server) as Hnew1 by by apply vat_vset_ne.
    split; [split; [| split] |].
    + eapply distinct_ids_vset; eauto.
    + eapply mirror_update; eauto.
      intros j sv' Hsv'. rewrite Hserved. simpl.
      apply vat_vset_inv in Hsv' as [[-> ->] | [Hne1 Hsv']]; [| | done].
      { exists new_server. split; [done |]. intros x. rewrite Hset_n.
        set_solver. }
      apply vat_vset_inv in Hsv' as [[-> ->] | [Hne2 Hsv']]; [| | done].
      { exists old_server. split; [done |]. intros x. rewrite Hset_o.
        set_solver. }
      exists sv'. split; [done |]. intros x. naive_solver.
    + apply Forall_vset; [apply Forall_vset; [done |] |].
      * eapply rmvServed_active; [exact Hrmv |]. by eapply vat_Forall.
      * eapply addServed_active; [exact Hadd |]. by eapply vat_Forall.
    + exists d'. by repeat split.
  - (* the device was not served *)
    assert (d_id device ∉ devices_served (supply new_server)) as Hnotin
      by by eapply consistent_unserved.
    destruct (addServed_absent new_server device Hnotin)
      as (new' & Hadd & Hsame_n & Hon_n & Hset_n).
    rewrite Hadd in Hmove. injection Hmove as <- <- <- <-.
    rewrite (vset_id _ _ _ Hold).
    set (d' := set_server c (set_served true device)).
    split; [split; [| split] |].
    + eapply distinct_ids_vset; eauto.
    + eapply mirror_update; eauto.
      intros j sv' Hsv'. rewrite Hserved. simpl.
      apply vat_vset_inv in Hsv' as [[-> ->] | [Hne1 Hsv']]; [| | done].
      { exists new_server. split; [done |]. intros x. rewrite Hset_n.
        set_solver. }
      exists sv'. split; [done |]. intros x. naive_solver.
    + apply Forall_vset; [done |].
      eapply addServed_active; [exact Hadd |]. by eapply vat_Forall.
    + exists d'. by repeat split.
Qed.
(* ===================================================================== *)
(** * What the heuristics commit *)
(* ===================================================================== *)

Lemma vat_vset_other {A} (v : list A) i j x :
  j ≠ i → (0 ≤ i)%Z → vat (vset v i x) j = vat v j.
Proof.
  intros Hne Hi. unfold vat, vset. destruct (j <? 0)%Z eqn:Hj; [done |].
  apply Z.ltb_ge in Hj. rewrite list_lookup_insert_ne; [done | lia].
Qed.

(** One pass of the Random loop changes nothing or commits the visited
    device to one of its candidates. *)
Lemma randomHeuristic_body_cases devices servers_ e d_idx devices' servers' e' :
  randomHeuristic_body (devices, servers_, e) d_idx
    = Ok (devices', servers', e') →
  (devices' = devices ∧ servers' = servers_) ∨
  ∃ device c,
    vat devices d_idx = Ok device ∧ c ∈ servers device ∧
    committed devices servers_ d_idx device c devices' servers'.
Proof.
  unfold randomHeuristic_body. intros H.
  destruct (vat devices d_idx) as [device | |] eqn:Hdev; simpl in H; try done.
  case_bool_decide; [injection H as <- <- <-; by left |].
  destruct (randomNumber _ _ e) as [[s_idx e1] | |] eqn:Hrn;
    simpl in H; try done.
  destruct (_ =? _)%Z; [injection H as <- <- <-; by left |].
  destruct (vat (servers device) s_idx) as [c | |] eqn:Hpot;
    simpl in H; try done.
  destruct (vat servers_ _) as [sv | |] eqn:Hsv; simpl in H; try done.
  destruct (canServe sv device) eqn:Hcan;
    [| injection H as <- <- <-; by left].
  destruct (addServed sv device) as [[b sv'] device'] eqn:Hadd.
  injection H as <- <- <-. right. exists device, c.
  split; [done |]. split; [by eapply vat_elem_of |].
  by exists sv, b, sv', device'.
Qed.

(** The greedy scan commits to the first candidate that can serve the
    device, or leaves everything as it is when none can. *)
Lemma greedy_commit_cases servers_ device cands servers' device' :
  greedy_commit servers_ device cands = Ok (servers', device') →
  (servers' = servers_ ∧ device' = device ∧
   Forall (λ c, ∃ sv, vat servers_ (sc_id c) = Ok sv ∧
                      canServe sv device = false) cands) ∨
  ∃ before c after sv b sv' device1,
    cands = before ++ c :: after ∧
    Forall (λ c, ∃ sv, vat servers_ (sc_id c) = Ok sv ∧
                       canServe sv device = false) before ∧
    vat servers_ (sc_id c) = Ok sv ∧ canServe sv device = true ∧
    addServed sv device = (b, sv', device1) ∧
    device' = set_server c device1 ∧
    servers' = vset servers_ (sc_id c) sv'.
Proof.
  induction cands as [| c cands IH]; simpl.
  - intros [= <- <-]. left. by repeat split.
  - destruct (vat servers_ (sc_id c)) as [sv | |] eqn:Hsv; simpl; try done.
    destruct (canServe sv device) eqn:Hcan.
    + destruct (addServed sv device) as [[b sv'] device1] eqn:Hadd.
      intros [= <- <-]. right.
      exists [], c, cands, sv, b, sv', device1. by repeat split.
    + intros H.
      destruct (IH H) as [(-> & -> & Hall)
        | (before & c1 & after & sv1 & b & sv' & device1 & -> & Hall & Hrest)].
      * left. repeat split; try done. constructor; [by exists sv | done].
      * right. exists (c :: before), c1, after, sv1, b, sv', device1.
        split; [done |]. split; [| done].
        constructor; [by exists sv | done].
Qed.

Lemma greedyHeuristic_body_cases asc devices servers_ d_idx devices' servers' :
  greedyHeuristic_body asc (devices, servers_) d_idx
    = Ok (devices', servers') →
  ∃ device,
    vat devices d_idx = Ok device ∧
    let sorted :=
      set_servers (sort (responseTime_comp asc) (servers device)) device in
    (devices' = vset devices d_idx sorted ∧ servers' = servers_ ∧
     Forall (λ c, ∃ sv, vat servers_ (sc_id c) = Ok sv ∧
                        canServe sv device = false) (servers sorted)) ∨
    ∃ before c after,
      servers sorted = before ++ c :: after ∧
      Forall (λ c, ∃ sv, vat servers_ (sc_id c) = Ok sv ∧
                         canServe sv device = false) before ∧
      committed devices servers_ d_idx sorted c devices' servers'.
Proof.
  unfold greedyHeuristic_body. intros H.
  destruct (vat devices d_idx) as [device | |] eqn:Hdev; simpl in H; try done.
  exists device. split; [done |]. cbv zeta.
  set (sorted := set_servers _ device) in *.
  assert (∀ sv, canServe sv sorted = canServe sv device) as Hcan by done.
  destruct (greedy_commit servers_ sorted _)
    as [[servers1 device1] | |] eqn:Hcommit; simpl in H; try done.
  injection H as <- <-.
  apply greedy_commit_cases in Hcommit
    as [(-> & -> & Hall)
       | (before & c & after & sv & b & sv' & d1 & Heq & Hall & Hsv & Hc
          & Hadd & -> & ->)].
  - left. repeat split; try done.
  - right. exists before, c, after. split; [exact Heq |]. split; [done |].
    by exists sv, b, sv', d1.
Qed.

(** A loop whose invariant may mention the elements still to visit. *)
Lemma for_each_remaining {A S} (I : list A → S → Prop)
    (body : S → A → result S) :
  (∀ x rest s s', I (x :: rest) s → body s x = Ok s' → I rest s') →
  ∀ l s s', I l s → for_each body s l = Ok s' → I [] s'.
Proof.
  intros Hbody. induction l as [| x l IH]; intros s s' Hs; simpl.
  - by intros [= <-].
  - destruct (body s x) as [s1 | |] eqn:Hs1; simpl; try done.
    apply IH. by eapply Hbody.
Qed.

Lemma consistent_relabel devices servers_ i d d' :
  consistent devices servers_ → vat devices i = Ok d →
  d_id d' = d_id d → served d' = served d → server d' = server d →
  consistent (vset devices i d') servers_.
Proof.
  intros (Hnd & Hm & Hact) Hd Hid Hs Hl. split; [| split; [| done]].
  - eapply distinct_ids_vset; eauto.
  - eapply mirror_update; eauto.
    intros j sv Hsv. exists sv. split; [done |]. intros x.
    rewrite Hs, Hl. split; [| intros [[? _] | (-> & Hsd & Hld)]; [done |]].
    + intros Hx.
      destruct (decide (x = d_id d ∧ served d = true ∧ sc_id (server d) = j));
        [by right | by left].
    + apply (Hm j sv _ Hsv). by exists i, d.
Qed.

Lemma heuristic_inv_committed x rest devices servers_ d device c
    devices' servers' :
  heuristic_inv (x :: rest) devices servers_ →
  vat devices x = Ok d → d_id device = d_id d → served device = served d →
  c ∈ servers device →
  committed devices servers_ x device c devices' servers' →
  heuristic_inv rest devices' servers'.
Proof.
  intros (Hnd & Hcons & Hlegal & Hrest) Hd Hid Hs Hc Hcommit.
  apply NoDup_cons in Hnd as [Hx Hnd].
  apply Forall_cons_1 in Hrest as [Hunserved Hrest].
  pose proof (Hunserved d Hd) as Hsd.
  destruct (consistent_committed _ _ _ _ _ _ _ _ Hcons Hd Hsd Hid
              ltac:(congruence) Hcommit)
    as (Hcons' & d' & Hd' & Hsd' & Hl' & _ & Hc').
  destruct Hcommit as (sv & b & sv' & device' & _ & _ & _ & -> & ->).
  pose proof (vat_nonneg _ _ _ Hd) as Hx0.
  rewrite (vat_vset_eq _ _ _ _ Hd) in Hd'. injection Hd' as Hd'.
  split; [done |]. split; [done |]. split.
  - apply Forall_vset; [done |]. rewrite Hd'. intros _.
    by rewrite Hl', Hc'.
  - apply Forall_forall. intros i Hi d0 Hd0.
    rewrite vat_vset_other in Hd0; [| set_solver | done].
    by apply (proj1 (Forall_forall _ _) Hrest i Hi).
Qed.

Lemma heuristic_inv_skip x rest devices servers_ :
  heuristic_inv (x :: rest) devices servers_ →
  heuristic_inv rest devices servers_.
Proof.
  intros (Hnd & Hcons & Hlegal & Hrest).
  apply NoDup_cons in Hnd as [_ Hnd].
  apply Forall_cons_1 in Hrest as [_ Hrest]. done.
Qed.

Lemma randomHeuristic_loop_inv l devices servers_ e devices' servers' e' :
  heuristic_inv l devices servers_ →
  for_each randomHeuristic_body (devices, servers_, e) l
    = Ok (devices', servers', e') →
  heuristic_inv [] devices' servers'.
Proof.
  intros Hinv H.
  apply (for_each_remaining
           (λ rest (s : list Device * list Server * Engine),
              heuristic_inv rest s.1.1 s.1.2) randomHeuristic_body)
    with (l := l) (s := (devices, servers_, e)) in H; [done | | done].
  intros x rest [[ds ss] e0] [[ds' ss'] e0'] Hi Hb. simpl in *.
  apply randomHeuristic_body_cases in Hb
    as [[-> ->] | (device & c & Hd & Hc & Hcommit)].
  - by eapply heuristic_inv_skip.
  - by eapply heuristic_inv_committed.
Qed.

Lemma greedyHeuristic_loop_inv asc l devices servers_ devices' servers' :
  heuristic_inv l devices servers_ →
  for_each (greedyHeuristic_body asc) (devices, servers_) l
    = Ok (devices', servers') →
  heuristic_inv [] devices' servers'.
Proof.
  intros Hinv H.
  apply (for_each_remaining
           (λ rest (s : list Device * list Server),
              heuristic_inv rest s.1 s.2) (greedyHeuristic_body asc))
    with (l := l) (s := (devices, servers_)) in H; [done | | done].
  intros x rest [ds ss] [ds' ss'] Hi Hb. simpl in *.
  apply greedyHeuristic_body_cases in Hb as (device & Hd & Hcases).
  cbv zeta in Hcases.
  destruct Hcases as [(-> & -> & _) | (before & c & after & Heq & _ & Hcommit)].
  - pose proof Hi as (Hnd & Hcons & Hlegal & Hrest).
    apply NoDup_cons in Hnd as [Hx Hnd].
    apply Forall_cons_1 in Hrest as [Hunserved Hrest].
    pose proof (vat_nonneg _ _ _ Hd) as Hx0.
    split; [done |]. split; [by eapply consistent_relabel |]. split.
    + apply Forall_vset; [done |]. intros Hs. simpl in Hs.
      by rewrite (Hunserved device Hd) in Hs.
    + apply Forall_forall. intros i Hin d0 Hd0.
      rewrite vat_vset_other in Hd0; [| set_solver | done].
      by apply (proj1 (Forall_forall _ _) Hrest i Hin).
  - eapply (heuristic_inv_committed _ _ _ _ device (set_servers _ device));
      [exact Hi | exact Hd | done | done | | exact Hcommit].
    rewrite Heq. set_solver.
Qed.

Lemma unassigned_consistent devices servers_ :
  distinct_ids devices → unassigned devices servers_ →
  consistent devices servers_ ∧ Forall legal devices.
Proof.
  intros Hnd [Hd Hs]. split; [split; [done | split] |].
  - intros j sv x Hsv.
    destruct (vat_Forall _ _ _ _ Hs Hsv) as [-> _]. split; [set_solver |].
    intros (i & d & Hdi & _ & Hsd & _).
    by rewrite (vat_Forall _ _ _ _ Hd Hdi) in Hsd.
  - eapply List.Forall_impl; [| exact Hs].
    intros s [Hset Hon]. unfold active_ok. rewrite Hset, Hon. done.
  - eapply List.Forall_impl; [| exact Hd]. intros d Hsd Hs'. congruence.
Qed.

Lemma heuristic_completes_inv k state state' :
  k ≠ SimulatedAnnealing → completes k state state' →
  distinct_ids (r_devices state) → NoDup (coveredDevicesIdx state) →
  unassigned (r_devices state) (r_servers state) →
  consistent (r_devices state') (r_servers state') ∧
  Forall legal (r_devices state').
Proof.
  intros Hk Hrun Hnd Hcov Hun.
  destruct (unassigned_consistent _ _ Hnd Hun) as [Hcons Hlegal].
  assert (∀ l, l ≡ₚ coveredDevicesIdx state ∨ l = [] →
               heuristic_inv l (r_devices state) (r_servers state)) as Hinv.
  { intros l Hl. split; [| split; [done | split; [done |]]].
    - destruct Hl as [-> | ->]; [done | constructor].
    - apply Forall_forall. intros i _ d Hd.
      exact (vat_Forall _ _ _ _ (proj1 Hun) Hd). }
  destruct Hrun as [state e state' e' H | state a b state' H
                   | exp levels fuel state T alpha e state' e' H]; [| | done].
  - unfold randomHeuristic in H.
    pose proof (shuffle_Permutation (coveredDevicesIdx state) e) as Hperm.
    destruct (shuffle (coveredDevicesIdx state) e) as [l e1]. simpl in Hperm.
    destruct (for_each _ _ l) as [[[ds ss] e2] | |] eqn:Hloop; simpl in H;
      try done.
    destruct (calculateMetrics ds ss _) as [m | |]; simpl in H; try done.
    injection H as <- <-. simpl.
    apply randomHeuristic_loop_inv in Hloop as (_ & ? & ? & _); auto.
  - unfold greedyHeuristic, greedy_order in H.
    destruct (sortEntities _ _ _ _) as [l | |] eqn:Hsort; simpl in H;
      try done.
    destruct (for_each _ _ l) as [[ds ss] | |] eqn:Hloop; simpl in H;
      try done.
    destruct (calculateMetrics ds ss _) as [m | |]; simpl in H; try done.
    injection H as <-. simpl.
    apply greedyHeuristic_loop_inv in Hloop as (_ & ? & ? & _); [done |].
    apply Hinv.
    apply sortEntities_Ok in Hsort as [[-> _] | [-> _]]; [by right | left].
    apply sort_Permutation.
Qed.
(* ===================================================================== *)
(** * The annealing search on consistent solutions *)
(* ===================================================================== *)

Lemma candidates_real_step ds ds' ss ss' :
  Forall2 device_step ds ds' → Forall2 same_server ss ss' →
  Forall (candidates_real ss) ds → Forall (candidates_real ss') ds'.
Proof.
  intros Hd Hs. induction Hd as [| d d' ds ds' (_ & Hp & _) _ IH]; [done |].
  intros [H1 H2]%Forall_cons_1. constructor; [| auto].
  unfold candidates_real in *. rewrite Hp.
  eapply List.Forall_impl; [| exact H1].
  intros c Hc sv' [Hj Hsv']%vat_Ok.
  destruct (Forall2_lookup_r _ _ _ _ _ Hs Hsv') as (sv & Hsv & Hsame).
  destruct Hsame as (-> & _). apply Hc. by apply vat_Ok.
Qed.

Lemma covered_real_step ds ds' cov :
  Forall2 device_step ds ds' → covered_real ds cov → covered_real ds' cov.
Proof.
  intros Hd. unfold covered_real. apply List.Forall_impl.
  intros i Hi d' [Hi0 Hd']%vat_Ok.
  destruct (Forall2_lookup_r _ _ _ _ _ Hd Hd') as (d & Hdd & Hstep).
  destruct Hstep as ((-> & _ & _ & _ & _ & _ & _ & _ & _ & _ & _ & ->) & _).
  apply Hi. by apply vat_Ok.
Qed.

Lemma server_steps_same D ss ss' :
  Forall2 (server_step D) ss ss' → Forall2 same_server ss ss'.
Proof. apply List.Forall2_impl. by intros s s' [? _]. Qed.

(** The neighbour step on a consistent, accountable solution. *)
Lemma generateNeighbor_sound devices servers_ covered_ cns csu e
    devices' servers' cns' csu' e' :
  consistent devices servers_ → accountable devices servers_ covered_ →
  generateNeighbor devices servers_ covered_ cns csu e
    = Ok (devices', servers', cns', csu', e') →
  consistent devices' servers' ∧ accountable devices' servers' covered_.
Proof.
  intros Hcons (Hlegal & Hreal & Hcov) H.
  pose proof (generateNeighbor_step _ _ _ _ _ _ _ _ _ _ _ H) as Hstep.
  apply solution_kept_step in Hstep as [Hds Hss]. simpl in Hds, Hss.
  apply server_steps_same in Hss.
  unfold generateNeighbor in H.
  destruct (randomNumber _ _ e) as [[idx e1] | |]; simpl in H; try done.
  destruct (vat covered_ idx) as [d_idx | |] eqn:Hidx; simpl in H; try done.
  destruct (vat devices d_idx) as [device | |] eqn:Hdev; simpl in H; try done.
  destruct (shuffledRange _ _ e1) as [[serversShuffled e2] | |];
    simpl in H; try done.
  destruct (generateNeighbor_loop _ _ _ _ _ _ _ _)
    as [[[[ds ss] cns1] csu1] | |] eqn:Hloop; simpl in H; try done.
  injection H as <- <- <- <- <-.
  apply generateNeighbor_loop_cases in Hloop
    as [(-> & -> & -> & ->)
       | (c & old_server & new_server & Hc & Hne & Hold & Hnew & Hcan & Hmove)].
  { split; [exact Hcons |].
    split; [exact Hlegal |]. split; [exact Hreal | exact Hcov]. }
  destruct (vat_Forall _ _ _ _ Hcov Hidx device Hdev) as [Hid Hcovered].
  apply neighbor_move_consistent in Hmove
    as (Hcons' & d' & -> & Hsd' & Hl' & _ & Hc'); try done.
  - split; [done |]. split; [| split].
    + apply Forall_vset; [done |]. intros _. by rewrite Hl', Hc'.
    + by eapply candidates_real_step.
    + by eapply covered_real_step.
  - exact (vat_Forall _ _ _ _ Hlegal Hdev).
  - exact (vat_Forall _ _ _ _ Hreal Hdev).
Qed.

Lemma annealing_body_sound exp start T a i e a' i' e' :
  annealing_sound start a →
  annealing_body exp (coveredDevicesIdx start) T a i e = Ok (a', i', e') →
  annealing_sound start a'.
Proof.
  intros (Hcc & Hca & Hbc & Hba & Hbest) H.
  apply annealing_body_cases in H
    as (nd & ns & ncns & ncsu & e1 & Hn & Hcases).
  apply generateNeighbor_sound in Hn as (Hcons' & Hacc'); [| done..].
  destruct Hcases as [-> | [-> | [-> Hlt]]]; simpl.
  - by repeat (split; [assumption |]).
  - by repeat (split; [assumption |]).
  - repeat (split; [assumption |]). right.
    change (ncns + ncsu < bestCost (annealing_init start)).
    destruct Hbest as [(_ & _ & <-) | Hlt']; [exact Hlt |].
    by etransitivity.
Qed.

Lemma annealing_init_sound state :
  consistent (r_devices state) (r_servers state) →
  accountable (r_devices state) (r_servers state) (coveredDevicesIdx state) →
  annealing_sound state (annealing_init state).
Proof.
  intros Hcons Hacc. unfold annealing_sound. simpl.
  repeat (split; [assumption |]). by left.
Qed.

(** The best solution of a search started on a consistent, accountable
    state is consistent and accountable, and it is the start solution
    unless a cost strictly below the start cost was recorded. *)
Lemma annealing_search_sound exp levels fuel state T alpha e a e' :
  consistent (r_devices state) (r_servers state) →
  accountable (r_devices state) (r_servers state) (coveredDevicesIdx state) →
  annealing_search exp levels fuel state T alpha e = Ok (a, e') →
  annealing_sound state a.
Proof.
  intros Hcons Hacc H. unfold annealing_search in H.
  eapply (annealing_while_preserves exp (annealing_sound state));
    [| | exact H].
  - intros T0 a0 i0 e0 a1 i1 e1 Hs Hb. by eapply annealing_body_sound.
  - by apply annealing_init_sound.
Qed.
(* ===================================================================== *)
(** * The pre-calculated state *)
(* ===================================================================== *)

Lemma timeCalculation_device_frame dist servers_ d d' :
  timeCalculation_device dist servers_ d = Ok d' → timing_frame d d'.
Proof.
  intros H. unfold timing_frame.
  apply timeCalculation_device_spec in H as (Hs & Hsv & Hl & Hunc & Hcov).
  repeat (split; [done |]).
  destruct (covered d) eqn:Hc; [| by rewrite Hunc].
  destruct (Hcov eq_refl) as (ce & _ & Hlinks). clear -Hlinks.
  induction Hlinks as [| c c' l l' Hc _ IH]; [done |].
  rewrite !fmap_cons. apply timeCalculation_link_timed in Hc as (-> & _).
  by rewrite IH.
Qed.

Lemma timeCalculation_frame dist devices servers_ devices' :
  timeCalculation dist devices servers_ = Ok devices' →
  Forall2 timing_frame devices devices'.
Proof.
  unfold timeCalculation. destruct devices as [| d0 ds]; simpl.
  { intros [= <-]. constructor. }
  destruct (update_each _ ds) as [ds' | |] eqn:Hu; simpl; try done.
  intros [= <-]. constructor.
  - split; [apply same_device_refl | done].
  - apply update_each_Forall2 in Hu.
    eapply List.Forall2_impl; [| exact Hu].
    intros d d'. apply timeCalculation_device_frame.
Qed.

Section Covering.
Variable calculateDistance : Qc → Qc → Qc → Qc → Qc.
Variable servers_ : list Server.
Variable coverageRadius : Qc.

#[local] Abbreviation cover :=
  (cover_device calculateDistance servers_ coverageRadius).

(** What [findCovering] makes of a constructed device. *)
Lemma cover_device_constructed device :
  covered device = false → servers device = [] →
  same_device (set_covered false device) (set_covered false (cover device)) ∧
  served (cover device) = served device ∧
  server (cover device) = server device ∧
  Forall (λ c, (1 ≤ sc_id c)%Z ∧ in_range (sc_id c) servers_)
         (servers (cover device)) ∧
  (covered (cover device) = true → servers (cover device) ≠ []).
Proof.
  intros Hcov Hnil. unfold cover_device.
  destruct (edges_fold calculateDistance coverageRadius device
              (from1 servers_)) as (Hs & Hsv & Hl & Hc & Hcands).
  set (d1 := foldl _ device (from1 servers_)) in *.
  destruct (clouds_fold calculateDistance coverageRadius d1 (from1 servers_)) as (Hs2 & Hsv2 & Hl2 & Hcands2).
  set (d2 := foldl findCovering_cloud d1 (from1 servers_)) in *.
  assert (Forall (λ c, (1 ≤ sc_id c)%Z ∧ in_range (sc_id c) servers_)
                 (servers d1)) as Hd1.
  { apply Forall_forall. intros c
      [Hin | ([j sv] & [Hj Hsvj]%elem_of_from1 & _ & ->)]%Hcands.
    - rewrite Hnil in Hin. by apply elem_of_nil in Hin.
    - simpl. split; [done |]. apply vat_in_range. by exists sv. }
  assert (covered d1 = true → servers d1 ≠ []) as Hne.
  { intros [Hd | (js & Hjs & Hin)]%Hc; [congruence |].
    assert (server_covering2 js.1
              (distance_device_server calculateDistance device js.2)
            ∈ servers d1) as Hx by (apply Hcands; right; by exists js).
    intros Heq. rewrite Heq in Hx. by apply elem_of_nil in Hx. }
  destruct (covered d1) eqn:Hcd1.
  - split.
    { eapply same_device_trans; [exact Hs |].
      destruct Hs2 as (?&?&?&?&?&?&?&?&?&?&?&?). by repeat split. }
    split; [congruence |]. split; [congruence |]. split.
    + apply Forall_forall. intros c
        [Hin | ([j sv] & [Hj Hsvj]%elem_of_from1 & _ & ->)]%Hcands2.
      * by apply (proj1 (Forall_forall _ _) Hd1).
      * simpl. split; [done |]. apply vat_in_range. by exists sv.
    + intros _ Heq. apply (Hne eq_refl).
      destruct (servers d1) as [| c l] eqn:Hl1; [done |].
      assert (c ∈ servers d2) as Hx by (apply Hcands2; left; left).
      rewrite Heq in Hx. by apply elem_of_nil in Hx.
  - split; [exact Hs |]. split; [done |]. split; [done |].
    split; [exact Hd1 | intros; congruence].
Qed.

Lemma findCovering_fold_ids ds :
  ∀ done ids m, ∃ m',
    foldl (findCovering_device calculateDistance servers_ coverageRadius)
          (done, ids, m) ds
    = (done ++ (cover <$> ds),
       ids ++ (d_id <$> filter (λ d, covered d = true) (cover <$> ds)), m').
Proof.
  induction ds as [| d ds IH]; intros done ids m; cbn [foldl fmap list_fmap].
  - exists m. by rewrite !app_nil_r.
  - assert (∃ m1,
      findCovering_device calculateDistance servers_ coverageRadius
                          (done, ids, m) d
      = (done ++ [cover d],
         ids ++ (d_id <$> filter (λ d, covered d = true) [cover d]), m1))
      as (m1 & ->).
    { unfold findCovering_device, cover_device.
      set (d1 := foldl _ d (from1 servers_)).
      destruct (clouds_fold calculateDistance coverageRadius d1 (from1 servers_)) as (Hs2 & _).
      destruct Hs2 as (Hid & _ & _ & _ & _ & _ & _ & _ & _ & _ & _ & Hcov2).
      destruct (covered d1) eqn:Hd1.
      - eexists. rewrite filter_cons_True by congruence. simpl.
        by rewrite Hid.
      - eexists. rewrite filter_cons_False by congruence. simpl.
        by rewrite app_nil_r. }
    destruct (IH (done ++ [cover d])
                 (ids ++ (d_id <$> filter (λ d, covered d = true) [cover d]))
                 m1) as (m' & ->).
    exists m'. rewrite <- !app_assoc. f_equal. f_equal. f_equal.
    rewrite filter_cons. destruct (decide (covered (cover d) = true)).
    + by rewrite filter_cons_True, filter_nil by done.
    + by rewrite filter_cons_False, filter_nil by done.
Qed.

(** The covering step on constructed devices. *)
Lemma findCovering_constructed devices metrics_ devices' ids metrics' :
  Forall (λ d, covered d = false ∧ servers d = []) devices →
  findCovering calculateDistance devices servers_ coverageRadius metrics_
    = (devices', ids, metrics') →
  Forall2 (λ d d',
             same_device (set_covered false d) (set_covered false d') ∧
             served d' = served d ∧ server d' = server d)
          devices devices' ∧
  Forall (λ d, Forall (λ c, (1 ≤ sc_id c)%Z ∧ in_range (sc_id c) servers_)
                      (servers d) ∧
               (covered d = true → servers d ≠ [])) devices' ∧
  (∀ d, vat devices' 0 = Ok d → covered d = false) ∧
  ids = d_id <$> filter (λ d, covered d = true) (drop 1 devices') ∧
  devices_covered_count (outputs metrics') = Z.of_nat (length ids).
Proof.
  intros Hfresh. unfold findCovering.
  destruct (findCovering_fold_ids (drop 1 devices) (take 1 devices) []
                                  metrics_) as (m' & ->).
  intros [= <- <- <-]. simpl.
  assert (drop 1 (take 1 devices ++ (cover <$> drop 1 devices))
          = cover <$> drop 1 devices) as Hdrop.
  { destruct devices; [done |]. simpl. by rewrite drop_0. }
  rewrite Hdrop. split; [| split; [| split; [| by split]]].
  - rewrite <- (take_drop 1 devices) at 1. apply Forall2_app.
    + apply Forall2_diag. intros d. split; [apply same_device_refl | done].
    + apply Forall2_fmap_r. apply Forall_Forall2_diag.
      apply Forall_drop. eapply List.Forall_impl; [| exact Hfresh].
      intros d [Hc Hl].
      by destruct (cover_device_constructed d Hc Hl) as (? & ? & ? & _).
  - apply Forall_app. split.
    + apply Forall_take. eapply List.Forall_impl; [| exact Hfresh].
      intros d [Hc Hl]. rewrite Hl. split; [constructor | congruence].
    + apply Forall_fmap, Forall_drop.
      eapply List.Forall_impl; [| exact Hfresh].
      intros d [Hc Hl]. simpl.
      by destruct (cover_device_constructed d Hc Hl) as (_ & _ & _ & ? & ?).
  - intros d [_ Hd]%vat_Ok. destruct devices as [| d0 devices]; simpl in Hd.
    + done.
    + injection Hd as <-. by apply Forall_cons_1 in Hfresh as [[? _] _].
Qed.

End Covering.
Lemma ids_by_position_distinct devices :
  ids_by_position devices → distinct_ids devices.
Proof.
  intros Hids. apply NoDup_alt. intros i j x Hi Hj.
  rewrite list_lookup_fmap in Hi, Hj.
  destruct (devices !! i) as [di |] eqn:Hdi; [| done].
  destruct (devices !! j) as [dj |] eqn:Hdj; [| done].
  simpl in Hi, Hj. injection Hi as Hi. injection Hj as Hj.
  assert (vat devices (Z.of_nat i) = Ok di) as Hvi
    by (apply vat_Ok; split; [lia | by rewrite Nat2Z.id]).
  assert (vat devices (Z.of_nat j) = Ok dj) as Hvj
    by (apply vat_Ok; split; [lia | by rewrite Nat2Z.id]).
  apply Hids in Hvi, Hvj. lia.
Qed.

Lemma Forall2_vat_l {A B} (R : A → B → Prop) l l' i x :
  Forall2 R l l' → vat l i = Ok x → ∃ y, vat l' i = Ok y ∧ R x y.
Proof.
  intros H [Hi Hx]%vat_Ok.
  destruct (Forall2_lookup_l _ _ _ _ _ H Hx) as (y & Hy & HR).
  exists y. split; [by apply vat_Ok | done].
Qed.

Lemma Forall2_vat_r {A B} (R : A → B → Prop) l l' i y :
  Forall2 R l l' → vat l' i = Ok y → ∃ x, vat l i = Ok x ∧ R x y.
Proof.
  intros H [Hi Hy]%vat_Ok.
  destruct (Forall2_lookup_r _ _ _ _ _ H Hy) as (x & Hx & HR).
  exists x. split; [by apply vat_Ok | done].
Qed.

Lemma Forall2_map_from1 {A} (f : A → A) (l : list A) :
  Forall2 (λ x y, y = x ∨ y = f x) l (map_from1 f l).
Proof.
  destruct l as [| x l]; simpl; constructor; [by left |].
  apply Forall2_fmap_r, Forall_Forall2_diag, Forall_forall. intros; by right.
Qed.

Lemma elem_of_drop1 {A} (l : list A) x :
  x ∈ drop 1 l ↔ ∃ i, (1 ≤ i)%Z ∧ vat l i = Ok x.
Proof.
  rewrite list_elem_of_lookup. split.
  - intros [k Hk]. rewrite lookup_drop in Hk.
    exists (Z.of_nat (1 + k)). split; [lia |].
    apply vat_Ok. split; [lia | by rewrite Nat2Z.id].
  - intros (i & Hi & [_ Hx]%vat_Ok). exists (Z.to_nat i - 1)%nat.
    rewrite lookup_drop. by replace (1 + (Z.to_nat i - 1))%nat
      with (Z.to_nat i) by lia.
Qed.

(** The state [pre_calculation] returns is one of two: the loaded
    vectors as they are (unknown technology), or the vectors after the
    bandwidth, covering and timing steps. *)
Lemma pre_calculation_cases dist loadDevices loadServers sim alg
    numDevices numServersEC numServersCC tech state0 :
  pre_calculation dist loadDevices loadServers sim alg numDevices
                  numServersEC numServersCC tech = Ok (Some state0) →
  let devices := loadDevices numDevices in
  let servers_ := loadServers numServersEC numServersCC in
  let metrics_ := mkMetrics sim alg numDevices numServersEC numServersCC
                            tech in
  devices ≠ [] ∧ servers_ ≠ [] ∧
  (((techParams tech).1 < 0 ∧
    state0 = {| r_devices := devices; r_servers := servers_;
                coveredDevicesIdx := []; metrics := metrics_ |}) ∨
   (¬ (techParams tech).1 < 0 ∧
    ∃ devices1,
      findCovering dist (map_from1 (set_bw (techParams tech).2) devices)
                   (map_from1 (set_s_bw DATA_RATE_EC_TO_CC_MBPS) servers_)
                   (techParams tech).1 metrics_
      = (devices1, coveredDevicesIdx state0, metrics state0) ∧
      timeCalculation dist devices1 (r_servers state0)
      = Ok (r_devices state0) ∧
      r_servers state0
      = map_from1 (set_s_bw DATA_RATE_EC_TO_CC_MBPS) servers_)).
Proof.
  unfold pre_calculation. intros H.
  destruct (_ || _); [done |].
  destruct (bool_decide (loadDevices numDevices = [])) eqn:Hd;
    [done |]. apply bool_decide_eq_false in Hd.
  destruct (bool_decide (loadServers numServersEC numServersCC = []))
    eqn:Hs; [done |]. apply bool_decide_eq_false in Hs.
  simpl in H. cbv zeta. split; [done |]. split; [done |].
  unfold coverage, bandwidth in H. simpl in H.
  destruct (Qcltb (techParams tech).1 0) eqn:Hr.
  - apply Qcltb_lt in Hr. simpl in H. injection H as <-. by left.
  - assert (¬ (techParams tech).1 < 0) as Hr'
      by (intros Hlt%Qcltb_lt; congruence).
    destruct (findCovering _ _ _ _ _) as [[ds1 cov] m1] eqn:Hfc.
    destruct (timeCalculation _ _ _) as [ds2 | |] eqn:Htc; simpl in H;
      try done.
    injection H as <-. simpl. right. split; [done |]. by exists ds1.
Qed.

Lemma loaded_ready devices servers_ m :
  devices ≠ [] → servers_ ≠ [] →
  Forall constructed_device devices → ids_by_position devices →
  Forall constructed_server servers_ →
  ready {| r_devices := devices; r_servers := servers_;
           coveredDevicesIdx := []; metrics := m |}.
Proof.
  intros Hd Hs Hfresh Hids Hcs. unfold ready. simpl.
  split; [| split; [constructor | split; [done | split; [| split]]]].
  - split; [constructor |]. split; [| constructor]. simpl.
    eapply List.Forall_impl; [| exact Hfresh].
    intros d (_ & _ & Hl & Hc & _).
    split; [rewrite Hl | rewrite Hc; constructor]. simpl.
    destruct servers_; [done | simpl; lia].
  - split.
    + eapply List.Forall_impl; [| exact Hfresh]. by intros d (_ & ? & _).
    + eapply List.Forall_impl; [| exact Hcs].
      intros s (Hon & Hsup & _). by rewrite Hsup.
  - intros i. split; [by intros ?%elem_of_nil |].
    intros (_ & d & Hd' & Hc).
    destruct (vat_Forall _ _ _ _ Hfresh Hd') as (Hc' & _). congruence.
  - eapply List.Forall_impl; [| exact Hfresh].
    intros d (_ & _ & _ & Hc & _). rewrite Hc. constructor.
Qed.

Lemma Forall2_transfer {A} (R : A → A → Prop) (P P' : A → Prop) l l' :
  (∀ x y, R x y → P x → P' y) →
  Forall2 R l l' → Forall P l → Forall P' l'.
Proof.
  intros HR. induction 1 as [| x y l l' Hxy _ IH]; [done |].
  intros [Hx Hl]%Forall_cons_1. constructor; eauto.
Qed.

Lemma ids_by_position_Forall2 (R : Device → Device → Prop) l l' :
  (∀ d d', R d d' → d_id d' = d_id d) →
  Forall2 R l l' → ids_by_position l → ids_by_position l'.
Proof.
  intros HR H Hids i d' Hd'.
  destruct (Forall2_vat_r _ _ _ _ _ H Hd') as (d & Hd & Hdd').
  rewrite (HR _ _ Hdd'). by apply Hids.
Qed.

(** With ids equal to positions, the list of the ids of the covered
    devices (placeholder excluded) names exactly the covered positions,
    each once. *)
Lemma covered_ids_by_position devices :
  ids_by_position devices →
  let ids := d_id <$> filter (λ d, covered d = true) (drop 1 devices) in
  NoDup ids ∧
  ∀ i, i ∈ ids ↔
       (1 ≤ i)%Z ∧ ∃ d, vat devices i = Ok d ∧ covered d = true.
Proof.
  intros Hids. cbv zeta. split.
  - eapply sublist_NoDup; [apply ids_by_position_distinct, Hids |].
    apply fmap_sublist. etransitivity; [apply sublist_filter |].
    apply sublist_drop.
  - intros i. rewrite list_elem_of_fmap. split.
    + intros (d & -> & [Hc (k & Hk & Hd)%elem_of_drop1]%list_elem_of_filter).
      rewrite (Hids k d Hd). split; [done |]. by exists d.
    + intros (Hi & d & Hd & Hc). exists d. split; [by rewrite (Hids i d Hd) |].
      apply list_elem_of_filter. split; [done |].
      apply elem_of_drop1. by exists i.
Qed.

Lemma pre_calculation_ready_state dist loadDevices loadServers sim alg
    numDevices numServersEC numServersCC tech state0 :
  Forall constructed_device (loadDevices numDevices) →
  ids_by_position (loadDevices numDevices) →
  Forall constructed_server (loadServers numServersEC numServersCC) →
  pre_calculation dist loadDevices loadServers sim alg numDevices
                  numServersEC numServersCC tech = Ok (Some state0) →
  ready state0 ∧
  devices_covered_count (outputs (metrics state0))
  = Z.of_nat (length (coveredDevicesIdx state0)).
Proof.
  intros Hfresh Hids Hcs H.
  apply pre_calculation_cases in H as (Hd & Hs & Hcases). cbv zeta in Hcases.
  destruct Hcases as [[_ ->] | [_ (ds1 & Hfc & Htc & Hss)]].
  { split; [by apply loaded_ready | done]. }
  destruct state0 as [ds2 ss2 cov m2]. simpl in *. subst ss2.
  set (ds0 := loadDevices numDevices) in *.
  set (ss0 := loadServers numServersEC numServersCC) in *.
  set (dsb := map_from1 (set_bw (techParams tech).2) ds0) in *.
  set (ssb := map_from1 (set_s_bw DATA_RATE_EC_TO_CC_MBPS) ss0) in *.
  set (Q := λ d : Device, served d = false ∧ server d = server_covering0).
  (* after the bandwidth step *)
  assert (Forall (λ d, (covered d = false ∧ servers d = []) ∧ Q d) dsb)
    as Hb.
  { apply Forall_map_from1. eapply List.Forall_impl; [| exact Hfresh].
    intros d (? & ? & ? & ? & _). by repeat split. }
  assert (ids_by_position dsb) as Hidb.
  { eapply (ids_by_position_Forall2 _ ds0);
      [| apply Forall2_map_from1 | done].
    by intros d d' [-> | ->]. }
  (* after the covering step *)
  apply findCovering_constructed in Hfc
    as (H1 & Hc1 & _ & Hcov & Hcount);
    [| eapply List.Forall_impl; [| exact Hb]; by intros d [? _]].
  assert (ids_by_position ds1) as Hid1.
  { eapply ids_by_position_Forall2; [| exact H1 | done].
    by intros d d' ((? & _) & _). }
  assert (Forall Q ds1) as HQ1.
  { eapply (Forall2_transfer _ _ _ _ _ _ H1 Hb). Unshelve.
    intros d d' (_ & Hsv & Hl) (_ & Hq1 & Hq2). split; congruence. }
  destruct (covered_ids_by_position ds1 Hid1) as [Hnd Hmem].
  cbv zeta in Hmem, Hnd. rewrite <- Hcov in Hmem, Hnd.
  (* after the timing step *)
  apply timeCalculation_frame in Htc.
  pose proof (Forall2_length _ _ _ Htc) as Hlen.
  assert (ids_by_position ds2) as Hid2.
  { eapply ids_by_position_Forall2; [| exact Htc | done].
    by intros d d' ((? & _) & _). }
  assert (∀ i, i ∈ cov ↔
               (1 ≤ i)%Z ∧ ∃ d, vat ds2 i = Ok d ∧ covered d = true)
    as Hmem2.
  { intros i. rewrite Hmem. split; intros (Hi & d & Hdi & Hc);
      (split; [done |]).
    - destruct (Forall2_vat_l _ _ _ _ _ Htc Hdi) as (d' & Hd' & Hf & _).
      exists d'. split; [done |].
      destruct Hf as (_&_&_&_&_&_&_&_&_&_&_&Hcc). congruence.
    - destruct (Forall2_vat_r _ _ _ _ _ Htc Hdi) as (d' & Hd' & Hf & _).
      exists d'. split; [done |].
      destruct Hf as (_&_&_&_&_&_&_&_&_&_&_&Hcc). congruence. }
  assert (0 < length ssb)%nat as Hssb.
  { subst ssb. destruct ss0; [done | simpl; lia]. }
  split; [| done]. unfold ready. simpl.
  split; [| split; [done | split; [done | split; [| split; [done |]]]]].
  - (* validated *)
    split; [| split]; simpl.
    + apply Forall_forall. intros i (Hi & d & Hdi & _)%Hmem2.
      apply vat_in_range. by exists d.
    + eapply (Forall2_transfer _ _ _ _ _ _ Htc).
      { apply Forall_and. split; [exact HQ1 | exact Hc1]. } Unshelve.
      intros d d' (_ & _ & Hl & Hids') ([_ Hq] & Hcands & _).
      split.
      * rewrite Hl, Hq. simpl. lia.
      * apply (Forall_fmap sc_id (λ j, (0 ≤ j < Z.of_nat (length ssb))%Z)).
        rewrite Hids'. apply Forall_fmap.
        eapply List.Forall_impl; [| exact Hcands].
        intros c [_ Hr]. exact Hr.
    + apply Forall_forall. intros i (Hi & d & Hdi & Hc)%Hmem2 d0 Hd0.
      rewrite Hdi in Hd0. injection Hd0 as <-.
      destruct (Forall2_vat_r _ _ _ _ _ Htc Hdi) as (d1 & Hd1 & Hf & _ & _ & Hids').
      destruct Hf as (_&_&_&_&_&_&_&_&_&_&_&Hcc).
      destruct (vat_Forall _ _ _ _ Hc1 Hd1) as [_ Hne].
      intros Heq. rewrite Heq in Hids'. simpl in Hids'.
      apply Hne; [congruence |].
      symmetry in Hids'. by apply fmap_nil_inv in Hids'.
  - (* unassigned *)
    split.
    + eapply (Forall2_transfer _ _ _ _ _ _ Htc HQ1). Unshelve.
      intros d d' (_ & Hsv & _) [Hq _]. simpl. congruence.
    + apply Forall_map_from1. eapply List.Forall_impl; [| exact Hcs].
      intros s (Hon & Hsup & _). simpl. by rewrite Hsup.
  - eapply (Forall2_transfer _ _ _ _ _ _ Htc Hc1). Unshelve.
    intros d d' (_ & _ & _ & Hids') (Hcands & _).
    apply (Forall_fmap sc_id (λ j, (1 ≤ j)%Z)). rewrite Hids'.
    apply Forall_fmap. eapply List.Forall_impl; [| exact Hcands].
    by intros c [? _].
Qed.
(* ===================================================================== *)
(** * Properties of the strategies on ready states *)
(* ===================================================================== *)

(** X6.  Starting point of the strategies.  When the loaded devices are
    as the constructor leaves them with ids equal to their positions,
    and the loaded servers are as the constructor leaves them, the state
    returned by [pre_calculation] is validated; its covered list names
    exactly the positions (from 1) of the devices marked covered, each
    once, and its length is the reported coverage count; no device is
    served and no server serves any; every candidate names a server
    position from 1.  Hence the Random and the Greedy heuristic return
    on it, for every engine and all flags. *)
Theorem pre_calculation_ready dist loadDevices loadServers sim alg
    numDevices numServersEC numServersCC tech state0 :
  Forall constructed_device (loadDevices numDevices) →
  ids_by_position (loadDevices numDevices) →
  Forall constructed_server (loadServers numServersEC numServersCC) →
  pre_calculation dist loadDevices loadServers sim alg numDevices
                  numServersEC numServersCC tech = Ok (Some state0) →
  ready state0 ∧
  devices_covered_count (outputs (metrics state0))
  = Z.of_nat (length (coveredDevicesIdx state0)) ∧
  (∀ e, ∃ state' e', randomHeuristic state0 e = Ok (state', e')) ∧
  (∀ sortDevicesAsc sortServersAsc,
     ∃ state', greedyHeuristic state0 sortDevicesAsc sortServersAsc
               = Ok state').
Proof.
  intros Hfresh Hids Hcs H.
  destruct (pre_calculation_ready_state _ _ _ _ _ _ _ _ _ _ Hfresh Hids Hcs H)
    as [Hready Hcount].
  split; [done |]. split; [done |]. destruct Hready as (Hv & _). split.
  - intros e. by apply randomHeuristic_total.
  - intros a b. by apply greedyHeuristic_total.
Qed.

(** X7.  After the Random or a Greedy heuristic, started on a state in
    which nothing is assigned, with distinct device ids and a covered
    list without repetition: a device id is in the served set of the
    server at position [j] exactly when the device with that id is
    marked served and its link names [j]; so no device is held by two
    servers; and the link of every served device is one of its
    candidates. *)
Theorem heuristics_assign_consistently k state state' :
  k ≠ SimulatedAnnealing → completes k state state' →
  distinct_ids (r_devices state) → NoDup (coveredDevicesIdx state) →
  unassigned (r_devices state) (r_servers state) →
  sets_mirror_links (r_devices state') (r_servers state') ∧
  (∀ j1 j2 sv1 sv2 x,
     vat (r_servers state') j1 = Ok sv1 →
     vat (r_servers state') j2 = Ok sv2 →
     x ∈ devices_served (supply sv1) → x ∈ devices_served (supply sv2) →
     j1 = j2) ∧
  Forall legal (r_devices state').
Proof.
  intros Hk Hrun Hnd Hcov Hun.
  destruct (heuristic_completes_inv k state state' Hk Hrun Hnd Hcov Hun)
    as [(Hnd' & Hm & _) Hlegal].
  split; [done |]. split; [| done].
  intros j1 j2 sv1 sv2 x H1 H2 Hx1 Hx2.
  apply (Hm j1 sv1 x H1) in Hx1 as (i1 & d1 & Hd1 & Hid1 & _ & Hl1).
  apply (Hm j2 sv2 x H2) in Hx2 as (i2 & d2 & Hd2 & Hid2 & _ & Hl2).
  assert (i1 = i2) as -> by (eapply distinct_ids_inj; eauto; congruence).
  congruence.
Qed.

(** X8.  The neighbour step keeps a solution consistent (distinct ids,
    served sets mirroring the links, activation invariant) and
    accountable (served devices linked to a candidate, candidates naming
    servers with a non-zero id, covered list naming covered devices with
    a non-zero id). *)
Theorem generateNeighbor_keeps_consistent devices servers_ covered_ cns csu e
    devices' servers' cns' csu' e' :
  consistent devices servers_ → accountable devices servers_ covered_ →
  generateNeighbor devices servers_ covered_ cns csu e
    = Ok (devices', servers', cns', csu', e') →
  consistent devices' servers' ∧ accountable devices' servers' covered_.
Proof.
  intros Hcons Hacc H.
  by apply generateNeighbor_sound in H as (? & ?).
Qed.

(** The metrics returned by simulated annealing, on a consistent,
    accountable start state. *)
Lemma simulatedAnnealing_best exp levels fuel state T alpha e
    state' e' :
  consistent (r_devices state) (r_servers state) →
  accountable (r_devices state) (r_servers state) (coveredDevicesIdx state) →
  simulatedAnnealing exp levels fuel state T alpha e = Ok (state', e') →
  ∃ a e1,
    annealing_search exp levels fuel state T alpha e = Ok (a, e1) ∧
    consistent (bestDevices a) (bestServers a) ∧
    accountable (bestDevices a) (bestServers a) (coveredDevicesIdx state) ∧
    calculateMetrics (bestDevices a) (bestServers a) (metrics state)
      = Ok (metrics state') ∧
    ((bestDevices a = r_devices state ∧ bestServers a = r_servers state) ∨
     bestCost a < cost_of_non_service (outputs (metrics state))
                  + cost_of_servers_used (outputs (metrics state))).
Proof.
  intros Hcons Hacc H.
  apply simulatedAnnealing_inv in H as (a & e1 & Hsearch & Hm' & _).
  exists a, e1. split; [done |].
  destruct (annealing_search_sound _ _ _ _ _ _ _ _ _ Hcons Hacc Hsearch)
    as (_ & _ & Hbcons & Hbacc & Hbest).
  split; [done |]. split; [done |]. split; [done |].
  destruct Hbest as [(? & ? & _) | Hlt]; [by left | by right].
Qed.

(** X10.  What simulated annealing reports.  Whenever it returns on a
    consistent, accountable state, the metrics it reports are those
    that [calculateMetrics] computes for the best solution of the
    search; that solution is consistent and accountable; and it is the
    start solution itself unless the search recorded a cost (the sum
    of the two tracked components) strictly below the non-service plus
    usage cost reported by the start state. *)
Theorem simulatedAnnealing_reports_best exp levels fuel state T alpha e
    state' e' :
  consistent (r_devices state) (r_servers state) →
  accountable (r_devices state) (r_servers state) (coveredDevicesIdx state) →
  simulatedAnnealing exp levels fuel state T alpha e = Ok (state', e') →
  ∃ a e1,
    annealing_search exp levels fuel state T alpha e = Ok (a, e1) ∧
    consistent (bestDevices a) (bestServers a) ∧
    accountable (bestDevices a) (bestServers a) (coveredDevicesIdx state) ∧
    calculateMetrics (bestDevices a) (bestServers a) (metrics state)
      = Ok (metrics state') ∧
    ((bestDevices a = r_devices state ∧ bestServers a = r_servers state) ∨
     bestCost a < cost_of_non_service (outputs (metrics state))
                  + cost_of_servers_used (outputs (metrics state))).
Proof.
  apply simulatedAnnealing_best.
Qed.
(* ===================================================================== *)
(** * What a pass of a heuristic loop touches *)
(* ===================================================================== *)

Lemma committed_lookup devices servers_ i d device c devices' servers' j :
  vat devices i = Ok d →
  committed devices servers_ i device c devices' servers' →
  j ≠ i → vat devices' j = vat devices j.
Proof.
  intros Hd (sv & b & sv' & device' & _ & _ & _ & -> & _) Hne.
  apply vat_vset_other; [done | by eapply vat_nonneg].
Qed.

Lemma for_each_untouched {S} (get : S → list Device)
    (body : S → Z → result S) (l : list Z) :
  (∀ s x s' j, body s x = Ok s' → j ≠ x → vat (get s') j = vat (get s) j) →
  ∀ s s', for_each body s l = Ok s' →
          ∀ j, j ∉ l → vat (get s') j = vat (get s) j.
Proof.
  intros Hbody s s' H.
  refine (for_each_rel
            (λ s s', ∀ j, j ∉ l → vat (get s') j = vat (get s) j)
            body l _ _ _ s s' H).
  - done.
  - intros s1 s2 s3 H12 H23 j Hj. by rewrite H23, H12.
  - intros s1 x s2 Hx Hb j Hj. eapply Hbody; [done |]. set_solver.
Qed.

Lemma generateNeighbor_untouched devices servers_ covered_ cns csu e
    devices' servers' cns' csu' e' :
  generateNeighbor devices servers_ covered_ cns csu e
    = Ok (devices', servers', cns', csu', e') →
  ∀ j, j ∉ covered_ → vat devices' j = vat devices j.
Proof.
  unfold generateNeighbor. intros H j Hj.
  destruct (randomNumber _ _ e) as [[idx e1] | |]; simpl in H; try done.
  destruct (vat covered_ idx) as [d_idx | |] eqn:Hidx; simpl in H; try done.
  destruct (vat devices d_idx) as [device | |] eqn:Hdev; simpl in H; try done.
  destruct (shuffledRange _ _ e1) as [[serversShuffled e2] | |];
    simpl in H; try done.
  destruct (generateNeighbor_loop _ _ _ _ _ _ _ _)
    as [[[[ds ss] cns1] csu1] | |] eqn:Hloop; simpl in H; try done.
  injection H as <- <- <- <- <-.
  apply generateNeighbor_loop_cases in Hloop
    as [(-> & _) | (c & old_server & new_server & _ & _ & _ & _ & _ & Hmove)];
    [done |].
  assert (j ≠ d_idx) as Hne by (intros ->; by apply vat_elem_of in Hidx).
  unfold neighbor_move in Hmove.
  destruct (served device).
  - destruct (rmvServed old_server device) as [[b0 old'] device1].
    destruct (addServed new_server device1) as [[b new'] device2].
    injection Hmove as <- _ _ _.
    apply vat_vset_other; [done | by eapply vat_nonneg].
  - destruct (addServed new_server device) as [[b new'] device2].
    injection Hmove as <- _ _ _.
    apply vat_vset_other; [done | by eapply vat_nonneg].
Qed.

(** X11.  Devices outside the covered list are out of the game: no
    strategy changes the device at a position that the covered list does
    not name (nor the vector length), and neither does the neighbour
    step. *)
Theorem strategies_leave_other_devices :
  (∀ k state state',
     completes k state state' →
     length (r_devices state') = length (r_devices state) ∧
     ∀ j, j ∉ coveredDevicesIdx state →
          vat (r_devices state') j = vat (r_devices state) j) ∧
  (∀ devices servers_ covered_ cns csu e devices' servers' cns' csu' e',
     generateNeighbor devices servers_ covered_ cns csu e
       = Ok (devices', servers', cns', csu', e') →
     length devices' = length devices ∧
     ∀ j, j ∉ covered_ → vat devices' j = vat devices j).
Proof.
  split.
  - intros k state state' Hrun. split.
    { apply completes_step in Hrun as [Hd _]. simpl in Hd. symmetry.
      by eapply Forall2_length. }
    destruct Hrun as [state e state' e' H | state a b state' H
                     | exp levels fuel state T alpha e state' e' H].
    + unfold randomHeuristic in H.
      pose proof (shuffle_Permutation (coveredDevicesIdx state) e) as Hperm.
      destruct (shuffle (coveredDevicesIdx state) e) as [l e1].
      simpl in Hperm.
      destruct (for_each _ _ l) as [[[ds ss] e2] | |] eqn:Hloop; simpl in H;
        try done.
      destruct (calculateMetrics ds ss _) as [m | |]; simpl in H; try done.
      injection H as <- <-. simpl. intros j Hj.
      apply (for_each_untouched
               (λ s : list Device * list Server * Engine, s.1.1)
               randomHeuristic_body l) with (j := j) in Hloop;
        [done | | by rewrite Hperm].
      intros [[ds0 ss0] e0] x [[ds1 ss1] e3] j0 Hb Hne. simpl.
      apply randomHeuristic_body_cases in Hb
        as [[-> _] | (device & c & Hd & _ & Hcommit)]; [done |].
      by eapply committed_lookup.
    + unfold greedyHeuristic, greedy_order in H.
      destruct (sortEntities _ _ _ _) as [l | |] eqn:Hsort; simpl in H;
        try done.
      destruct (for_each _ _ l) as [[ds ss] | |] eqn:Hloop; simpl in H;
        try done.
      destruct (calculateMetrics ds ss _) as [m | |]; simpl in H; try done.
      injection H as <-. simpl. intros j Hj.
      apply (for_each_untouched (λ s : list Device * list Server, s.1)
               (greedyHeuristic_body b) l) with (j := j) in Hloop; [done | |].
      * intros [ds0 ss0] x [ds1 ss1] j0 Hb Hne. simpl.
        apply greedyHeuristic_body_cases in Hb as (device & Hd & Hcases).
        cbv zeta in Hcases.
        destruct Hcases as [(-> & _) | (before & c & after & _ & _ & Hcommit)].
        -- apply vat_vset_other; [done | by eapply vat_nonneg].
        -- by eapply committed_lookup.
      * apply sortEntities_Ok in Hsort as [[-> _] | [-> _]];
          [by intros ?%elem_of_nil | by rewrite sort_Permutation].
    + by apply simulatedAnnealing_inv in H as (_ & _ & _ & _ & -> & _).
  - intros devices servers_ covered_ cns csu e devices' servers' cns' csu' e'
      H. split; [| by eapply generateNeighbor_untouched].
    apply generateNeighbor_step in H as [Hd _]. simpl in Hd. symmetry.
    by eapply Forall2_length.
Qed.

(* ===================================================================== *)
(** * The greedy scan *)
(* ===================================================================== *)

Lemma responseTime_comp_le asc a b :
  responseTime_comp asc b a = false ↔ responseTime_le asc a b.
Proof.
  unfold responseTime_comp, responseTime_le, Qcltb.
  destruct asc; rewrite bool_decide_eq_false; split;
    try apply Qcnot_lt_le; intros H Hlt; by apply Qcle_not_lt in H.
Qed.

Lemma StronglySorted_impl {A} (R R' : A → A → Prop) l :
  (∀ x y, R x y → R' x y) → StronglySorted R l → StronglySorted R' l.
Proof.
  intros HR. induction 1 as [| x l Hl IH Hx]; constructor; [done |].
  eapply List.Forall_impl; [| exact Hx]. intros y. apply HR.
Qed.

Lemma sort_responseTime asc l :
  StronglySorted (responseTime_le asc) (sort (responseTime_comp asc) l).
Proof.
  eapply StronglySorted_impl;
    [| apply (sort_StronglySorted (responseTime_comp asc))].
  - intros x y. apply responseTime_comp_le.
  - intros x y Hc. unfold responseTime_comp, Qcltb in *.
    destruct asc; apply bool_decide_eq_true in Hc;
      apply bool_decide_eq_false; intros Hlt;
      apply Qclt_le_weak in Hc; by apply Qcle_not_lt in Hc.
  - intros x y z. rewrite !responseTime_comp_le.
    unfold responseTime_le. destruct asc; intros; by etransitivity.
Qed.

(** What one pass of the Greedy loop leaves at the visited position. *)
Lemma greedyHeuristic_body_visited asc devices servers_ d_idx devices'
    servers' :
  greedyHeuristic_body asc (devices, servers_) d_idx
    = Ok (devices', servers') →
  ∃ device device',
    vat devices d_idx = Ok device ∧ vat devices' d_idx = Ok device' ∧
    servers device' = sort (responseTime_comp asc) (servers device) ∧
    ((Forall (cannot_serve servers_ device) (servers device') ∧
      servers' = servers_ ∧ served device' = served device ∧
      server device' = server device) ∨
     ∃ before c after sv sv',
       servers device' = before ++ c :: after ∧
       Forall (cannot_serve servers_ device) before ∧
       vat servers_ (sc_id c) = Ok sv ∧ canServe sv device = true ∧
       server device' = c ∧
       vat servers' (sc_id c) = Ok sv' ∧
       d_id device ∈ devices_served (supply sv')).
Proof.
  intros H.
  apply greedyHeuristic_body_cases in H as (device & Hd & Hcases).
  cbv zeta in Hcases. exists device.
  destruct Hcases as [(-> & -> & Hall)
                     | (before & c & after & Heq & Hall & Hcommit)].
  - eexists. split; [done |]. split; [by eapply vat_vset_eq |].
    split; [done |]. left. by repeat split.
  - destruct Hcommit as (sv & b & sv' & device' & Hsv & Hcan & Hadd & -> & ->).
    eexists. split; [done |]. split; [by eapply vat_vset_eq |].
    destruct (addServed_static _ _ _ _ _ Hadd) as (_ & _ & _ & Hc).
    simpl. split; [by rewrite Hc |]. right.
    exists before, c, after, sv, sv'. rewrite Hc.
    repeat (split; [done |]). split; [by eapply vat_vset_eq |].
    unfold addServed in Hadd. simpl in Hadd.
    case_bool_decide as Hin; injection Hadd as <- <- <-; [done |].
    simpl. set_solver.
Qed.

(** X12.  One pass of the Greedy loop sorts the candidate list of the
    visited device by response time and commits the device to the first
    candidate, in that order, whose server passes [canServe]: every
    candidate before it was refused, the link is set to it, and its
    server holds the device afterwards.  When every candidate is
    refused, the servers, the served flag and the link stay as they
    were. *)
Theorem greedy_commits_first_feasible asc devices servers_ d_idx devices'
    servers' :
  greedyHeuristic_body asc (devices, servers_) d_idx
    = Ok (devices', servers') →
  ∃ device device',
    vat devices d_idx = Ok device ∧ vat devices' d_idx = Ok device' ∧
    servers device' ≡ₚ servers device ∧
    StronglySorted (responseTime_le asc) (servers device') ∧
    ((Forall (cannot_serve servers_ device) (servers device') ∧
      servers' = servers_ ∧ served device' = served device ∧
      server device' = server device) ∨
     ∃ before c after sv sv',
       servers device' = before ++ c :: after ∧
       Forall (cannot_serve servers_ device) before ∧
       vat servers_ (sc_id c) = Ok sv ∧ canServe sv device = true ∧
       server device' = c ∧
       vat servers' (sc_id c) = Ok sv' ∧
       d_id device ∈ devices_served (supply sv')).
Proof.
  intros H. apply greedyHeuristic_body_visited in H
    as (device & device' & Hd & Hd' & Hsort & Hcases).
  exists device, device'. repeat (split; [done |]).
  rewrite Hsort. split; [apply sort_Permutation |].
  split; [apply sort_responseTime | by rewrite <- Hsort].
Qed.

Lemma for_each_established {A S} (P : A → S → Prop)
    (body : S → A → result S) (l : list A) :
  (∀ s x s', body s x = Ok s' → P x s' ∧ ∀ y, P y s → P y s') →
  ∀ s s', for_each body s l = Ok s' → ∀ x, x ∈ l → P x s'.
Proof.
  intros Hbody.
  assert (∀ s s', for_each body s l = Ok s' →
                  (∀ y, P y s → P y s') ∧ ∀ x, x ∈ l → P x s') as Hboth.
  { induction l as [| x l IH]; intros s s' H; simpl in H.
    - injection H as <-. split; [done |]. by intros x ?%elem_of_nil.
    - destruct (body s x) as [s1 | |] eqn:Hs1; simpl in H; try done.
      destruct (Hbody _ _ _ Hs1) as [Hx Hkeep1].
      destruct (IH _ _ H) as [Hkeep Hl]. split; [by auto |].
      intros y [-> | Hy]%elem_of_cons; auto. }
  intros s s' H. exact (proj2 (Hboth s s' H)).
Qed.

(** X13.  After the Greedy heuristic the candidate list of every covered
    device is sorted by response time, ascending or descending as the
    server flag asks. *)
Theorem greedy_sorts_candidates state sortDevicesAsc sortServersAsc state' :
  greedyHeuristic state sortDevicesAsc sortServersAsc = Ok state' →
  ∀ i d', i ∈ coveredDevicesIdx state →
          vat (r_devices state') i = Ok d' →
          StronglySorted (responseTime_le sortServersAsc) (servers d').
Proof.
  unfold greedyHeuristic, greedy_order. intros H i d' Hi Hd'.
  destruct (sortEntities _ _ _ _) as [l | |] eqn:Hsort; simpl in H;
    try done.
  destruct (for_each _ _ l) as [[ds ss] | |] eqn:Hloop; simpl in H;
    try done.
  destruct (calculateMetrics ds ss _) as [m | |]; simpl in H; try done.
  injection H as <-. simpl in Hd'.
  apply sortEntities_Ok in Hsort as [[-> [Hnil | Hnil]] | [-> _]].
  - simpl in Hloop. injection Hloop as <- <-. rewrite Hnil in Hd'.
    by apply vat_Ok in Hd' as [_ ?].
  - rewrite Hnil in Hi. by apply elem_of_nil in Hi.
  - refine (for_each_established
              (λ i (s : list Device * list Server),
                 ∀ d, vat s.1 i = Ok d →
                      StronglySorted (responseTime_le sortServersAsc)
                                     (servers d))
              (greedyHeuristic_body sortServersAsc) _ _ _ _ Hloop i _ d' Hd');
      [| by rewrite sort_Permutation].
    clear. intros [ds ss] x [ds' ss'] Hb. simpl.
    pose proof Hb as Hb'.
    apply greedyHeuristic_body_visited in Hb
      as (device & device' & Hd & Hd' & Hsort & _).
    split.
    + intros d Hdx. rewrite Hd' in Hdx. injection Hdx as <-.
      rewrite Hsort. apply sort_responseTime.
    + intros y Hy d Hdy. destruct (decide (y = x)) as [-> | Hne].
      * rewrite Hd' in Hdy. injection Hdy as <-.
        rewrite Hsort. apply sort_responseTime.
      * apply Hy. rewrite <- Hdy. symmetry.
        apply greedyHeuristic_body_cases in Hb' as (device0 & Hd0 & Hcases).
        cbv zeta in Hcases.
        destruct Hcases as [(-> & _) | (before & c & after & _ & _ & Hcommit)].
        -- apply vat_vset_other; [done | by eapply vat_nonneg].
        -- by eapply committed_lookup.
Qed.
(* ===================================================================== *)
(** * The trials of the meta-heuristic *)
(* ===================================================================== *)

Lemma ready_consistent state :
  ready state → real_servers (r_servers state) →
  consistent (r_devices state) (r_servers state) ∧
  accountable (r_devices state) (r_servers state) (coveredDevicesIdx state).
Proof.
  intros (Hv & Hnd & Hids & Hun & Hmem & Hcands) Hreal.
  destruct (unassigned_consistent _ _ (ids_by_position_distinct _ Hids) Hun)
    as [Hcons Hlegal].
  split; [done |]. split; [done |]. split.
  - eapply List.Forall_impl; [| exact Hcands].
    intros d Hd. unfold candidates_real.
    eapply List.Forall_impl; [| exact Hd].
    intros c Hc sv Hsv. exact (Hreal _ _ Hc Hsv).
  - apply Forall_forall. intros i (Hi & d & Hd & Hc)%Hmem d0 Hd0.
    rewrite Hd in Hd0. injection Hd0 as <-.
    rewrite (Hids i d Hd). split; [lia | done].
Qed.


Lemma heuristic_completes_covered k state state' :
  k ≠ SimulatedAnnealing → completes k state state' →
  coveredDevicesIdx state' = coveredDevicesIdx state ∧
  calculateMetrics (r_devices state') (r_servers state') (metrics state)
    = Ok (metrics state').
Proof.
  intros Hk Hrun.
  destruct Hrun as [st e st' e' H | st a b st' H | ? ? ? ? ? ? ? ? ? H];
    [| | done].
  - unfold randomHeuristic in H.
    destruct (shuffle (coveredDevicesIdx st) e) as [l e1].
    destruct (for_each _ _ l) as [[[ds ss] e2] | |]; simpl in H; try done.
    destruct (calculateMetrics ds ss _) as [m | |] eqn:Hm; simpl in H;
      try done.
    by injection H as <- <-.
  - unfold greedyHeuristic in H.
    destruct (greedy_order st a) as [l | |]; simpl in H; try done.
    destruct (for_each _ _ l) as [[ds ss] | |]; simpl in H; try done.
    destruct (calculateMetrics ds ss _) as [m | |] eqn:Hm; simpl in H;
      try done.
    by injection H as <-.
Qed.

(** A heuristic run on a ready state leaves a consistent, accountable
    state whose metrics are those of its vectors. *)
Lemma ready_heuristic k state state' :
  ready state → real_servers (r_servers state) →
  k ≠ SimulatedAnnealing → completes k state state' →
  consistent (r_devices state') (r_servers state') ∧
  accountable (r_devices state') (r_servers state')
              (coveredDevicesIdx state') ∧
  calculateMetrics (r_devices state') (r_servers state') (metrics state')
    = Ok (metrics state') ∧
  cost_of_non_coverage (outputs (metrics state'))
  = cost_of_non_coverage (outputs (metrics state)) ∧
  inputs (metrics state') = inputs (metrics state).
Proof.
  intros Hready Hreal Hk Hrun.
  destruct (ready_consistent _ Hready Hreal) as [_ (_ & Hcr & Hcov)].
  destruct Hready as (_ & Hnd & Hids & Hun & _).
  destruct (heuristic_completes_inv k state state' Hk Hrun
              (ids_by_position_distinct _ Hids) Hnd Hun) as [Hcons Hlegal].
  destruct (heuristic_completes_covered k state state' Hk Hrun)
    as [Hc Hm].
  pose proof (completes_step _ _ _ Hrun) as [Hds Hss]. simpl in Hds, Hss.
  apply server_steps_same in Hss.
  split; [done |]. split; [| split; [| split]].
  - rewrite Hc. split; [done |]. split.
    + by eapply candidates_real_step.
    + by eapply covered_real_step.
  - by eapply calculateMetrics_fixpoint.
  - by apply calculateMetrics_sums in Hm as (_ & _ & ? & _).
  - by apply calculateMetrics_sums in Hm
      as (_ & _ & _ & _ & _ & _ & _ & _ & _ & _ & ? & _).
Qed.






(* ===================================================================== *)
(** * Files: what is written is read back *)
(* ===================================================================== *)

Lemma append_cons a s t :
  String.append (String a s) t = String a (String.append s t).
Proof. reflexivity. Qed.

Lemma append_nil_l t : String.append EmptyString t = t.
Proof. reflexivity. Qed.

Lemma append_push_back s c t :
  String.append (push_back s c) t = String.append s (String c t).
Proof.
  unfold push_back. induction s as [| a s IH]; [done |].
  by rewrite !append_cons, IH.
Qed.

Lemma append_nil_r s : String.append s EmptyString = s.
Proof.
  induction s as [| a s IH]; [done |]. by rewrite append_cons, IH.
Qed.

Lemma append_nonempty s t :
  s ≠ EmptyString → String.append s t ≠ EmptyString.
Proof. by destruct s. Qed.

Lemma chars_append s t : chars (String.append s t) = chars s ++ chars t.
Proof.
  induction s as [| a s IH]; [done |]. rewrite append_cons. simpl.
  by rewrite IH.
Qed.

(** Reading a piece that holds no delimiter. *)
Lemma getline_pieces_piece delim cur piece rest :
  Forall (λ c, c ≠ delim) (chars piece) →
  getline_pieces delim cur (String.append piece (String delim rest))
  = String.append cur piece
    :: match rest with
       | EmptyString => []
       | _ => getline_pieces delim EmptyString rest
       end.
Proof.
  revert cur. induction piece as [| c piece IH]; intros cur Hp.
  - rewrite append_nil_l, append_nil_r. simpl. by rewrite Ascii.eqb_refl.
  - apply Forall_cons_1 in Hp as [Hc Hp]. rewrite append_cons. simpl.
    destruct (Ascii.eqb_spec c delim) as [| _]; [done |].
    rewrite IH by done. by rewrite append_push_back.
Qed.

Lemma getline_pieces_last delim cur piece :
  Forall (λ c, c ≠ delim) (chars piece) →
  getline_pieces delim cur piece = [String.append cur piece].
Proof.
  revert cur. induction piece as [| c piece IH]; intros cur Hp; simpl.
  - by rewrite append_nil_r.
  - apply Forall_cons_1 in Hp as [Hc Hp].
    destruct (Ascii.eqb_spec c delim) as [| _]; [done |].
    rewrite IH by done. by rewrite append_push_back.
Qed.

Lemma join_cons2 sep x y l :
  join sep (x :: y :: l)
  = String.append x (String sep (join sep (y :: l))).
Proof. reflexivity. Qed.

Lemma join_nonempty sep l :
  l ≠ [] → Forall (λ x, x ≠ EmptyString) l → join sep l ≠ EmptyString.
Proof.
  destruct l as [| x [| y l]]; [done | |]; intros _ [Hx _]%Forall_cons_1.
  - done.
  - rewrite join_cons2. by apply append_nonempty.
Qed.

(** Pieces without the delimiter, none of them empty, joined and read
    back. *)
Lemma getline_loop_join delim l :
  Forall (λ x, x ≠ EmptyString ∧ Forall (λ c, c ≠ delim) (chars x)) l →
  getline_loop delim (join delim l) = l.
Proof.
  induction l as [| x l IH]; [done |].
  intros [[Hx Hcx] Hl]%Forall_cons_1. specialize (IH Hl).
  destruct l as [| y l].
  - simpl. unfold getline_loop. destruct x as [| c x]; [done |].
    by rewrite getline_pieces_last.
  - rewrite join_cons2. unfold getline_loop in *.
    destruct (String.append x _) as [| c0 s0] eqn:Happ.
    { by destruct x. }
    rewrite <- Happ, getline_pieces_piece, append_nil_l by done.
    f_equal. exact IH.
Qed.

Lemma extract_words_word cur word rest c :
  Forall (λ c, isspace c = false) (chars word) →
  isspace c = true → String.append cur word ≠ EmptyString →
  extract_words cur (String.append word (String c rest))
  = String.append cur word :: extract_words EmptyString rest.
Proof.
  revert cur. induction word as [| a word IH]; intros cur Hw Hc Hne.
  - rewrite append_nil_l. rewrite append_nil_r in *. simpl. rewrite Hc.
    by destruct cur.
  - apply Forall_cons_1 in Hw as [Ha Hw]. rewrite append_cons. simpl.
    rewrite Ha.
    rewrite IH; [by rewrite append_push_back | done | done |].
    by rewrite append_push_back.
Qed.

Lemma extract_words_last cur word :
  Forall (λ c, isspace c = false) (chars word) →
  String.append cur word ≠ EmptyString →
  extract_words cur word = [String.append cur word].
Proof.
  revert cur. induction word as [| a word IH]; intros cur Hw Hne; simpl.
  - rewrite append_nil_r in *. by destruct cur.
  - apply Forall_cons_1 in Hw as [Ha Hw]. rewrite Ha.
    rewrite IH; [by rewrite append_push_back | done |].
    by rewrite append_push_back.
Qed.

Lemma extract_words_join l :
  Forall (λ x, x ≠ EmptyString ∧
               Forall (λ c, isspace c = false) (chars x)) l →
  extract_words EmptyString (join " " l) = l.
Proof.
  induction l as [| x l IH]; [done |].
  intros [[Hx Hcx] Hl]%Forall_cons_1. specialize (IH Hl).
  destruct l as [| y l].
  - simpl. by rewrite extract_words_last.
  - rewrite join_cons2, extract_words_word, append_nil_l by done.
    by rewrite IH.
Qed.

Lemma chars_join sep l (P : ascii → Prop) :
  P sep → Forall (λ x, Forall P (chars x)) l → Forall P (chars (join sep l)).
Proof.
  intros Hsep. induction 1 as [| x l Hx Hl IH]; [constructor |].
  destruct l as [| y l]; [done |].
  rewrite join_cons2, chars_append. apply Forall_app. split; [done |].
  simpl. by constructor.
Qed.

Lemma plain_table_lines delimiter data :
  delimiter ≠ newline → plain_table delimiter data →
  Forall (λ x, x ≠ EmptyString ∧ Forall (λ c, c ≠ newline) (chars x))
         (map (join delimiter) data).
Proof.
  intros Hd H. apply Forall_fmap. eapply List.Forall_impl; [| exact H].
  intros row [Hne Hcells]. simpl. split.
  - apply join_nonempty; [done |].
    eapply List.Forall_impl; [| exact Hcells]. by intros c [? _].
  - apply chars_join; [done |].
    eapply List.Forall_impl; [| exact Hcells].
    intros cell [_ Hcell]. eapply List.Forall_impl; [| exact Hcell].
    by intros c (_ & ? & _).
Qed.

Lemma read_row_join delimiter row :
  Forall (plain_cell delimiter) row →
  (if Ascii.eqb delimiter " " then extract_words EmptyString
                                                 (join delimiter row)
   else getline_loop delimiter (join delimiter row)) = row.
Proof.
  intros Hrow. destruct (Ascii.eqb_spec delimiter " ") as [-> | Hne].
  - apply extract_words_join. eapply List.Forall_impl; [| exact Hrow].
    intros cell [Hcell Hc]. split; [done |].
    eapply List.Forall_impl; [| exact Hc]. intros c (_ & _ & Hsp). by apply Hsp.
  - apply getline_loop_join. eapply List.Forall_impl; [| exact Hrow].
    intros cell [Hcell Hc]. split; [done |].
    eapply List.Forall_impl; [| exact Hc]. by intros c (? & _).
Qed.

Lemma FileManager_write_read has_parent_path create_directories is_open
    files filePath data delimiter files' :
  FileManager_write has_parent_path create_directories is_open files
                    filePath data delimiter = write_returns true files' →
  delimiter ≠ newline → plain_table delimiter data →
  FileManager_read files' filePath delimiter = Some data ∧
  ∀ p, p ≠ filePath → files' p = files p.
Proof.
  unfold FileManager_write.
  destruct (has_parent_path filePath && negb (create_directories filePath));
    [done |].
  destruct (is_open filePath); [| done].
  intros [= <-] Hd Hdata. split.
  - unfold FileManager_read. rewrite String.eqb_refl. f_equal.
    rewrite getline_loop_join by by apply plain_table_lines.
    rewrite map_map. clear Hd.
    induction Hdata as [| row data [Hne Hrow] _ IH]; [done |]. simpl.
    rewrite read_row_join by done.
    rewrite bool_decide_eq_false_2 by done. simpl. by rewrite IH.
  - intros p Hp. by destruct (String.eqb_spec p filePath).
Qed.
(* ===================================================================== *)
(** * The loaders *)
(* ===================================================================== *)

Lemma load_rows_Ok {A} (parse : list string → option A) rows loaded r :
  load_rows parse rows loaded = Ok r →
  r = loaded ++ omap (data_row parse) rows.
Proof.
  revert loaded. induction rows as [| row rows IH]; intros loaded; simpl.
  - intros [= <-]. by rewrite app_nil_r.
  - destruct row as [| cell row]; [done |]. simpl.
    destruct (String.eqb cell "#"); [by apply IH |].
    destruct (parse (cell :: row)) as [x |] eqn:Hp; [| by apply IH].
    intros ->%IH. by rewrite <- app_assoc.
Qed.

Lemma Forall_data_rows {A} (parse : list string → option A) (P : A → Prop)
    rows :
  (∀ row x, parse row = Some x → P x) →
  Forall P (omap (data_row parse) rows).
Proof.
  intros HP. apply Forall_forall. intros x (row & _ & Hx)%list_elem_of_omap.
  destruct row as [| cell row]; [done |]. simpl in Hx.
  destruct (String.eqb cell "#"); [done |]. by eapply HP.
Qed.

Lemma load_rows_total {A} (parse : list string → option A) rows loaded :
  Forall (λ row, row ≠ []) rows → ∃ r, load_rows parse rows loaded = Ok r.
Proof.
  intros H. revert loaded.
  induction H as [| row rows Hrow _ IH]; intros loaded; simpl; [eauto |].
  destruct row as [| cell row]; [done |].
  destruct (String.eqb cell "#"); [done |].
  destruct (parse (cell :: row)); done.
Qed.

Lemma load_rows_empty_row {A} (parse : list string → option A) rows loaded :
  [] ∈ rows → load_rows parse rows loaded = Throw out_of_range.
Proof.
  revert loaded. induction rows as [| row rows IH]; intros loaded Hin.
  - by apply elem_of_nil in Hin.
  - simpl. destruct row as [| cell row]; [done |].
    apply elem_of_cons in Hin as [| Hin]; [done |].
    destruct (String.eqb cell "#"); [by apply IH |].
    destruct (parse (cell :: row)); by apply IH.
Qed.

Lemma parse_device_constructed stoi stod row d :
  parse_device stoi stod row = Some d → constructed_device d.
Proof.
  unfold parse_device. intros H. simplify_option_eq. by repeat split.
Qed.

Lemma parse_server_constructed stoi stod type_ row s :
  parse_server stoi stod type_ row = Some s →
  constructed_server s ∧ s_type s = type_ ∧
  pcc_total s = pcc_per_core s * Q2Qc (inject_Z (s_pcn s)).
Proof.
  unfold parse_server. intros H. simplify_option_eq. by repeat split.
Qed.

(** The rows returned by [FileManager::read] have at least one cell. *)
Lemma FileManager_read_rows files filePath delimiter data :
  FileManager_read files filePath delimiter = Some data →
  Forall (λ row, row ≠ []) data.
Proof.
  unfold FileManager_read. destruct (files filePath) as [content |]; [| done].
  intros [= <-]. apply Forall_forall. intros row Hin.
  apply list_elem_of_In, filter_In in Hin as [_ Hrow].
  apply negb_true_iff in Hrow. by apply bool_decide_eq_false in Hrow.
Qed.

Lemma load_rows_all {A} (parse : list string → option A) rows loaded :
  [] ∉ rows →
  load_rows parse rows loaded = Ok (loaded ++ omap (data_row parse) rows).
Proof.
  intros Hrows.
  destruct (load_rows_total parse rows loaded) as [r Hr].
  { apply Forall_forall. intros row Hin ->. by apply Hrows. }
  rewrite Hr. f_equal. by apply load_rows_Ok.
Qed.

Lemma FileManager_read_no_empty_row files filePath delimiter data :
  FileManager_read files filePath delimiter = Some data → [] ∉ data.
Proof.
  intros Hread Hin.
  by apply (proj1 (Forall_forall _ _) (FileManager_read_rows _ _ _ _ Hread))
    in Hin.
Qed.

(** X15.  The loaders.  [loadDevices] returns the empty vector when the
    table has at most one row.  On a longer table it throws
    [out_of_range] when some row has no cell, and otherwise returns the
    placeholder followed, in row order, by one device for every row
    that is not a header and parses, every device as the constructor
    leaves it (not covered, not served, no candidates, bandwidth 0); a
    row that does not parse is skipped.  [loadServers] likewise returns
    the empty vector when one of its two tables has at most one row; on
    longer tables it throws [out_of_range] when some row of either has
    no cell, and otherwise returns the placeholder, then the edge
    servers, then the cloud servers, every one as the constructor
    leaves it (off, nothing served) with its type.  On tables returned
    by [FileManager::read] neither loader throws. *)
Theorem loaders_construct stoi stod :
  let devices_of strDevices :=
    Device0 :: omap (data_row (parse_device stoi stod)) strDevices in
  let edges_of strServerEC :=
    omap (data_row (parse_server stoi stod "E")) strServerEC in
  let clouds_of strServerCC :=
    omap (data_row (parse_server stoi stod "C")) strServerCC in
  (∀ strDevices,
     loadDevices stoi stod strDevices
     = if (length strDevices <=? 1)%nat then Ok []
       else if bool_decide ([] ∈ strDevices) then Throw out_of_range
       else Ok (devices_of strDevices)) ∧
  (∀ strDevices, Forall constructed_device (devices_of strDevices)) ∧
  (∀ strServerEC strServerCC,
     loadServers stoi stod strServerEC strServerCC
     = if (length strServerEC <=? 1)%nat || (length strServerCC <=? 1)%nat
       then Ok []
       else if bool_decide ([] ∈ strServerEC ∨ [] ∈ strServerCC)
       then Throw out_of_range
       else Ok (Server0 :: edges_of strServerEC ++ clouds_of strServerCC)) ∧
  (∀ strServerEC strServerCC,
     Forall constructed_server
            (Server0 :: edges_of strServerEC ++ clouds_of strServerCC) ∧
     Forall (λ s, s_type s = "E"%char) (edges_of strServerEC) ∧
     Forall (λ s, s_type s = "C"%char) (clouds_of strServerCC)) ∧
  (∀ files filePath delimiter strDevices,
     FileManager_read files filePath delimiter = Some strDevices →
     ∃ devices, loadDevices stoi stod strDevices = Ok devices) ∧
  (∀ files pathEC pathCC delimiter strServerEC strServerCC,
     FileManager_read files pathEC delimiter = Some strServerEC →
     FileManager_read files pathCC delimiter = Some strServerCC →
     ∃ servers_,
       loadServers stoi stod strServerEC strServerCC = Ok servers_).
Proof.
  intros devices_of edges_of clouds_of.
  assert (∀ strDevices,
     loadDevices stoi stod strDevices
     = if (length strDevices <=? 1)%nat then Ok []
       else if bool_decide ([] ∈ strDevices) then Throw out_of_range
       else Ok (devices_of strDevices)) as Hdev.
  { intros rows. unfold loadDevices.
    destruct (length rows <=? 1)%nat; [done |].
    case_bool_decide as Hin; [by apply load_rows_empty_row |].
    by rewrite load_rows_all. }
  assert (∀ strServerEC strServerCC,
     loadServers stoi stod strServerEC strServerCC
     = if (length strServerEC <=? 1)%nat || (length strServerCC <=? 1)%nat
       then Ok []
       else if bool_decide ([] ∈ strServerEC ∨ [] ∈ strServerCC)
       then Throw out_of_range
       else Ok (Server0 :: edges_of strServerEC ++ clouds_of strServerCC))
    as Hsrv.
  { intros ec cc. unfold loadServers.
    destruct ((length ec <=? 1)%nat || (length cc <=? 1)%nat); [done |].
    destruct (decide ([] ∈ ec)) as [Hec | Hec].
    { rewrite load_rows_empty_row by done.
      by rewrite bool_decide_eq_true_2 by by left. }
    rewrite load_rows_all by done. cbn [mbind result_bind].
    destruct (decide ([] ∈ cc)) as [Hcc | Hcc].
    { rewrite load_rows_empty_row by done.
      by rewrite bool_decide_eq_true_2 by by right. }
    rewrite load_rows_all by done.
    rewrite bool_decide_eq_false_2 by tauto.
    by rewrite <- app_assoc. }
  split; [exact Hdev |]. split; [| split; [exact Hsrv |]; split; [| split]].
  - intros rows. constructor; [by repeat split |].
    apply Forall_data_rows. intros row d. apply parse_device_constructed.
  - intros ec cc.
    assert (∀ t rows, Forall (λ s, constructed_server s ∧ s_type s = t)
                        (omap (data_row (parse_server stoi stod t)) rows))
      as Hall.
    { intros t rows. apply Forall_data_rows. intros row s Hs.
      by destruct (parse_server_constructed _ _ _ _ _ Hs) as (? & ? & _). }
    split; [| split].
    + constructor; [by repeat split |]. apply Forall_app. split.
      * eapply List.Forall_impl; [| exact (Hall "E"%char ec)].
        by intros s [? _].
      * eapply List.Forall_impl; [| exact (Hall "C"%char cc)].
        by intros s [? _].
    + eapply List.Forall_impl; [| exact (Hall "E"%char ec)].
      by intros s [_ ?].
    + eapply List.Forall_impl; [| exact (Hall "C"%char cc)].
      by intros s [_ ?].
  - intros files filePath delimiter rows Hread. rewrite Hdev.
    destruct (length rows <=? 1)%nat; [eauto |].
    rewrite bool_decide_eq_false_2
      by by eapply FileManager_read_no_empty_row.
    eauto.
  - intros files pathEC pathCC delimiter ec cc Hec Hcc. rewrite Hsrv.
    destruct ((length ec <=? 1)%nat || (length cc <=? 1)%nat); [eauto |].
    apply FileManager_read_no_empty_row in Hec, Hcc.
    rewrite bool_decide_eq_false_2 by tauto. eauto.
Qed.

(** X16.  Round trip through a file.  [FileManager::write] ends in one
    of three ways: [std::filesystem::filesystem_error] leaves it when
    the path has a parent path whose directories cannot be created;
    otherwise it returns false, with the contents of all files as they
    were, when the stream does not open, and true when it does.  After
    a call that returned true, a table whose rows have at least one
    cell and whose cells are not empty and hold neither the delimiter
    nor a line break (nor, when the delimiter is the space, any white
    space) is read back by [FileManager::read] exactly as it was
    written, with the same delimiter; the file is replaced and the
    content of no other file changes.  A file that does not exist reads
    as [std::nullopt]. *)
Theorem FileManager_roundtrip has_parent_path create_directories is_open
    files filePath data delimiter :
  delimiter ≠ newline → plain_table delimiter data →
  let outcome :=
    FileManager_write has_parent_path create_directories is_open files
                      filePath data delimiter in
  (outcome = filesystem_error ↔
   has_parent_path filePath = true ∧ create_directories filePath = false) ∧
  (outcome = write_returns false files ↔
   (has_parent_path filePath = false ∨ create_directories filePath = true) ∧
   is_open filePath = false) ∧
  ((∃ files', outcome = write_returns true files') ↔
   (has_parent_path filePath = false ∨ create_directories filePath = true) ∧
   is_open filePath = true) ∧
  (∀ written files',
     outcome = write_returns written files' →
     if written
     then FileManager_read files' filePath delimiter = Some data ∧
          ∀ p, p ≠ filePath → files' p = files p
     else files' = files) ∧
  (files filePath = None →
   FileManager_read files filePath delimiter = None).
Proof.
  intros Hd Hdata outcome.
  split; [| split; [| split; [| split]]].
  - unfold outcome, FileManager_write.
    destruct (has_parent_path filePath), (create_directories filePath),
      (is_open filePath); simpl; split; try done; intros [? ?]; done.
  - unfold outcome, FileManager_write.
    destruct (has_parent_path filePath), (create_directories filePath),
      (is_open filePath); simpl; split; try done;
      try (intros [[? | ?] ?]; done); try (intros _; split; [auto | done]).
  - unfold outcome, FileManager_write.
    destruct (has_parent_path filePath), (create_directories filePath),
      (is_open filePath); simpl; split;
      try (intros [? ?]; done); try (intros [[? | ?] ?]; done);
      try (intros _; split; [auto | done]); intros _; eauto.
  - intros written files' H. destruct written.
    + by eapply FileManager_write_read.
    + unfold outcome, FileManager_write in H.
      destruct (has_parent_path filePath && negb (create_directories filePath));
        [done |].
      destruct (is_open filePath); [done |]. by injection H as <-.
  - intros Hf. unfold FileManager_read. by rewrite Hf.
Qed.
(* ===================================================================== *)
(** * The bottleneck scenario *)
(* ===================================================================== *)

Lemma createBottleneck_loop_spec loop i idx values devices devices' :
  createBottleneck_loop loop i idx values devices = Some devices' →
  length devices' = length devices ∧
  ∀ p d', devices' !! p = Some d' →
    ∃ d, devices !! p = Some d ∧
      ((d' = d ∧
        ∀ j, (i ≤ j < i + loop)%nat → idx !! j ≠ Some (Z.of_nat p)) ∨
       ∃ j v, (i ≤ j < i + loop)%nat ∧ idx !! j = Some (Z.of_nat p) ∧
              values !! j = Some v ∧
              d' = set_bottleneck
                     (Q2Qc (inject_Z v.1) * dec 999999 1000000)
                     (Q2Qc (inject_Z v.2) * dec 999999 1000000)
                     (dec 99 10) d).
Proof.
  revert i devices. induction loop as [| loop IH]; intros i devices; simpl.
  - intros H. simplify_eq. split; [done |].
    intros p d' Hp. exists d'. split; [done |]. left. split; [done |]. lia.
  - destruct (idx !! i) as [k |] eqn:Hk; simpl; [| done].
    destruct (values !! i) as [v |] eqn:Hv; simpl; [| done].
    destruct (Z.ltb_spec k 0) as [| Hk0]; [done |].
    destruct (devices !! Z.to_nat k) as [dk |] eqn:Hdk; simpl; [| done].
    intros H. apply IH in H as (Hlen & Hall). clear IH.
    rewrite length_insert in Hlen. split; [done |].
    intros p d' Hp. destruct (Hall p d' Hp) as (d1 & Hd1 & Hat). clear Hall.
    destruct (decide (p = Z.to_nat k)) as [-> | Hne].
    + rewrite list_lookup_insert_eq in Hd1 by by eapply lookup_lt_Some.
      simplify_eq. exists dk. split; [done |]. right.
      destruct Hat as [[-> Hno] | (j & v' & Hj & Hidx & Hcl & ->)].
      * exists i, v. split; [lia |]. split; [| done].
        rewrite Hk. f_equal. lia.
      * exists j, v'. split; [lia |]. by repeat split.
    + rewrite list_lookup_insert_ne in Hd1 by done.
      exists d1. split; [done |].
      destruct Hat as [[-> Hno] | (j & v' & Hj & Hidx & Hcl & ->)].
      * left. split; [done |]. intros j Hj.
        destruct (decide (j = i)) as [-> | Hji]; [| apply Hno; lia].
        rewrite Hk. intros [= ->]. lia.
      * right. exists j, v'. split; [lia |]. by repeat split.
Qed.


Lemma trunc_Some x z :
  trunc x = Some z → z = Z.quot (Qnum x) (Z.pos (Qden x)).
Proof.
  unfold trunc. cbv zeta.
  by destruct ((_ <=? _)%Z && (_ <=? _)%Z); intros [= <-].
Qed.

Lemma trunc_le x z : trunc x = Some z → 0 ≤ x → Q2Qc (inject_Z z) ≤ x.
Proof.
  intros ->%trunc_Some. destruct x as [[a b] Hcanon].
  unfold Qcle, Qle. simpl. intros Ha. rewrite Z.mul_1_r in Ha.
  assert (Qred (inject_Z (a ÷ Z.pos b)) = inject_Z (a ÷ Z.pos b)) as ->.
  { apply Qred_identity. simpl. apply Z.gcd_1_r. }
  simpl. rewrite Z.mul_1_r, Z.mul_comm. apply Z.mul_quot_le; lia.
Qed.

Lemma trunc_nonneg x z : trunc x = Some z → 0 ≤ x → 0 ≤ Q2Qc (inject_Z z).
Proof.
  intros ->%trunc_Some. destruct x as [[a b] Hcanon].
  unfold Qcle, Qle. simpl. intros Ha. rewrite Z.mul_1_r in Ha.
  assert (Qred (inject_Z (a ÷ Z.pos b)) = inject_Z (a ÷ Z.pos b)) as ->.
  { apply Qred_identity. simpl. apply Z.gcd_1_r. }
  simpl. assert (0 ≤ a)%Z as Ha' by lia.
  assert (0 ≤ a ÷ Z.pos b)%Z by (apply Z.quot_pos; lia). lia.
Qed.

Lemma bottleneck_fits (x : Qc) z :
  trunc x = Some z → 0 ≤ x → Q2Qc (inject_Z z) * dec 999999 1000000 ≤ x.
Proof.
  intros Hz Hx. pose proof (trunc_le x z Hz Hx) as Hle.
  pose proof (trunc_nonneg x z Hz Hx) as Hnn.
  set (y := Q2Qc (inject_Z z)) in *.
  assert (y * dec 999999 1000000 ≤ y * 1) as H1.
  { rewrite !(Qcmult_comm y). apply Qcmult_le_compat_r; [| done].
    by vm_compute. }
  rewrite Qcmult_1_r in H1. by etransitivity.
Qed.

Lemma createBottleneck_unfold state rb e :
  createBottleneck (Some state) rb e =
  (values ← mapM bottleneck_pair (bottleneck_servers state);
   if (in_servers_cc (inputs (metrics state)) <? 0)%Z then None
   else
     devices ← createBottleneck_loop
                 (Z.to_nat (in_servers_cc (inputs (metrics state)))) 0
                 (bottleneck_idx state rb e) values (r_devices state);
     Some ({| r_devices := devices; r_servers := r_servers state;
              coveredDevicesIdx := coveredDevicesIdx state;
              metrics := metrics state |},
           if rb then (shuffle (coveredDevicesIdx state) e).2 else e)).
Proof.
  unfold createBottleneck, bottleneck_idx. simpl.
  destruct (mapM _ _) as [values |]; simpl; [| done].
  destruct rb; [destruct (shuffle _ e) as [idx e1]; simpl |]; done.
Qed.

Lemma bottleneck_idx_Permutation state rb e :
  bottleneck_idx state rb e ≡ₚ coveredDevicesIdx state.
Proof.
  unfold bottleneck_idx. destruct rb; [apply shuffle_Permutation | done].
Qed.



Lemma bottleneck_frame_ready state devices' :
  Forall2 (λ d d', d' = d ∨ ∃ m s c, d' = set_bottleneck m s c d)
          (r_devices state) devices' →
  ready state →
  ready {| r_devices := devices'; r_servers := r_servers state;
           coveredDevicesIdx := coveredDevicesIdx state;
           metrics := metrics state |}.
Proof.
  intros HF ((Hv1 & Hv2 & Hv3) & Hnd & Hids & [Hu1 Hu2] & Hcov & Hreal).
  pose proof (Forall2_length _ _ _ HF) as Hlen.
  unfold ready, validated. simpl.
  split; [split; [| split] | split; [done | split; [| split; [| split]]]].
  - eapply List.Forall_impl; [| exact Hv1]. intros k. unfold in_range.
    by rewrite Hlen.
  - eapply Forall2_transfer; [| exact HF | exact Hv2].
    by intros d d' [-> | (m & s & c & ->)].
  - eapply List.Forall_impl; [| exact Hv3]. simpl. intros k Hk d' Hd'.
    destruct (Forall2_vat_r _ _ _ _ _ HF Hd') as (d & Hd & Hdd').
    specialize (Hk d Hd). by destruct Hdd' as [-> | (m & s & c & ->)].
  - eapply ids_by_position_Forall2; [| exact HF | exact Hids].
    by intros d d' [-> | (m & s & c & ->)].
  - split; [| done]. eapply Forall2_transfer; [| exact HF | exact Hu1].
    by intros d d' [-> | (m & s & c & ->)].
  - intros i. rewrite Hcov. apply and_iff_compat_l. split.
    + intros (d & Hd & Hc).
      destruct (Forall2_vat_l _ _ _ _ _ HF Hd) as (d' & Hd' & Hdd').
      exists d'. split; [done |]. by destruct Hdd' as [-> | (m & s & c & ->)].
    + intros (d' & Hd' & Hc).
      destruct (Forall2_vat_r _ _ _ _ _ HF Hd') as (d & Hd & Hdd').
      exists d. split; [done |]. by destruct Hdd' as [-> | (m & s & c & ->)].
  - eapply Forall2_transfer; [| exact HF | exact Hreal].
    by intros d d' [-> | (m & s & c & ->)].
Qed.

Lemma createBottleneck_effect state rb e state' e' :
  createBottleneck (Some state) rb e = Some (state', e') →
  r_servers state' = r_servers state ∧
  coveredDevicesIdx state' = coveredDevicesIdx state ∧
  metrics state' = metrics state ∧
  length (r_devices state') = length (r_devices state) ∧
  (∀ p d', r_devices state' !! p = Some d' →
     ∃ d, r_devices state !! p = Some d ∧
          bottleneck_at (bottleneck_idx state rb e) (bottleneck_servers state)
            (Z.to_nat (in_servers_cc (inputs (metrics state)))) p d d') ∧
  (ready state → ready state').
Proof.
  rewrite createBottleneck_unfold.
  destruct (mapM _ _) as [values |] eqn:Hv; simpl; [| done].
  apply mapM_Some in Hv.
  destruct (Z.ltb_spec (in_servers_cc (inputs (metrics state))) 0)
    as [| Hcc]; [done |].
  destruct (createBottleneck_loop _ _ _ _ _) as [devices |] eqn:Hloop;
    simpl; [| done].
  intros Heq. simplify_eq. simpl.
  apply createBottleneck_loop_spec in Hloop as [Hlen Hall].
  assert (∀ p d', devices !! p = Some d' →
     ∃ d, r_devices state !! p = Some d ∧
          bottleneck_at (bottleneck_idx state rb e) (bottleneck_servers state)
            (Z.to_nat (in_servers_cc (inputs (metrics state)))) p d d')
    as Hat.
  { intros p d' Hp. destruct (Hall p d' Hp) as (d & Hd & Hcase).
    exists d. split; [done |].
    destruct Hcase as [[-> Hno] | (j & v & Hj & Hidx & Hval & ->)].
    - left. split; [done |]. intros j Hj. apply Hno. lia.
    - right. destruct (Forall2_lookup_r _ _ _ _ _ Hv Hval) as (sv & Hsv & Hp').
      exists j, sv. split; [lia |]. split; [done |]. split; [done |].
      unfold bottleneck_pair in Hp'.
      destruct (trunc (s_mem sv)) as [m |] eqn:Hm; simpl in Hp'; [| done].
      destruct (trunc (s_sto sv)) as [s |] eqn:Hs; simpl in Hp'; [| done].
      simplify_eq. by exists m, s. }
  repeat (split; [done |]).
  apply bottleneck_frame_ready.
  apply Forall2_same_length_lookup_2; [done |].
  intros p d d' Hd Hd'. destruct (Hat p d' Hd') as (d0 & Hd0 & Hcase).
  simplify_eq.
  destruct Hcase as [[-> _] | (j & sv & _ & _ & _ & m & s & _ & _ & ->)];
    [by left | right; eauto].
Qed.

(** X18.  Where [createBottleneck] is defined it leaves the servers, the
    covered list and the metrics alone and keeps a ready state ready.
    It walks a permutation of the covered list (the list itself without
    the random flag); a device that none of the first [servers_cc]
    entries names is untouched, and a device that one of them names
    keeps everything but its cost, memory and storage: the cost becomes
    9.9, and memory and storage become 0.999999 times the whole part of
    the capacities of the cloud server paired with that entry, which
    for non-negative capacities is within them. *)
Theorem createBottleneck_rewrites state randomBottleneck e state' e' :
  createBottleneck (Some state) randomBottleneck e = Some (state', e') →
  r_servers state' = r_servers state ∧
  coveredDevicesIdx state' = coveredDevicesIdx state ∧
  metrics state' = metrics state ∧
  length (r_devices state') = length (r_devices state) ∧
  bottleneck_idx state randomBottleneck e ≡ₚ coveredDevicesIdx state ∧
  bottleneck_idx state false e = coveredDevicesIdx state ∧
  (∀ p d', r_devices state' !! p = Some d' →
     ∃ d, r_devices state !! p = Some d ∧
          bottleneck_at (bottleneck_idx state randomBottleneck e)
            (bottleneck_servers state)
            (Z.to_nat (in_servers_cc (inputs (metrics state)))) p d d') ∧
  (∀ sv d d', bottleneck_of sv d d' →
     same_device_but_demand d d' ∧ cnd d' = dec 99 10 ∧
     (0 ≤ s_mem sv → d_mem d' ≤ s_mem sv) ∧
     (0 ≤ s_sto sv → d_sto d' ≤ s_sto sv)) ∧
  (ready state → ready state').
Proof.
  intros H. apply createBottleneck_effect in H
    as (Hs & Hc & Hm & Hlen & Hat & Hready).
  repeat (split; [done |]).
  split; [apply bottleneck_idx_Permutation |].
  split; [done |]. split; [done |]. split; [| done].
  intros sv d d' (m & s & Hm' & Hs' & ->).
  split; [done |]. split; [done |]. simpl.
  split; intros H0; by apply bottleneck_fits.
Qed.
(* ===================================================================== *)
(** * Rounding and the commit/release round trip *)
(* ===================================================================== *)

Lemma exponent_spec n d : (0 < n)%Z → pow2_le (exponent n d) n d = true.
Proof.
  intros Hn. unfold exponent.
  destruct (pow2_le (Z.log2 n - Z.log2 (Z.pos d)) n d) eqn:E; [exact E |].
  clear E. unfold pow2_le.
  pose proof (Z.log2_spec n Hn) as [Hn1 _].
  pose proof (Z.log2_spec (Z.pos d) (Pos2Z.is_pos d)) as [_ Hd2].
  pose proof (Z.log2_nonneg n) as Hln.
  pose proof (Z.log2_nonneg (Z.pos d)) as Hld.
  set (ln := Z.log2 n) in *. set (ld := Z.log2 (Z.pos d)) in *.
  destruct (Z.leb_spec 0 (ln - ld - 1)) as [He | He].
  - apply Z.leb_le.
    assert (2 ^ ln = 2 ^ (Z.succ ld) * 2 ^ (ln - ld - 1))%Z as Hpow.
    { rewrite <- Z.pow_add_r by lia. f_equal. lia. }
    assert (0 < 2 ^ (ln - ld - 1))%Z by (apply Z.pow_pos_nonneg; lia).
    nia.
  - apply Z.leb_le.
    assert (2 ^ (Z.succ ld) = 2 ^ ln * 2 ^ (- (ln - ld - 1)))%Z as Hpow.
    { rewrite <- Z.pow_add_r by lia. f_equal. lia. }
    assert (0 < 2 ^ (- (ln - ld - 1)))%Z by (apply Z.pow_pos_nonneg; lia).
    nia.
Qed.

Lemma nearest_even_spec num den :
  (0 < den)%Z →
  (- den ≤ 2 * (nearest_even num den * den - num) ≤ den)%Z.
Proof.
  intros Hden. unfold nearest_even.
  pose proof (Z.div_mod num den ltac:(lia)) as Hdm.
  pose proof (Z.mod_pos_bound num den Hden) as Hr.
  set (q := (num / den)%Z) in *. set (r := (num mod den)%Z) in *.
  destruct (Z.ltb_spec (2 * r) den); [nia |].
  destruct (Z.ltb_spec den (2 * r)); [nia |].
  destruct (Z.even q); nia.
Qed.

(** The relative error of rounding a positive rational is at most
    [2^-53]: the significand is at least [2^52] and moves by at most
    one half. *)
Lemma round_magnitude_error (a : Z) (d : positive) :
  (0 < a)%Z →
  (- ((1 # 9007199254740992) * (a # d)) <= round_magnitude a d - (a # d)
   <= (1 # 9007199254740992) * (a # d))%Q.
Proof.
  intros Ha. unfold round_magnitude.
  pose proof (exponent_spec a d Ha) as He. unfold pow2_le in He.
  set (e := exponent a d) in *.
  destruct (Z.leb_spec 0 (e - 52)) as [Hs | Hs].
  - destruct (Z.leb_spec 0 e); [| lia]. apply Z.leb_le in He.
    set (s := (e - 52)%Z) in *.
    assert (0 < 2 ^ s)%Z as Hp by (apply Z.pow_pos_nonneg; lia).
    assert (2 ^ e = 2 ^ 52 * 2 ^ s)%Z as Hpow.
    { rewrite <- Z.pow_add_r by lia. f_equal. lia. }
    pose proof (nearest_even_spec a (Z.pos d * 2 ^ s) ltac:(nia)) as Hm.
    set (m := nearest_even a (Z.pos d * 2 ^ s)) in *.
    unfold Qle, Qminus, Qplus, Qopp, Qmult, inject_Z.
    simpl. rewrite !Pos2Z.inj_mul.
    change (2 ^ 52)%Z with 4503599627370496%Z in *.
    split; nia.
  - set (k := (- (e - 52))%Z) in *.
    assert (0 < 2 ^ k)%Z as Hp by (apply Z.pow_pos_nonneg; lia).
    pose proof (nearest_even_spec (a * 2 ^ k) (Z.pos d) (Pos2Z.is_pos d))
      as Hm.
    set (m := nearest_even (a * 2 ^ k) (Z.pos d)) in *.
    assert (4503599627370496 * Z.pos d ≤ a * 2 ^ k)%Z as Hlow.
    { destruct (Z.leb_spec 0 e) as [He0 | He0].
      - apply Z.leb_le in He.
        assert (4503599627370496 = 2 ^ e * 2 ^ k)%Z as Hpow.
        { rewrite <- Z.pow_add_r by lia. replace (e + k)%Z with 52%Z by lia.
          reflexivity. }
        nia.
      - apply Z.leb_le in He.
        assert (2 ^ k = 4503599627370496 * 2 ^ (- e))%Z as Hpow.
        { change 4503599627370496%Z with (2 ^ 52)%Z.
          rewrite <- Z.pow_add_r by lia. f_equal. lia. }
        nia. }
    unfold Qle, Qminus, Qplus, Qopp, Qmult.
    simpl. rewrite !Pos2Z.inj_mul, !Z2Pos.id by lia.
    split; nia.
Qed.

Lemma round_binary64_error x :
  Qcabs.Qcabs (round_binary64 x - x) ≤ unit_roundoff * Qcabs.Qcabs x.
Proof.
  apply Qcabs.Qcabs_Qcle_condition.
  destruct x as [[n d] Hc]. unfold round_binary64. cbn [Qnum Qden this].
  destruct (Z.eqb_spec n 0) as [-> | Hn0].
  - assert ({| this := 0 # d; canon := Hc |} = 0) as ->.
    { apply Qc_is_canon. reflexivity. }
    split; vm_compute; intros H; discriminate H.
  - destruct (Z.ltb_spec n 0) as [Hneg | Hpos].
    + pose proof (round_magnitude_error (- n) d ltac:(lia)) as [H1 H2].
      assert (Qcabs.Qcabs {| this := n # d; canon := Hc |}
              = - {| this := n # d; canon := Hc |}) as ->.
      { apply Qcabs.Qcabs_neg. unfold Qcle, Qle. simpl. lia. }
      unfold Qcle, Qcminus, Qcplus, Qcmult, Qcopp, unit_roundoff, dec.
      cbn [this Q2Qc]. rewrite !Qred_correct.
      assert ((- n # d) == - (n # d))%Q as Heq by reflexivity.
      rewrite Heq in H1, H2. split; lra.
    + pose proof (round_magnitude_error n d ltac:(lia)) as [H1 H2].
      assert (Qcabs.Qcabs {| this := n # d; canon := Hc |}
              = {| this := n # d; canon := Hc |}) as ->.
      { apply Qcabs.Qcabs_pos. unfold Qcle, Qle. simpl. lia. }
      unfold Qcle, Qcminus, Qcplus, Qcmult, Qcopp, unit_roundoff, dec.
      cbn [this Q2Qc]. rewrite !Qred_correct. split; lra.
Qed.

Lemma unit_roundoff_nonneg : 0 ≤ unit_roundoff.
Proof. vm_compute. intros H. discriminate H. Qed.

(** Adding [d] to [x] and subtracting it again, each result rounded
    with relative error at most [u], gives [x] back within
    [u (2 + u) (|x| + |d|)]. *)
Lemma add_sub_rounded (rnd : Qc → Qc) (u x d : Qc) :
  0 ≤ u →
  (∀ z, Qcabs.Qcabs (rnd z - z) ≤ u * Qcabs.Qcabs z) →
  Qcabs.Qcabs (rnd (rnd (x + d) - d) - x)
  ≤ u * (2 + u) * (Qcabs.Qcabs x + Qcabs.Qcabs d).
Proof.
  intros Hu Hrnd.
  pose proof (Hrnd (x + d)) as Ha.
  pose proof (Hrnd (rnd (x + d) - d)) as Hb.
  pose proof (Qcabs.Qcabs_triangle x d) as Hxd.
  set (a := rnd (x + d)) in *. set (b := rnd (a - d)) in *.
  set (ea := Qcabs.Qcabs (a - (x + d))) in *.
  set (eb := Qcabs.Qcabs (b - (a - d))) in *.
  set (S := Qcabs.Qcabs x + Qcabs.Qcabs d) in *.
  pose proof (Qcabs.Qcabs_nonneg x) as Hx0.
  pose proof (Qcabs.Qcabs_nonneg d) as Hd0.
  assert (Qcabs.Qcabs (a - d) ≤ Qcabs.Qcabs x + ea) as Had.
  { replace (a - d) with (x + (a - (x + d))) by ring.
    apply Qcabs.Qcabs_triangle. }
  assert (Qcabs.Qcabs (b - x) ≤ eb + ea) as Hbx.
  { replace (b - x) with ((b - (a - d)) + (a - (x + d))) by ring.
    apply Qcabs.Qcabs_triangle. }
  assert (ea ≤ u * S) as Hea.
  { etransitivity; [exact Ha |]. rewrite !(Qcmult_comm u).
    by apply Qcmult_le_compat_r. }
  assert (eb ≤ u * (S + u * S)) as Heb.
  { etransitivity; [exact Hb |]. rewrite !(Qcmult_comm u).
    apply Qcmult_le_compat_r; [| done].
    etransitivity; [exact Had |]. unfold S in *. clear -Hea Hd0. qc_lra. }
  etransitivity; [exact Hbx |].
  replace (u * (2 + u) * S) with (u * (S + u * S) + u * S) by ring.
  clear -Hea Heb. qc_lra.
Qed.

Lemma add_sub_binary64 (x d : Qc) :
  Qcabs.Qcabs (round_binary64 (round_binary64 (x + d) - d) - x)
  ≤ tolerance x d.
Proof.
  apply add_sub_rounded;
    [apply unit_roundoff_nonneg | apply round_binary64_error].
Qed.

(** Without rounding the two definitions are those of the exact
    model. *)
Lemma addServed_rounded_exact this device :
  addServed_rounded (λ x, x) this device = addServed this device.
Proof. reflexivity. Qed.

Lemma rmvServed_rounded_exact this device :
  rmvServed_rounded (λ x, x) this device = rmvServed this device.
Proof. reflexivity. Qed.

(** C9.  Round trip.  For a device that is not in the served set of a
    server, [addServed] followed by [rmvServed], every [double] update
    rounded as the machine rounds it, succeeds twice; it restores the
    served set and the core count exactly and each of the five [double]
    sums (cost, processing capacity, memory, storage, bandwidth) within
    the floating-point tolerance
    [2^-53 (2 + 2^-53) (|sum| + |demand|)]; the static fields of server
    and device are untouched and the device ends not served.  And
    [rmvServed] alone returns false and changes neither the server nor
    the device. *)
Theorem addServed_rmvServed_roundtrip (this : Server) (device : Device) :
  d_id device ∉ devices_served (supply this) →
  (let '(added, this1, device1) :=
     addServed_rounded round_binary64 this device in
   let '(removed, this2, device2) :=
     rmvServed_rounded round_binary64 this1 device1 in
   added = true ∧ removed = true ∧ restored this device this2 device2) ∧
  rmvServed_rounded round_binary64 this device = (false, this, device).
Proof.
  intros Hnotin. split.
  - unfold addServed_rounded. rewrite bool_decide_eq_false_2 by done.
    unfold rmvServed_rounded. simpl.
    rewrite bool_decide_eq_false_2 by set_solver.
    assert (({[d_id device]} ∪ devices_served (supply this))
              ∖ {[d_id device]} = devices_served (supply this)) as Hset
      by set_solver.
    split; [done |]. split; [done |].
    assert (restored this device
              (set_supply
                 {| pcnD := pcnD (supply this) + d_pcn device
                            - d_pcn device;
                    cndD := round_binary64
                              (round_binary64 (cndD (supply this)
                                               + cnd device) - cnd device);
                    pccD := round_binary64
                              (round_binary64 (pccD (supply this)
                                               + pcc device) - pcc device);
                    memD := round_binary64
                              (round_binary64 (memD (supply this)
                                               + d_mem device)
                               - d_mem device);
                    stoD := round_binary64
                              (round_binary64 (stoD (supply this)
                                               + d_sto device)
                               - d_sto device);
                    bwD := round_binary64
                             (round_binary64 (bwD (supply this)
                                              + d_bw device) - d_bw device);
                    devices_served :=
                      ({[d_id device]} ∪ devices_served (supply this))
                        ∖ {[d_id device]} |}
                 (set_on true this))
              (set_served false (set_served true device))) as Hres.
    { unfold restored. simpl.
      split; [exact Hset |]. split; [lia |].
      repeat (split; [apply add_sub_binary64 |]).
      by repeat split. }
    destruct (bool_decide _); [| exact Hres].
    destruct Hres as (H1 & H2 & H3 & H4 & H5 & H6 & H7 & H8 & H9 & H10).
    unfold restored. simpl in *. by repeat (split; [assumption |]).
  - unfold rmvServed_rounded. by rewrite bool_decide_eq_true_2.
Qed.
(* ===================================================================== *)
(** * The further properties on the instance *)
(* ===================================================================== *)

Lemma ex_metrics_eq :
  calculateMetrics (r_devices ex_greedy) (r_servers ex_greedy)
                   (metrics ex_state) = Ok ex_metrics.
Proof.
  unfold ex_metrics.
  destruct (calculateMetrics _ _ _) as [m | |] eqn:E;
    [reflexivity | |]; vm_compute in E; discriminate E.
Qed.


Lemma calculateMetrics_idempotent_witness :
  calculateMetrics (r_devices ex_greedy) (r_servers ex_greedy)
                   (metrics ex_state) = Ok ex_metrics ∧
  calculateMetrics (r_devices ex_greedy) (r_servers ex_greedy) ex_metrics
  = Ok ex_metrics.
Proof.
  split; [exact ex_metrics_eq |].
  exact (calculateMetrics_idempotent (r_devices ex_greedy)
           (r_servers ex_greedy) (metrics ex_state) ex_metrics
           ex_metrics_eq).
Defined.

Lemma ex_timed_eq :
  timeCalculation ex_calculateDistance ex_covering.1.1 ex_servers
  = Ok ex_timed.
Proof.
  unfold ex_timed.
  destruct (timeCalculation _ _ _) as [m | |] eqn:E;
    [reflexivity | |]; vm_compute in E; discriminate E.
Qed.

Lemma timeCalculation_links_witness :
  timeCalculation ex_calculateDistance ex_covering.1.1 ex_servers
  = Ok ex_timed ∧
  length ex_timed = length ex_covering.1.1.
Proof.
  split; [exact ex_timed_eq |].
  exact (proj1 (timeCalculation_links ex_calculateDistance ex_covering.1.1
                  ex_servers ex_timed ex_timed_eq)).
Defined.

Lemma ex_covered_device_eq : vat ex_covering.1.1 1 = Ok ex_covered_device.
Proof.
  unfold ex_covered_device.
  destruct (vat _ _) as [d | |] eqn:E;
    [reflexivity | |]; vm_compute in E; discriminate E.
Qed.

Lemma ex_timed_device_eq : vat ex_timed 1 = Ok ex_timed_device.
Proof.
  unfold ex_timed_device.
  destruct (vat _ _) as [d | |] eqn:E;
    [reflexivity | |]; vm_compute in E; discriminate E.
Qed.

Lemma ex_cloud_link_elem : ex_cloud_link ∈ servers ex_timed_device.
Proof.
  unfold ex_cloud_link.
  destruct (servers ex_timed_device) as [| c1 [| c2 [| c3 l]]] eqn:E;
    try (vm_compute in E; discriminate E).
  apply list_elem_of_further, list_elem_of_here.
Qed.

Lemma ex_near_edge :
  ∃ e, e ∈ servers ex_covered_device ∧
       server_type_at ex_servers "E" (sc_id e) = true ∧
       distance e < EARTH_RADIUS_KM.
Proof.
  destruct (servers ex_covered_device) as [| c1 l] eqn:E;
    [vm_compute in E; discriminate E |].
  exists c1. split; [apply list_elem_of_here |].
  assert (head (servers ex_covered_device) = Some c1) as Hc
    by by rewrite E.
  clear E. vm_compute in Hc. injection Hc as <-.
  split; vm_compute; reflexivity.
Qed.

Lemma timeCalculation_routes_via_nearest_edge_witness :
  (timeCalculation ex_calculateDistance ex_covering.1.1 ex_servers
   = Ok ex_timed ∧
   vat ex_covering.1.1 1 = Ok ex_covered_device ∧
   covered ex_covered_device = true ∧
   vat ex_timed 1 = Ok ex_timed_device ∧
   ex_cloud_link ∈ servers ex_timed_device ∧
   server_type_at ex_servers "C" (sc_id ex_cloud_link) = true) ∧
  ∃ e, e ∈ servers ex_covered_device ∧ id_routing ex_cloud_link = sc_id e.
Proof.
  assert (covered ex_covered_device = true) as Hc
    by (vm_compute; reflexivity).
  assert (server_type_at ex_servers "C" (sc_id ex_cloud_link) = true) as Ht
    by (vm_compute; reflexivity).
  split.
  { split; [exact ex_timed_eq |]. split; [exact ex_covered_device_eq |].
    split; [exact Hc |]. split; [exact ex_timed_device_eq |].
    split; [exact ex_cloud_link_elem | exact Ht]. }
  destruct (proj1 (timeCalculation_routes_via_nearest_edge
                     ex_calculateDistance ex_covering.1.1 ex_servers
                     ex_timed 1%Z ex_covered_device ex_timed_device
                     ex_cloud_link ex_timed_eq (Z.le_refl 1)
                     ex_covered_device_eq Hc ex_timed_device_eq
                     ex_cloud_link_elem Ht) ex_near_edge)
    as (e & sv_e & sv_c & He & _ & _ & Hid & _).
  exists e. split; [exact He | exact Hid].
Defined.

Lemma ex_loadDevices_constructed n :
  Forall constructed_device (ex_loadDevices n).
Proof. unfold ex_loadDevices, constructed_device. by repeat constructor. Qed.

Lemma ex_loadDevices_ids n : ids_by_position (ex_loadDevices n).
Proof.
  intros i d [Hi Hd]%vat_Ok. unfold ex_loadDevices in Hd.
  destruct (Z.to_nat i) as [| [| [| k]]] eqn:Hk; simpl in Hd;
    [| | | done]; injection Hd as <-; simpl; lia.
Qed.

Lemma ex_state_ready : ready ex_state.
Proof.
  exact (proj1 (pre_calculation_ready_state ex_calculateDistance
                  ex_loadDevices ex_loadServers "Heuristic"%string
                  "Random"%string 2%Z 1%Z 1%Z 4%Z ex_state
                  (ex_loadDevices_constructed 2%Z) (ex_loadDevices_ids 2%Z)
                  (ex_loadServers_constructed 1%Z 1%Z) ex_state_eq)).
Qed.

Lemma pre_calculation_ready_witness :
  (Forall constructed_device (ex_loadDevices 2) ∧
   ids_by_position (ex_loadDevices 2) ∧
   Forall constructed_server (ex_loadServers 1 1) ∧
   pre_calculation ex_calculateDistance ex_loadDevices ex_loadServers
                   "Heuristic" "Random" 2 1 1 4 = Ok (Some ex_state)) ∧
  ready ex_state.
Proof.
  split.
  { split; [exact (ex_loadDevices_constructed 2%Z) |].
    split; [exact (ex_loadDevices_ids 2%Z) |].
    split; [exact (ex_loadServers_constructed 1%Z 1%Z) | exact ex_state_eq]. }
  exact (proj1 (pre_calculation_ready ex_calculateDistance
                  ex_loadDevices ex_loadServers "Heuristic"%string
                  "Random"%string 2%Z 1%Z 1%Z 4%Z ex_state
                  (ex_loadDevices_constructed 2%Z) (ex_loadDevices_ids 2%Z)
                  (ex_loadServers_constructed 1%Z 1%Z) ex_state_eq)).
Defined.

Lemma ex_greedy_completes : completes (Greedy true false) ex_state ex_greedy.
Proof. constructor. apply ex_greedy_eq. Qed.

Lemma ex_state_distinct : distinct_ids (r_devices ex_state).
Proof.
  apply ids_by_position_distinct.
  exact (proj1 (proj2 (proj2 ex_state_ready))).
Qed.

Lemma heuristics_assign_consistently_witness :
  (Greedy true false ≠ SimulatedAnnealing ∧
   completes (Greedy true false) ex_state ex_greedy ∧
   distinct_ids (r_devices ex_state) ∧
   NoDup (coveredDevicesIdx ex_state) ∧
   unassigned (r_devices ex_state) (r_servers ex_state)) ∧
  Forall legal (r_devices ex_greedy).
Proof.
  assert (Greedy true false ≠ SimulatedAnnealing) as Hk
    by (intros H; discriminate H).
  pose proof (proj1 (proj2 ex_state_ready)) as Hnd.
  pose proof (proj1 (proj2 (proj2 (proj2 ex_state_ready)))) as Hun.
  split.
  { split; [exact Hk |]. split; [exact ex_greedy_completes |].
    split; [exact ex_state_distinct |]. split; [exact Hnd | exact Hun]. }
  exact (proj2 (proj2 (heuristics_assign_consistently (Greedy true false)
                         ex_state ex_greedy Hk ex_greedy_completes
                         ex_state_distinct Hnd Hun))).
Defined.

Lemma real_servers_check servers_ :
  forallb (λ sv, negb (s_id sv =? 0)%Z) (drop 1 servers_) = true →
  real_servers servers_.
Proof.
  rewrite forallb_forall. intros H j sv Hj Hsv.
  assert (sv ∈ drop 1 servers_) as Hin by (apply elem_of_drop1; eauto).
  apply list_elem_of_In, H, negb_true_iff, Z.eqb_neq in Hin. exact Hin.
Qed.

Lemma ex_state_real : real_servers (r_servers ex_state).
Proof. apply real_servers_check. vm_compute. reflexivity. Qed.

Lemma ex_random_consistent :
  consistent (r_devices ex_random) (r_servers ex_random) ∧
  accountable (r_devices ex_random) (r_servers ex_random)
              (coveredDevicesIdx ex_random).
Proof.
  destruct ex_random_eq as [e' H].
  assert (Random ≠ SimulatedAnnealing) as Hk by (intros H'; discriminate H').
  assert (completes Random ex_state ex_random) as Hrun
    by (econstructor; exact H).
  destruct (ready_heuristic Random ex_state ex_random ex_state_ready
              ex_state_real Hk Hrun) as (Hc & Ha & _).
  split; [exact Hc | exact Ha].
Qed.

Lemma ex_neighbor_eq :
  generateNeighbor (r_devices ex_random) (r_servers ex_random)
                   (coveredDevicesIdx ex_random) 0 0 ex_engine
  = Ok (ex_neighbor.1.1.1.1, ex_neighbor.1.1.1.2, ex_neighbor.1.1.2,
        ex_neighbor.1.2, ex_neighbor.2).
Proof.
  unfold ex_neighbor.
  destruct (generateNeighbor _ _ _ _ _ _) as [[[[[a b] c] d] e] | |] eqn:E;
    [reflexivity | |]; vm_compute in E; discriminate E.
Qed.

Lemma generateNeighbor_keeps_consistent_witness :
  (consistent (r_devices ex_random) (r_servers ex_random) ∧
   accountable (r_devices ex_random) (r_servers ex_random)
               (coveredDevicesIdx ex_random) ∧
   generateNeighbor (r_devices ex_random) (r_servers ex_random)
                    (coveredDevicesIdx ex_random) 0 0 ex_engine
   = Ok (ex_neighbor.1.1.1.1, ex_neighbor.1.1.1.2, ex_neighbor.1.1.2,
         ex_neighbor.1.2, ex_neighbor.2)) ∧
  consistent ex_neighbor.1.1.1.1 ex_neighbor.1.1.1.2.
Proof.
  split.
  { split; [exact (proj1 ex_random_consistent) |].
    split; [exact (proj2 ex_random_consistent) | exact ex_neighbor_eq]. }
  exact (proj1 (generateNeighbor_keeps_consistent _ _ _ _ _ _ _ _ _ _ _
                  (proj1 ex_random_consistent) (proj2 ex_random_consistent)
                  ex_neighbor_eq)).
Defined.

Lemma simulatedAnnealing_reports_best_witness :
  (consistent (r_devices ex_random) (r_servers ex_random) ∧
   accountable (r_devices ex_random) (r_servers ex_random)
               (coveredDevicesIdx ex_random)) ∧
  ∃ e' a,
    simulatedAnnealing ex_exp 20 100 ex_random 1 (dec 1 2) ex_engine
    = Ok (ex_annealed, e') ∧
    consistent (bestDevices a) (bestServers a) ∧
    calculateMetrics (bestDevices a) (bestServers a) (metrics ex_random)
    = Ok (metrics ex_annealed).
Proof.
  split; [exact ex_random_consistent |].
  destruct ex_annealed_eq as [e' H]. exists e'.
  destruct (simulatedAnnealing_reports_best ex_exp 20 100 ex_random 1
              (dec 1 2) ex_engine ex_annealed e'
              (proj1 ex_random_consistent) (proj2 ex_random_consistent) H)
    as (a & e1 & _ & Hc & _ & Hm & _).
  exists a. split; [exact H |]. split; [exact Hc | exact Hm].
Defined.

Lemma ex_greedy_pass_eq :
  greedyHeuristic_body false (r_devices ex_state, r_servers ex_state) 1
  = Ok (ex_greedy_pass.1, ex_greedy_pass.2).
Proof.
  unfold ex_greedy_pass.
  destruct (greedyHeuristic_body _ _ _) as [[a b] | |] eqn:E;
    [reflexivity | |]; vm_compute in E; discriminate E.
Qed.

Lemma greedy_commits_first_feasible_witness :
  greedyHeuristic_body false (r_devices ex_state, r_servers ex_state) 1
  = Ok (ex_greedy_pass.1, ex_greedy_pass.2) ∧
  ∃ device', vat ex_greedy_pass.1 1 = Ok device' ∧
             StronglySorted (responseTime_le false) (servers device').
Proof.
  split; [exact ex_greedy_pass_eq |].
  destruct (greedy_commits_first_feasible false (r_devices ex_state)
              (r_servers ex_state) 1%Z ex_greedy_pass.1 ex_greedy_pass.2
              ex_greedy_pass_eq)
    as (device & device' & _ & Hd' & _ & Hsorted & _).
  exists device'. split; [exact Hd' | exact Hsorted].
Defined.

Lemma greedy_sorts_candidates_witness :
  greedyHeuristic ex_state true false = Ok ex_greedy ∧
  ∀ i d', i ∈ coveredDevicesIdx ex_state →
          vat (r_devices ex_greedy) i = Ok d' →
          StronglySorted (responseTime_le false) (servers d').
Proof.
  split; [exact ex_greedy_eq |].
  exact (greedy_sorts_candidates ex_state true false ex_greedy ex_greedy_eq).
Defined.



Lemma ex_delimiter : ";"%char ≠ newline.
Proof. intros H. discriminate H. Qed.

Lemma ex_table_plain : plain_table ";" ex_table.
Proof.
  unfold plain_table, ex_table, plain_cell.
  repeat (constructor; try (intros H; discriminate H)).
Qed.

Lemma FileManager_roundtrip_witness :
  (";"%char ≠ newline ∧ plain_table ";" ex_table) ∧
  ∃ files',
    FileManager_write ex_environment ex_environment ex_environment ex_files
                      "out/devices.csv" ex_table ";"
    = write_returns true files' ∧
    FileManager_read files' "out/devices.csv" ";" = Some ex_table.
Proof.
  split; [split; [exact ex_delimiter | exact ex_table_plain] |].
  eexists. split; [reflexivity |].
  exact (proj1 (proj1 (proj2 (proj2 (proj2
           (FileManager_roundtrip ex_environment ex_environment
              ex_environment ex_files "out/devices.csv"%string ex_table
              ";"%char ex_delimiter ex_table_plain))))
           true _ eq_refl)).
Defined.



Lemma ex_bottleneck_eq :
  createBottleneck (Some ex_state) false ex_engine
  = Some (ex_bottleneck.1, ex_bottleneck.2).
Proof.
  unfold ex_bottleneck.
  destruct (createBottleneck _ _ _) as [[a b] |] eqn:E;
    [reflexivity |]; vm_compute in E; discriminate E.
Qed.

Lemma createBottleneck_rewrites_witness :
  createBottleneck (Some ex_state) false ex_engine
  = Some (ex_bottleneck.1, ex_bottleneck.2) ∧
  r_servers ex_bottleneck.1 = r_servers ex_state ∧
  ready ex_bottleneck.1.
Proof.
  split; [exact ex_bottleneck_eq |].
  pose proof (createBottleneck_rewrites ex_state false ex_engine
                ex_bottleneck.1 ex_bottleneck.2 ex_bottleneck_eq) as H.
  split; [exact (proj1 H) |].
  exact (proj2 (proj2 (proj2 (proj2 (proj2 (proj2 (proj2 (proj2 H)))))))
               ex_state_ready).
Defined.
(** The rounding on a few values: 0.1 and 1/3 get their nearest
    doubles, a double is left alone, and a tie goes to the even
    significand ([2^53 + 1] down, [2^53 + 3] up). *)
Example round_binary64_values :
  round_binary64 (dec 1 10) = dec 3602879701896397 36028797018963968 ∧
  round_binary64 (dec 1 3) = dec 6004799503160661 18014398509481984 ∧
  round_binary64 (dec (-5) 2) = dec (-5) 2 ∧
  round_binary64 (dec 9007199254740993 1) = dec 9007199254740992 1 ∧
  round_binary64 (dec 9007199254740995 1) = dec 9007199254740996 1.
Proof.
  repeat split; apply Qc_is_canon; vm_compute; reflexivity.
Qed.

(** The round trip on doubles is not exact: with 0.1 held, committing
    and releasing a demand of 0.2 leaves 0.1 + 2^-55
    (0.10000000000000003 in the shortest decimal form). *)
Example roundtrip_rounds :
  memD (supply ex_loaded) = dec 3602879701896397 36028797018963968 ∧
  memD (supply ex_released) = dec 1801439850948199 18014398509481984 ∧
  memD (supply ex_released) - memD (supply ex_loaded)
  = dec 1 36028797018963968.
Proof.
  repeat split; apply Qc_is_canon; vm_compute; reflexivity.
Qed.

Lemma ex_loaded_free : d_id ex_device_b ∉ devices_served (supply ex_loaded).
Proof.
  unfold ex_loaded, addServed_rounded.
  rewrite bool_decide_eq_false_2 by apply not_elem_of_empty.
  simpl. set_solver.
Qed.

Lemma addServed_rmvServed_roundtrip_witness :
  (d_id ex_device_b ∉ devices_served (supply ex_loaded)) ∧
  (let '(added, this1, device1) :=
     addServed_rounded round_binary64 ex_loaded ex_device_b in
   let '(removed, this2, device2) :=
     rmvServed_rounded round_binary64 this1 device1 in
   added = true ∧ removed = true ∧
   restored ex_loaded ex_device_b this2 device2).
Proof.
  split; [exact ex_loaded_free |].
  exact (proj1 (addServed_rmvServed_roundtrip ex_loaded ex_device_b
                  ex_loaded_free)).
Defined.
